(** * Labyrinth game: level simulation and editor placement rules

    A shallow embedding of the game logic of [CODE.py] (player and enemy
    movement on the maze grid, level setup, the play loop's treasure
    collection, the level editor's click handling and layout export),
    together with the properties the specification states about them.

    Modelling conventions.
    - Screen coordinates are integers ([Z]).  Every coordinate the game
      logic produces is one: [GameLevel.get_screen_position] and
      [LevelEditor.cell_to_pixel] return Python ints, the displacements of
      [Direction] are ints, and pointer clicks are whole screen pixels.
    - [math.sqrt (dx**2 + dy**2) < r] for integer [dx], [dy], [r] is
      modelled by the equivalent integer test [dx^2 + dy^2 < r^2].
    - Python's [round] (round half to even) applied to [a / b] is
      [py_round_div a b].
    - A Python [set] object lives in a store indexed by addresses, so that
      two references to the same set stay aliases.
    - [random.choice xs] receives the index drawn by the generator as an
      explicit argument.
    - Drawing, sleeping and timer scheduling are not modelled. *)

From Stdlib Require Import ZArith Lia Ascii String.
From stdpp Require Import base decidable option list gmap strings.
From stdpp Require Import relations.

Local Open Scope Z_scope.

(** ** Constants *)

Module Config.
Definition CELL_SIZE : Z := 24.
Definition PLAYER_DETECTION_RADIUS : Z := 100.
Definition COLLISION_DISTANCE : Z := 5.
Definition TREASURE_VALUE : Z := 100.
Definition ENEMY_VALUE : Z := 25.
Definition GRID_ROWS : Z := 20.
Definition GRID_COLS : Z := 25.
End Config.

(** ** Directions *)

Inductive Direction : Set := UP | DOWN | LEFT | RIGHT.

#[global] Instance Direction_eq_dec : EqDecision Direction.
Proof. solve_decision. Defined.

Definition value (d : Direction) : Z * Z :=
  match d with
  | UP => (0, 24)
  | DOWN => (0, -24)
  | LEFT => (-24, 0)
  | RIGHT => (24, 0)
  end.

Definition dx (d : Direction) : Z := fst (value d).
Definition dy (d : Direction) : Z := snd (value d).

Definition opposite (d : Direction) : Direction :=
  match d with
  | UP => DOWN
  | DOWN => UP
  | LEFT => RIGHT
  | RIGHT => LEFT
  end.

(** [list(Direction)]: the members in definition order. *)
Definition all_directions : list Direction := [UP; DOWN; LEFT; RIGHT].

(** [random.choice(list(Direction))], given the index [k] the generator
    drew below [len(list(Direction))]. *)
Definition random_choice (k : nat) : Direction :=
  default UP (all_directions !! k).

(** ** Positions *)

(** [Position.to_tuple]: the key used in the occupancy sets. *)
Definition Pos : Type := Z * Z.

(** [Position.distance_to other < r], on integer coordinates. *)
Definition distance_lt (a b : Pos) (r : Z) : bool :=
  bool_decide ((a.1 - b.1) ^ 2 + (a.2 - b.2) ^ 2 < r ^ 2).

Definition step_from (p : Pos) (d : Direction) : Pos :=
  (p.1 + dx d, p.2 + dy d).

(** ** Player *)

Module Player.

Record t : Type := mk {
  pos : Pos;
  gold : Z;
  move_history : list Direction;
  is_auto_mode : bool;
  is_reverse_mode : bool
}.

(** [Player.__init__]; a fresh turtle sits at the origin. *)
Definition init : t :=
  {| pos := (0, 0); gold := 0; move_history := [];
     is_auto_mode := false; is_reverse_mode := false |}.

Definition goto (q : Pos) (p : t) : t :=
  {| pos := q; gold := gold p; move_history := move_history p;
     is_auto_mode := is_auto_mode p; is_reverse_mode := is_reverse_mode p |}.

Definition set_history (h : list Direction) (p : t) : t :=
  {| pos := pos p; gold := gold p; move_history := h;
     is_auto_mode := is_auto_mode p; is_reverse_mode := is_reverse_mode p |}.

Definition set_auto (b : bool) (p : t) : t :=
  {| pos := pos p; gold := gold p; move_history := move_history p;
     is_auto_mode := b; is_reverse_mode := is_reverse_mode p |}.

Definition set_reverse (b : bool) (p : t) : t :=
  {| pos := pos p; gold := gold p; move_history := move_history p;
     is_auto_mode := is_auto_mode p; is_reverse_mode := b |}.

Definition add_gold (g : Z) (p : t) : t :=
  {| pos := pos p; gold := gold p + g; move_history := move_history p;
     is_auto_mode := is_auto_mode p; is_reverse_mode := is_reverse_mode p |}.

(** [Player.move(direction, walls)]: the returned flag and the player
    afterwards. *)
Definition move (direction : Direction) (walls : gset Pos) (p : t) : bool * t :=
  let new_pos := step_from (pos p) direction in
  if bool_decide (new_pos ∉ walls)
     && negb (is_auto_mode p) && negb (is_reverse_mode p)
  then (true,
        set_history (move_history p ++ [opposite direction]) (goto new_pos p))
  else (false, p).

(** [Player.move_to_direction(direction)]: no validation. *)
Definition move_to_direction (direction : Direction) (p : t) : t :=
  goto (step_from (pos p) direction) p.

(** [Player.is_collision(other)], [other] given by its position. *)
Definition is_collision (p : t) (other : Pos) : bool :=
  distance_lt (pos p) other Config.COLLISION_DISTANCE.

(** [Player.destroy]. *)
Definition destroy (p : t) : t := goto (2000, 2000) p.

(** The victory animation of [Game.run_level]:
    [for direction in self.player.move_history[::-1]:
       self.player.move_to_direction(direction)]. *)
Definition replay (ds : list Direction) (p : t) : t :=
  foldl (fun q d => move_to_direction d q) p ds.

Definition reverse_replay (p : t) : t :=
  replay (reverse (move_history p)) (set_reverse true p).

(** A run of [move] calls that all return [True]. *)
Fixpoint moves (ds : list Direction) (walls : gset Pos) (p : t) : option t :=
  match ds with
  | [] => Some p
  | d :: ds' =>
      match move d walls p with
      | (true, p') => moves ds' walls p'
      | (false, _) => None
      end
  end.

End Player.

(** ** Enemies *)

(** Addresses of the [set] objects, and the store that holds them. *)
Abbreviation addr := nat (only parsing).
Abbreviation store := (gmap nat (gset Pos)) (only parsing).

Definition deref (st : store) (a : addr) : gset Pos := default ∅ (st !! a).

(** [set()]: a new empty set at an address not in use. *)
Definition alloc (st : store) : addr * store :=
  let a := fresh (dom st) in (a, <[a := ∅]> st).

(** [s.add(p)] on the set at address [a]. *)
Definition set_add (a : addr) (p : Pos) (st : store) : store :=
  <[a := {[p]} ∪ deref st a]> st.

Module Enemy.

(** [player_ref] tells whether the reference to the game's player has
    been set; the player itself is passed to the functions that read it. *)
Record t : Type := mk {
  pos : Pos;
  gold : Z;
  current_direction : Direction;
  walls : addr;
  treasures : addr;
  player_ref : bool;
  is_active : bool
}.

(** [Enemy.__init__(x, y)]; [k] is the index drawn by [random.choice]. *)
Definition init (p : Pos) (k : nat) (st : store) : t * store :=
  let '(w, st1) := alloc st in
  let '(tr, st2) := alloc st1 in
  ({| pos := p; gold := Config.ENEMY_VALUE;
      current_direction := random_choice k;
      walls := w; treasures := tr; player_ref := false; is_active := true |},
   st2).

Definition goto (q : Pos) (e : t) : t :=
  {| pos := q; gold := gold e; current_direction := current_direction e;
     walls := walls e; treasures := treasures e;
     player_ref := player_ref e; is_active := is_active e |}.

Definition set_direction (d : Direction) (e : t) : t :=
  {| pos := pos e; gold := gold e; current_direction := d;
     walls := walls e; treasures := treasures e;
     player_ref := player_ref e; is_active := is_active e |}.

Definition set_active (b : bool) (e : t) : t :=
  {| pos := pos e; gold := gold e; current_direction := current_direction e;
     walls := walls e; treasures := treasures e;
     player_ref := player_ref e; is_active := b |}.

(** [Enemy.set_obstacles(walls, treasures)] stores the two references. *)
Definition set_obstacles (w tr : addr) (e : t) : t :=
  {| pos := pos e; gold := gold e; current_direction := current_direction e;
     walls := w; treasures := tr;
     player_ref := player_ref e; is_active := is_active e |}.

(** [Enemy.set_player(player)]. *)
Definition set_player (e : t) : t :=
  {| pos := pos e; gold := gold e; current_direction := current_direction e;
     walls := walls e; treasures := treasures e;
     player_ref := true; is_active := is_active e |}.

(** [Enemy._is_close_to_player]. *)
Definition _is_close_to_player (player : Player.t) (e : t) : bool :=
  if negb (player_ref e) then false
  else distance_lt (pos e) (Player.pos player) Config.PLAYER_DETECTION_RADIUS.

(** The [if]/[elif] chain of [Enemy._move_towards_player]: the heading
    held by [current_direction] when [_try_move] is called. *)
Definition chase_heading (player : Player.t) (e : t) : Direction :=
  if (Player.pos player).1 <? (pos e).1 then LEFT
  else if (Player.pos player).1 >? (pos e).1 then RIGHT
  else if (Player.pos player).2 <? (pos e).2 then DOWN
  else if (Player.pos player).2 >? (pos e).2 then UP
  else current_direction e.

(** [Enemy._try_move]; [k] is the index [random.choice] draws if called. *)
Definition _try_move (st : store) (k : nat) (e : t) : t :=
  let new_pos := step_from (pos e) (current_direction e) in
  if bool_decide (new_pos ∉ deref st (walls e))
     && bool_decide (new_pos ∉ deref st (treasures e))
  then goto new_pos e
  else set_direction (random_choice k) e.

(** [Enemy._move_towards_player]. *)
Definition _move_towards_player
    (st : store) (player : Player.t) (k : nat) (e : t) : t :=
  if negb (player_ref e) then e
  else _try_move st k (set_direction (chase_heading player e) e).

(** [Enemy._move_random]. *)
Definition _move_random (st : store) (k : nat) (e : t) : t :=
  _try_move st k e.

(** [Enemy.move]: one tick. *)
Definition move (st : store) (player : Player.t) (k : nat) (e : t) : t :=
  if negb (player_ref e) || negb (is_active e) then e
  else if _is_close_to_player player e
       then _move_towards_player st player k e
       else _move_random st k e.

(** [Enemy.destroy]. *)
Definition destroy (e : t) : t := goto (2000, 2000) (set_active false e).

End Enemy.

(** ** Treasures *)

Module Treasure.

(** [oid] stands for the identity of the Python object: turtles compare
    by identity, which is what [list.remove] uses. *)
Record t : Type := mk { oid : nat; pos : Pos; gold : Z }.

Definition init (i : nat) (p : Pos) : t :=
  {| oid := i; pos := p; gold := Config.TREASURE_VALUE |}.

Definition destroy (tr : t) : t :=
  {| oid := oid tr; pos := (2000, 2000); gold := gold tr |}.

End Treasure.

(** ** Python helpers *)

(** [round(a / b)] for integers [a] and [b > 0]: to the nearest integer,
    a tie going to the even one. *)
Definition py_round_div (a b : Z) : Z :=
  let q := a `div` b in
  let r := a `mod` b in
  if 2 * r <? b then q
  else if b <? 2 * r then q + 1
  else if Z.even q then q else q + 1.

(** [enumerate(l)]. *)
Definition enumerate {A} (l : list A) : list (nat * A) := imap pair l.

(** [range(n)]. *)
Definition range (n : Z) : list Z := Z.of_nat <$> seq 0 (Z.to_nat n).

(** [len(s)] of a string or of a list, as a Python int. *)
Definition str_len (s : string) : Z := Z.of_nat (String.length s).
Definition len {A} (l : list A) : Z := Z.of_nat (length l).

(** [s.lower()] on ASCII text. *)
Definition lower_char (c : ascii) : ascii :=
  let n := nat_of_ascii c in
  if (65 <=? n)%nat && (n <=? 90)%nat then ascii_of_nat (n + 32) else c.

Fixpoint lower (s : string) : string :=
  match s with
  | EmptyString => EmptyString
  | String c s' => String (lower_char c) (lower s')
  end.

(** [Direction.from_string]. *)
Definition from_string (s : string) : Direction :=
  let l := lower s in
  if decide (l = "up") then UP
  else if decide (l = "down") then DOWN
  else if decide (l = "left") then LEFT
  else if decide (l = "right") then RIGHT
  else UP.

(** ** Buttons *)

Module Button.

Record t : Type := mk { x : Z; y : Z; width : Z; height : Z }.

(** [Button.contains_point]. *)
Definition contains_point (b : t) (px py : Z) : bool :=
  (x b <=? px) && (px <=? x b + width b)
  && (y b <=? py) && (py <=? y b + height b).

End Button.

(** ** Levels *)

Module GameLevel.

Record t : Type := mk {
  layout : list string;
  walls : addr;
  treasures : list Treasure.t;
  treasure_positions : addr;
  enemies : list Enemy.t;
  start_pos : option Pos;
  end_pos : option Pos;
  player_spawn : option Pos;
  auto_solution : list string
}.

(** [GameLevel.__init__(layout, auto_solution)]: the two occupancy sets
    are created here, once. *)
Definition init (lay : list string) (auto : list string) (st : store)
    : t * store :=
  let '(w, st1) := alloc st in
  let '(tp, st2) := alloc st1 in
  ({| layout := lay; walls := w; treasures := []; treasure_positions := tp;
      enemies := []; start_pos := None; end_pos := None;
      player_spawn := None; auto_solution := auto |}, st2).

Definition set_treasures (ts : list Treasure.t) (lv : t) : t :=
  {| layout := layout lv; walls := walls lv; treasures := ts;
     treasure_positions := treasure_positions lv; enemies := enemies lv;
     start_pos := start_pos lv; end_pos := end_pos lv;
     player_spawn := player_spawn lv; auto_solution := auto_solution lv |}.

Definition set_enemies (es : list Enemy.t) (lv : t) : t :=
  {| layout := layout lv; walls := walls lv; treasures := treasures lv;
     treasure_positions := treasure_positions lv; enemies := es;
     start_pos := start_pos lv; end_pos := end_pos lv;
     player_spawn := player_spawn lv; auto_solution := auto_solution lv |}.

Definition set_start_pos (p : Pos) (lv : t) : t :=
  {| layout := layout lv; walls := walls lv; treasures := treasures lv;
     treasure_positions := treasure_positions lv; enemies := enemies lv;
     start_pos := Some p; end_pos := end_pos lv;
     player_spawn := player_spawn lv; auto_solution := auto_solution lv |}.

Definition set_end_pos (p : Pos) (lv : t) : t :=
  {| layout := layout lv; walls := walls lv; treasures := treasures lv;
     treasure_positions := treasure_positions lv; enemies := enemies lv;
     start_pos := start_pos lv; end_pos := Some p;
     player_spawn := player_spawn lv; auto_solution := auto_solution lv |}.

Definition set_player_spawn (p : Pos) (lv : t) : t :=
  {| layout := layout lv; walls := walls lv; treasures := treasures lv;
     treasure_positions := treasure_positions lv; enemies := enemies lv;
     start_pos := start_pos lv; end_pos := end_pos lv;
     player_spawn := Some p; auto_solution := auto_solution lv |}.

(** [GameLevel.get_screen_position(row, col)]. *)
Definition get_screen_position (lv : t) (row col : Z) : Pos :=
  let first_row := default EmptyString (layout lv !! 0%nat) in
  (- (Config.CELL_SIZE * py_round_div (str_len first_row) 2)
     + col * Config.CELL_SIZE,
   Config.CELL_SIZE * py_round_div (len (layout lv)) 2
     - row * Config.CELL_SIZE).

End GameLevel.

(** ** The game manager: level setup and the play loop *)

Module Game.

(** The part of the [Game] object that level play reads and writes: the
    store of set objects, the player, the level being played, the counter
    that names new treasure objects, and the three button flags. *)
Record t : Type := mk {
  sets : store;
  player : Player.t;
  level : GameLevel.t;
  next_oid : nat;
  auto_mode : bool;
  create_mode : bool;
  return_to_menu : bool
}.

Definition set_sets (st : store) (g : t) : t :=
  {| sets := st; player := player g; level := level g;
     next_oid := next_oid g; auto_mode := auto_mode g;
     create_mode := create_mode g; return_to_menu := return_to_menu g |}.

Definition set_player (p : Player.t) (g : t) : t :=
  {| sets := sets g; player := p; level := level g;
     next_oid := next_oid g; auto_mode := auto_mode g;
     create_mode := create_mode g; return_to_menu := return_to_menu g |}.

Definition set_level (lv : GameLevel.t) (g : t) : t :=
  {| sets := sets g; player := player g; level := lv;
     next_oid := next_oid g; auto_mode := auto_mode g;
     create_mode := create_mode g; return_to_menu := return_to_menu g |}.

Definition set_next_oid (n : nat) (g : t) : t :=
  {| sets := sets g; player := player g; level := level g;
     next_oid := n; auto_mode := auto_mode g;
     create_mode := create_mode g; return_to_menu := return_to_menu g |}.

Definition set_flags (a c r : bool) (g : t) : t :=
  {| sets := sets g; player := player g; level := level g;
     next_oid := next_oid g; auto_mode := a;
     create_mode := c; return_to_menu := r |}.

(** The body of the parsing loop of [Game.setup_level] for one character.
    [draws n] is the index [random.choice] draws when the enemy number
    [n] of the level is constructed. *)
Definition setup_cell (draws : nat -> nat)
    (row_idx col_idx : nat) (char : ascii) (g : t) : t :=
  let lv := level g in
  let pos := GameLevel.get_screen_position lv
               (Z.of_nat row_idx) (Z.of_nat col_idx) in
  if decide (char = "X"%char) then
    set_sets (set_add (GameLevel.walls lv) pos (sets g)) g
  else if decide (char = "P"%char) then
    set_player (Player.goto pos (player g))
      (set_level (GameLevel.set_player_spawn pos lv) g)
  else if decide (char = "T"%char) then
    set_next_oid (S (next_oid g))
      (set_sets (set_add (GameLevel.treasure_positions lv) pos (sets g))
         (set_level
            (GameLevel.set_treasures
               (GameLevel.treasures lv ++ [Treasure.init (next_oid g) pos])
               lv) g))
  else if decide (char = "E"%char) then
    let '(e, st) :=
      Enemy.init pos (draws (length (GameLevel.enemies lv))) (sets g) in
    set_sets st
      (set_level (GameLevel.set_enemies (GameLevel.enemies lv ++ [e]) lv) g)
  else if decide (char = "S"%char) then
    let lv1 := GameLevel.set_start_pos pos lv in
    let g1 :=
      match GameLevel.player_spawn lv1 with
      | None =>
          set_player (Player.goto pos (player g))
            (set_level (GameLevel.set_player_spawn pos lv1) g)
      | Some _ => set_level lv1 g
      end in
    set_sets (set_add (GameLevel.walls lv) pos (sets g1)) g1
  else if decide (char = "F"%char) then
    set_level (GameLevel.set_end_pos pos lv) g
  else g.

Definition setup_row (draws : nat -> nat) (row_idx : nat) (row : string)
    (g : t) : t :=
  foldl (fun g1 '(col_idx, char) => setup_cell draws row_idx col_idx char g1)
    g (enumerate (list_ascii_of_string row)).

(** [Game.setup_level(level)]: a new player, the parsing loop, the wiring
    of the enemies, the reset of the button flags. *)
Definition setup_level (draws : nat -> nat) (lv : GameLevel.t) (g : t) : t :=
  let g0 := set_player Player.init (set_level lv g) in
  let g1 :=
    foldl (fun g1 '(row_idx, row) => setup_row draws row_idx row g1)
      g0 (enumerate (GameLevel.layout lv)) in
  let lv1 := level g1 in
  let es :=
    (fun e => Enemy.set_player
                (Enemy.set_obstacles (GameLevel.walls lv1)
                   (GameLevel.treasure_positions lv1) e))
      <$> GameLevel.enemies lv1 in
  set_flags false false false (set_level (GameLevel.set_enemies es lv1) g1).

(** The keyboard handlers installed by [Game._setup_controls]. *)
Definition key_press (d : Direction) (g : t) : t :=
  set_player
    (Player.move d (deref (sets g) (GameLevel.walls (level g))) (player g)).2
    g.

(** A timer tick of the enemy at index [i] of [level.enemies]. *)
Definition enemy_tick (i k : nat) (g : t) : t :=
  set_level
    (GameLevel.set_enemies
       (alter (Enemy.move (sets g) (player g) k) i
          (GameLevel.enemies (level g)))
       (level g)) g.

Definition menu_button : Button.t := Button.mk (-600) 200 120 50.
Definition side_button : Button.t := Button.mk (-600) 100 120 50.

(** [handle_button_click] of [Game.setup_level]; the button at
    [(-600, 100)] is "Auto" when the level has a recorded solution and
    "Create" otherwise. *)
Definition handle_button_click (x y : Z) (g : t) : t :=
  let has_auto :=
    negb (bool_decide (GameLevel.auto_solution (level g) = [])) in
  if Button.contains_point menu_button x y then
    set_flags (auto_mode g) (create_mode g) true g
  else if has_auto && Button.contains_point side_button x y then
    set_flags true (create_mode g) (return_to_menu g) g
  else if negb has_auto && Button.contains_point side_button x y then
    set_flags (auto_mode g) true (return_to_menu g) g
  else g.

(** [Game.run_auto_mode(level)]. *)
Definition run_auto_mode (g : t) : t :=
  let lv := level g in
  if bool_decide (GameLevel.auto_solution lv = []) then g
  else
    let p0 := Player.set_auto true (player g) in
    let p1 :=
      match GameLevel.player_spawn lv with
      | Some sp => Player.set_history [] (Player.goto sp p0)
      | None => p0
      end in
    let p2 :=
      foldl (fun p move_str => Player.move_to_direction (from_string move_str) p)
        p1 (GameLevel.auto_solution lv) in
    set_player (Player.set_auto false p2) g.

(** [level.treasures.remove(treasure)]: the first entry that is the
    object [i] is dropped. *)
Fixpoint remove_treasure (i : nat) (l : list Treasure.t) : list Treasure.t :=
  match l with
  | [] => []
  | tr :: l' =>
      if decide (Treasure.oid tr = i) then l'
      else tr :: remove_treasure i l'
  end.

(** The body of the treasure-collection loop of [Game.run_level]. *)
Definition collect_one (g1 : t) (tr : Treasure.t) : t :=
  if Player.is_collision (player g1) (Treasure.pos tr) then
    set_level
      (GameLevel.set_treasures
         (remove_treasure (Treasure.oid tr) (GameLevel.treasures (level g1)))
         (level g1))
      (set_player (Player.add_gold (Treasure.gold tr) (player g1)) g1)
  else g1.

(** The treasure-collection loop, over a copy of the live list. *)
Definition collect_treasures (g : t) : t :=
  foldl collect_one g (GameLevel.treasures (level g)).

(** [Game._cleanup_level(level)]. *)
Definition _cleanup_level (g : t) : t :=
  set_level
    (GameLevel.set_treasures [] (GameLevel.set_enemies [] (level g))) g.

(** One iteration of the [while True] loop of [Game.run_level]: the
    returned flag when the loop returns, [None] when it goes round again.
    Key presses, clicks and timer ticks arrive between iterations. *)
Definition frame (g : t) : option bool * t :=
  if return_to_menu g then (Some false, _cleanup_level g)
  else if create_mode g then (Some false, _cleanup_level g)
  else
    let g1 :=
      if auto_mode g then
        let ga := set_flags false (create_mode g) (return_to_menu g)
                    (run_auto_mode g) in
        match GameLevel.player_spawn (level ga) with
        | Some sp =>
            set_player (Player.set_history [] (Player.goto sp (player ga))) ga
        | None => ga
        end
      else g in
    let g2 := collect_treasures g1 in
    if existsb (fun e => Player.is_collision (player g2) (Enemy.pos e))
         (GameLevel.enemies (level g2))
    then (Some false,
          _cleanup_level (set_player (Player.destroy (player g2)) g2))
    else
      match GameLevel.end_pos (level g2) with
      | Some ep =>
          if Player.is_collision (player g2) ep then
            (Some true,
             _cleanup_level
               (set_player (Player.reverse_replay (player g2)) g2))
          else if create_mode g2 then (Some false, _cleanup_level g2)
          else (None, g2)
      | None =>
          if create_mode g2 then (Some false, _cleanup_level g2)
          else (None, g2)
      end.

(** What can happen while a level is being played. *)
Inductive play_step : t -> t -> Prop :=
| step_key (d : Direction) (g : t) : play_step g (key_press d g)
| step_tick (i k : nat) (g : t) : play_step g (enemy_tick i k g)
| step_click (x y : Z) (g : t) : play_step g (handle_button_click x y g)
| step_frame (g g' : t) : frame g = (None, g') -> play_step g g'.

(** Vocabulary for the properties of setup and play. *)

(** The character of the layout at a row and column. *)
Definition cell_char (lay : list string) (row col : nat) : option ascii :=
  lay !! row ≫= fun r => list_ascii_of_string r !! col.

(** [g'] comes after [g] in the setup of one level: same layout, same two
    occupancy sets, no set has lost an element, a player spawn that was
    recorded is still recorded. *)
Definition extends (g g' : t) : Prop :=
  GameLevel.layout (level g') = GameLevel.layout (level g) /\
  GameLevel.walls (level g') = GameLevel.walls (level g) /\
  GameLevel.treasure_positions (level g')
  = GameLevel.treasure_positions (level g) /\
  (forall a, deref (sets g) a ⊆ deref (sets g') a) /\
  (is_Some (GameLevel.player_spawn (level g)) ->
   is_Some (GameLevel.player_spawn (level g'))).

(** The screen position of a layout cell lies in one of the two sets. *)
Definition cell_in (sel : GameLevel.t -> addr) (r c : nat) (g : t) : Prop :=
  GameLevel.get_screen_position (level g) (Z.of_nat r) (Z.of_nat c)
    ∈ deref (sets g) (sel (level g)).

(** What the parsing loop has done for a cell once it is past it: a start
    cell is in the wall set and a spawn is recorded, a treasure cell is in
    the treasure set. *)
Definition cell_done (r c : nat) (ch : ascii) (g : t) : Prop :=
  (ch = "S"%char ->
   cell_in GameLevel.walls r c g /\
   is_Some (GameLevel.player_spawn (level g))) /\
  (ch = "T"%char -> cell_in GameLevel.treasure_positions r c g).

(** A layout without the explicit player spawn ['P'], as the editor
    exports them. *)
Definition no_player_mark (lay : list string) : Prop :=
  Forall (fun row => Forall (fun ch => ch <> "P"%char)
                       (list_ascii_of_string row)) lay.

(** The player stands on the recorded spawn cell, which is a wall. *)
Definition spawn_on_wall (g : t) : Prop :=
  match GameLevel.player_spawn (level g) with
  | Some sp =>
      Player.pos (player g) = sp /\
      sp ∈ deref (sets g) (GameLevel.walls (level g))
  | None => True
  end.

(** The live treasures are distinct objects, older than [next_oid]. *)
Definition distinct_treasures (g : t) : Prop :=
  NoDup (Treasure.oid <$> GameLevel.treasures (level g)) /\
  Forall (fun tr => (Treasure.oid tr < next_oid g)%nat)
    (GameLevel.treasures (level g)).

(** A treasure that a player standing at [q] does not collide with. *)
Definition out_of_reach (q : Pos) (tr : Treasure.t) : Prop :=
  distance_lt q (Treasure.pos tr) Config.COLLISION_DISTANCE = false.

#[global] Instance out_of_reach_dec q tr : Decision (out_of_reach q tr).
Proof. unfold out_of_reach. apply _. Defined.

(** Every enemy of the level holds the level's two sets as obstacles. *)
Definition wired (g : t) : Prop :=
  Forall
    (fun e => Enemy.walls e = GameLevel.walls (level g) /\
              Enemy.treasures e = GameLevel.treasure_positions (level g))
    (GameLevel.enemies (level g)).

(** The state a round of the play loop has reached when it comes to the
    enemy and end checks: after the auto-solve replay, if requested, and
    the treasure collection. *)
Definition after_collection (g : t) : t :=
  collect_treasures
    (if auto_mode g then
       let ga := set_flags false (create_mode g) (return_to_menu g)
                   (run_auto_mode g) in
       match GameLevel.player_spawn (level ga) with
       | Some sp =>
           set_player (Player.set_history [] (Player.goto sp (player ga))) ga
       | None => ga
       end
     else g).

(** The player's history leads back to [origin], which is the recorded
    spawn. *)
Definition history_leads_to (origin : Pos) (g : t) : Prop :=
  foldl step_from (Player.pos (player g))
    (reverse (Player.move_history (player g))) = origin /\
  GameLevel.player_spawn (level g) = Some origin.

(** The gold of the treasures of [l] that a player at [q] collides with. *)
Definition gold_in_reach (q : Pos) (l : list Treasure.t) : Z :=
  foldr Z.add 0
    (Treasure.gold <$> filter (fun tr => ~ out_of_reach q tr) l).

(** What play leaves as it is: the store and the identity of the level. *)
Definition same_sets (g g' : t) : Prop :=
  sets g' = sets g /\
  GameLevel.layout (level g') = GameLevel.layout (level g) /\
  GameLevel.walls (level g') = GameLevel.walls (level g) /\
  GameLevel.treasure_positions (level g')
  = GameLevel.treasure_positions (level g).

End Game.

(** ** The level editor *)

Module LevelEditor.

(** The palette keys are the five set up by [_setup_palette]; the two
    control buttons are those of [_setup_buttons]. *)
Record t : Type := mk {
  selected_item : option string;
  placed_items : list (string * Z * Z)
}.

Definition palette_keys : list string := ["m"; "t"; "e"; "s"; "f"].
Definition play_button : Button.t := Button.mk (-600) (-200) 120 50.
Definition clear_button : Button.t := Button.mk (-600) (-300) 120 50.

(** [LevelEditor.__init__]. *)
Definition init : t := {| selected_item := None; placed_items := [] |}.

Definition set_selected (s : string) (ed : t) : t :=
  {| selected_item := Some s; placed_items := placed_items ed |}.

Definition set_placed (l : list (string * Z * Z)) (ed : t) : t :=
  {| selected_item := selected_item ed; placed_items := l |}.

(** [LevelEditor.pixel_to_cell]. *)
Definition pixel_to_cell (pos_x pos_y : Z) : Z * Z :=
  (py_round_div pos_x Config.CELL_SIZE, py_round_div pos_y Config.CELL_SIZE).

(** [LevelEditor.cell_to_pixel]. *)
Definition cell_to_pixel (x y : Z) : Z * Z := (24 * x, 24 * y).

(** [LevelEditor.clear_all]: only the placement list changes. *)
Definition clear_all (ed : t) : t := set_placed [] ed.

(** The guard of [handle_click] on the cell of a click:
    [abs(cell[0]) < GRID_COLS//2 and abs(cell[1]) < GRID_ROWS//2]. *)
Definition click_in_bounds (cell : Z * Z) : bool :=
  (Z.abs cell.1 <? Config.GRID_COLS `div` 2)
  && (Z.abs cell.2 <? Config.GRID_ROWS `div` 2).

(** [any(px == pixel[0] and py == pixel[1] for _, px, py in placed_items)]. *)
Definition tile_occupied (pixel : Z * Z) (ed : t) : bool :=
  existsb (fun '(_, px, py) => (px =? pixel.1) && (py =? pixel.2))
    (placed_items ed).

(** [any(item_type == s for item_type, _, _ in placed_items)]. *)
Definition has_item (s : string) (ed : t) : bool :=
  existsb (fun '(item_type, _, _) => bool_decide (item_type = s))
    (placed_items ed).

(** The placement checks of [handle_click], entered once the cell of the
    click has passed the guard: the message shown, if any, and the
    editor afterwards. *)
Definition try_place (sel : string) (pixel : Z * Z) (ed : t)
    : option string * t :=
  if tile_occupied pixel ed then
    (Some "Cannot stack items on same tile!", ed)
  else if bool_decide (sel = "s") && has_item "s" ed then
    (Some "Only ONE start allowed!", ed)
  else if bool_decide (sel = "f") && has_item "f" ed then
    (Some "Only ONE end allowed!", ed)
  else if bool_decide (sel ∈ palette_keys) then
    (None, set_placed (placed_items ed ++ [(sel, pixel.1, pixel.2)]) ed)
  else (None, ed).

(** [LevelEditor.handle_click(x, y)]: the returned action, the message
    shown, and the editor afterwards. *)
Definition handle_click (x y : Z) (ed : t)
    : option string * option string * t :=
  if Button.contains_point play_button x y then (Some "play", None, ed)
  else if Button.contains_point clear_button x y then
    (Some "clear", None, clear_all ed)
  else if (-612 <? x) && (x <? -588) then
    if (88 <? y) && (y <? 112) then (None, None, set_selected "e" ed)
    else if (188 <? y) && (y <? 212) then (None, None, set_selected "t" ed)
    else if (288 <? y) && (y <? 312) then (None, None, set_selected "m" ed)
    else if (-12 <? y) && (y <? 12) then (None, None, set_selected "s" ed)
    else if (-112 <? y) && (y <? -88) then (None, None, set_selected "f" ed)
    else (None, None, ed)
  else
    match selected_item ed with
    | Some sel =>
        if bool_decide (sel = "") then (None, None, ed)
        else
          let cell := pixel_to_cell x y in
          if click_in_bounds cell then
            let pixel := cell_to_pixel cell.1 cell.2 in
            let '(msg, ed') := try_place sel pixel ed in
            (None, msg, ed')
          else (None, None, ed)
    | None => (None, None, ed)
    end.

(** Cells of the layout grid, a list of rows of characters. *)
Definition get_cell (layout : list (list ascii)) (row col : Z) : ascii :=
  default "."%char
    (layout !! Z.to_nat row ≫= fun r => r !! Z.to_nat col).

(** [layout[row][col] = ch], for indices within the grid. *)
Definition set_cell (row col : Z) (ch : ascii) (layout : list (list ascii))
    : list (list ascii) :=
  alter (fun r => <[Z.to_nat col := ch]> r) (Z.to_nat row) layout.

(** The state of the export loops: the grid and the recorded start and
    end cells. *)
Definition export_state : Type :=
  list (list ascii) * option (Z * Z) * option (Z * Z).

(** The row and column of a cell in the exported grid, as
    [get_custom_level_layout] computes them, and its test that they lie
    in the grid: [0 <= row < GRID_ROWS and 0 <= col < GRID_COLS]. *)
Definition grid_row (cell : Z * Z) : Z := cell.2 + Config.GRID_ROWS `div` 2.
Definition grid_col (cell : Z * Z) : Z := cell.1 + Config.GRID_COLS `div` 2.

Definition in_grid_range (cell : Z * Z) : bool :=
  (0 <=? grid_row cell) && (grid_row cell <? Config.GRID_ROWS)
  && (0 <=? grid_col cell) && (grid_col cell <? Config.GRID_COLS).

(** The body of the placement loop of [get_custom_level_layout]. *)
Definition export_item (item : string * Z * Z) (s : export_state)
    : export_state :=
  let '(item_type, px, py) := item in
  let '(layout, start_pos, end_pos) := s in
  let cell := pixel_to_cell px py in
  let col := grid_col cell in
  let row := grid_row cell in
  if in_grid_range cell then
    if decide (item_type = "m") then
      (set_cell row col "X" layout, start_pos, end_pos)
    else if decide (item_type = "t") then
      (set_cell row col "T" layout, start_pos, end_pos)
    else if decide (item_type = "e") then
      (set_cell row col "E" layout, start_pos, end_pos)
    else if decide (item_type = "s") then
      (set_cell row col "S" layout, Some (row, col), end_pos)
    else if decide (item_type = "f") then
      (set_cell row col "F" layout, start_pos, Some (row, col))
    else s
  else s.

(** One [if] of the perimeter loops: the cell is walled when it is open
    floor and is neither the recorded start nor the recorded end. *)
Definition fillable (start_pos end_pos : option (Z * Z))
    (layout : list (list ascii)) (row col : Z) : bool :=
  bool_decide (get_cell layout row col = "."%char)
  && bool_decide (start_pos = None \/ Some (row, col) <> start_pos)
  && bool_decide (end_pos = None \/ Some (row, col) <> end_pos).

Definition fill_cell (start_pos end_pos : option (Z * Z)) (rc : Z * Z)
    (layout : list (list ascii)) : list (list ascii) :=
  if fillable start_pos end_pos layout rc.1 rc.2
  then set_cell rc.1 rc.2 "X" layout
  else layout.

(** The two perimeter loops of [get_custom_level_layout]. *)
Definition fill_perimeter (start_pos end_pos : option (Z * Z))
    (layout : list (list ascii)) : list (list ascii) :=
  let layout1 :=
    foldl (fun l col =>
             fill_cell start_pos end_pos (Config.GRID_ROWS - 1, col)
               (fill_cell start_pos end_pos (0, col) l))
      layout (range Config.GRID_COLS) in
  foldl (fun l row =>
           fill_cell start_pos end_pos (row, Config.GRID_COLS - 1)
             (fill_cell start_pos end_pos (row, 0) l))
    layout1 (range Config.GRID_ROWS).

Definition empty_grid : list (list ascii) :=
  replicate (Z.to_nat Config.GRID_ROWS)
    (replicate (Z.to_nat Config.GRID_COLS) "."%char).

(** The grid after the placement loop, with the recorded cells. *)
Definition place_all (ed : t) : export_state :=
  foldl (fun s item => export_item item s) (empty_grid, None, None)
    (placed_items ed).

(** The character grid at the end of [get_custom_level_layout]. *)
Definition export_grid (ed : t) : list (list ascii) :=
  let '(layout, start_pos, end_pos) := place_all ed in
  fill_perimeter start_pos end_pos layout.

(** [LevelEditor.get_custom_level_layout]. *)
Definition get_custom_level_layout (ed : t) : list string :=
  string_of_list_ascii <$> export_grid ed.

(** Vocabulary for the properties of the export: a grid of [GRID_ROWS]
    rows of [GRID_COLS] cells, a cell of the grid, a cell on its border,
    and the cells the perimeter loops visit, in the order they do. *)
Definition grid_shape (layout : list (list ascii)) : Prop :=
  length layout = Z.to_nat Config.GRID_ROWS /\
  Forall (fun r => length r = Z.to_nat Config.GRID_COLS) layout.

Definition in_grid (row col : Z) : Prop :=
  0 <= row < Config.GRID_ROWS /\ 0 <= col < Config.GRID_COLS.

Definition on_perimeter (row col : Z) : bool :=
  (row =? 0) || (row =? Config.GRID_ROWS - 1)
  || (col =? 0) || (col =? Config.GRID_COLS - 1).

Definition perimeter_cells : list (Z * Z) :=
  (range Config.GRID_COLS
     ≫= fun col => [(0, col); (Config.GRID_ROWS - 1, col)])
  ++ (range Config.GRID_ROWS
        ≫= fun row => [(row, 0); (row, Config.GRID_COLS - 1)]).

End LevelEditor.

(** ** The score display *)

Module ScoreDisplay.

Record t : Type := mk { current_score : Z; high_score : Z }.

(** [ScoreDisplay.__init__]. *)
Definition init : t := {| current_score := 0; high_score := 0 |}.

(** [ScoreDisplay.update(score)]. *)
Definition update (score : Z) (sd : t) : t :=
  {| current_score := score;
     high_score := if high_score sd <? score then score else high_score sd |}.

End ScoreDisplay.

(** ** The maze loader *)

Module MazeLoader.

(** The state of the loops of [load_from_file]: the maze so far and the
    recorded start and end. *)
Definition loader_state : Type :=
  list (list Z) * option (Z * Z) * option (Z * Z).

(** The body of the inner loop, on the row under construction. *)
Definition load_char (row_idx col_idx : nat) (char : ascii)
    (s : list Z * option (Z * Z) * option (Z * Z))
    : list Z * option (Z * Z) * option (Z * Z) :=
  let '(row, start_pos, end_pos) := s in
  if decide (char = "."%char) then (row ++ [0], start_pos, end_pos)
  else if decide (char = "#"%char) then (row ++ [1], start_pos, end_pos)
  else if decide (char = "x"%char) then
    (row ++ [0], Some (Z.of_nat row_idx, Z.of_nat col_idx), end_pos)
  else if decide (char = "X"%char) then
    (row ++ [0], start_pos, Some (Z.of_nat row_idx, Z.of_nat col_idx))
  else s.

(** The body of the outer loop: a line that gave no cell adds no row. *)
Definition load_line (row_idx : nat) (line : string) (s : loader_state)
    : loader_state :=
  let '(maze, start_pos, end_pos) := s in
  let '(row, start_pos', end_pos') :=
    foldl (fun s1 '(col_idx, char) => load_char row_idx col_idx char s1)
      ([], start_pos, end_pos) (enumerate (list_ascii_of_string line)) in
  (match row with [] => maze | _ => maze ++ [row] end, start_pos', end_pos').

(** [MazeLoader.load_from_file], on the lines the file yields. *)
Definition load_from_lines (lines : list string) : loader_state :=
  foldl (fun s '(row_idx, line) => load_line row_idx line s)
    ([], None, None) (enumerate lines).

(** Vocabulary for the properties of the loader: a recorded position is
    the index of a cell with the marker [ch]; a row holds only 0 and 1;
    a recorded position stays recorded. *)
Definition marked (lines : list string) (ch : ascii) (o : option (Z * Z))
    : Prop :=
  forall rc, o = Some rc ->
    exists r c : nat, rc = (Z.of_nat r, Z.of_nat c) /\
      (lines !! r ≫= fun line => list_ascii_of_string line !! c) = Some ch.

Definition bits (row : list Z) : Prop := Forall (fun v => v = 0 \/ v = 1) row.

Definition keeps_found {X : Type}
    (s s' : X * option (Z * Z) * option (Z * Z)) : Prop :=
  (is_Some s.1.2 -> is_Some s'.1.2) /\ (is_Some s.2 -> is_Some s'.2).

End MazeLoader.

(** ** Editor sessions and custom levels *)

(** The editor after a series of clicks. *)
Definition run_clicks (clicks : list (Z * Z)) (ed : LevelEditor.t)
    : LevelEditor.t :=
  foldl (fun ed1 '(x, y) => (LevelEditor.handle_click x y ed1).2) ed clicks.

(** The layout symbol [get_custom_level_layout] writes for an item type. *)
Definition layout_symbol (item_type : string) : option ascii :=
  if decide (item_type = "m") then Some "X"%char
  else if decide (item_type = "t") then Some "T"%char
  else if decide (item_type = "e") then Some "E"%char
  else if decide (item_type = "s") then Some "S"%char
  else if decide (item_type = "f") then Some "F"%char
  else None.

(** [any(ch in row for row in layout)], the test of
    [Game._play_custom_level] for the start and the end symbol. *)
Definition has_symbol (ch : ascii) (layout : list string) : bool :=
  existsb (fun row => existsb (Ascii.eqb ch) (list_ascii_of_string row))
    layout.

(** Whether [Game._play_custom_level] goes on to play the exported level
    rather than showing its error message. *)
Definition custom_level_playable (ed : LevelEditor.t) : bool :=
  let layout := LevelEditor.get_custom_level_layout ed in
  has_symbol "S" layout && has_symbol "F" layout.

(** The grid cell (row, column) the export writes a placed item to. *)
Definition item_cell (it : string * Z * Z) : Z * Z :=
  (LevelEditor.grid_row (LevelEditor.pixel_to_cell it.1.2 it.2),
   LevelEditor.grid_col (LevelEditor.pixel_to_cell it.1.2 it.2)).

(** The item is one the export writes: its cell is in the grid and its
    type has a layout symbol. *)
Definition item_written (it : string * Z * Z) : Prop :=
  LevelEditor.in_grid_range (LevelEditor.pixel_to_cell it.1.2 it.2) = true /\
  is_Some (layout_symbol it.1.1).

(** What every editor session keeps: the placed items carry palette
    symbols, sit on cells that pass the click guard, at the canonical
    pixel of the cell, no two on the same pixel, with at most one start
    and one end. *)
Definition well_placed (ed : LevelEditor.t) : Prop :=
  Forall (fun '(item_type, px, py) =>
            item_type ∈ LevelEditor.palette_keys /\
            exists cx cy, px = 24 * cx /\ py = 24 * cy /\
              LevelEditor.click_in_bounds (cx, cy) = true)
    (LevelEditor.placed_items ed) /\
  NoDup ((fun '(_, px, py) => (px, py)) <$> LevelEditor.placed_items ed) /\
  (length (filter (fun it => it.1.1 = "s") (LevelEditor.placed_items ed))
   <= 1)%nat /\
  (length (filter (fun it => it.1.1 = "f") (LevelEditor.placed_items ed))
   <= 1)%nat.

(** ** Contents of the occupancy sets after setup *)

(** [q] is the screen position of a wall or start cell (of a treasure
    cell) of the layout of [lv]. *)
Definition wall_cell (lv : GameLevel.t) (q : Pos) : Prop :=
  exists (r c : nat) (ch : ascii),
    Game.cell_char (GameLevel.layout lv) r c = Some ch /\
    (ch = "X"%char \/ ch = "S"%char) /\
    q = GameLevel.get_screen_position lv (Z.of_nat r) (Z.of_nat c).

Definition treasure_cell (lv : GameLevel.t) (q : Pos) : Prop :=
  exists r c : nat,
    Game.cell_char (GameLevel.layout lv) r c = Some "T"%char /\
    q = GameLevel.get_screen_position lv (Z.of_nat r) (Z.of_nat c).

(** During the setup of [lv] from [g0]: the level keeps its layout and
    its two sets, and these hold nothing but what they held in [g0] and
    positions of cells of their kind. *)
Definition sets_bounded (lv : GameLevel.t) (g0 g : Game.t) : Prop :=
  GameLevel.layout (Game.level g) = GameLevel.layout lv /\
  GameLevel.walls (Game.level g) = GameLevel.walls lv /\
  GameLevel.treasure_positions (Game.level g)
  = GameLevel.treasure_positions lv /\
  (forall q, q ∈ deref (Game.sets g) (GameLevel.walls lv) ->
     q ∈ deref (Game.sets g0) (GameLevel.walls lv) \/ wall_cell lv q) /\
  (forall q, q ∈ deref (Game.sets g) (GameLevel.treasure_positions lv) ->
     q ∈ deref (Game.sets g0) (GameLevel.treasure_positions lv)
     \/ treasure_cell lv q).

(** What the parsing loop has done for a cell once it is past it, for
    both sets. *)
Definition cell_marked (r c : nat) (ch : ascii) (g : Game.t) : Prop :=
  (ch = "X"%char \/ ch = "S"%char -> Game.cell_in GameLevel.walls r c g) /\
  (ch = "T"%char -> Game.cell_in GameLevel.treasure_positions r c g).

(** ** The player at the start of a level *)

(** A player as [Player.__init__] makes it, wherever it has been sent. *)
Definition fresh_player (p : Player.t) : Prop :=
  Player.move_history p = [] /\ Player.gold p = 0 /\
  Player.is_auto_mode p = false /\ Player.is_reverse_mode p = false.

(** The player stands on the recorded spawn, if one is recorded. *)
Definition on_spawn (g : Game.t) : Prop :=
  forall sp, GameLevel.player_spawn (Game.level g) = Some sp ->
    Player.pos (Game.player g) = sp.

(** From [g] to [g'] the player has stayed on the spawn and a recorded
    spawn has stayed recorded. *)
Definition keeps_spawn (g g' : Game.t) : Prop :=
  (on_spawn g -> on_spawn g') /\
  (is_Some (GameLevel.player_spawn (Game.level g)) ->
   is_Some (GameLevel.player_spawn (Game.level g'))).

(** * Properties *)

(** ** Directions *)

Lemma dx_opposite d : dx (opposite d) = - dx d.
Proof. by destruct d. Qed.

Lemma dy_opposite d : dy (opposite d) = - dy d.
Proof. by destruct d. Qed.

Lemma step_from_opposite p d : step_from (step_from p d) (opposite d) = p.
Proof.
  destruct p as [x y]. unfold step_from. cbn [fst snd].
  rewrite dx_opposite, dy_opposite. f_equal; lia.
Qed.

(** C8: [opposite] pairs Up with Down and Left with Right, and applying it
    twice gives the direction back. *)
Theorem opposite_involutive :
  (forall d : Direction, opposite (opposite d) = d) /\
  opposite UP = DOWN /\ opposite DOWN = UP /\
  opposite LEFT = RIGHT /\ opposite RIGHT = LEFT.
Proof. split; [by intros [] | done]. Qed.

(** ** The player *)

Section player_moves.
Import Player.
Implicit Types (p : Player.t) (walls : gset Pos) (d : Direction).

Lemma move_rejected d walls p :
  step_from (pos p) d ∈ walls \/ is_auto_mode p = true
    \/ is_reverse_mode p = true ->
  move d walls p = (false, p).
Proof.
  intros H. unfold move.
  destruct (bool_decide_reflect (step_from (pos p) d ∉ walls)) as [Hn|Hn];
    destruct (is_auto_mode p), (is_reverse_mode p); simpl; try done.
  destruct H as [H|[H|H]]; done.
Qed.

Lemma move_accepted d walls p :
  step_from (pos p) d ∉ walls -> is_auto_mode p = false ->
  is_reverse_mode p = false ->
  move d walls p
  = (true, set_history (move_history p ++ [opposite d])
             (goto (step_from (pos p) d) p)).
Proof.
  intros Hw Ha Hr. unfold move. rewrite Ha, Hr.
  by rewrite bool_decide_true.
Qed.

(** A move that returned [True] passed all three tests. *)
Lemma move_true_inv d walls p p' :
  move d walls p = (true, p') ->
  (step_from (pos p) d ∉ walls) /\
  p' = set_history (move_history p ++ [opposite d])
         (goto (step_from (pos p) d) p).
Proof.
  unfold move.
  destruct (bool_decide_reflect (step_from (pos p) d ∉ walls)) as [Hn|Hn];
    destruct (is_auto_mode p), (is_reverse_mode p); simpl;
    intros [= <-]; done.
Qed.

Lemma pos_replay ds p : pos (replay ds p) = foldl step_from (pos p) ds.
Proof.
  revert p. induction ds as [|d ds IH]; intros p; [done|].
  simpl. by rewrite IH.
Qed.

Lemma moves_history_pos ds walls p p' :
  moves ds walls p = Some p' ->
  move_history p' = move_history p ++ (opposite <$> ds) /\
  pos p' = foldl step_from (pos p) ds.
Proof.
  revert p. induction ds as [|d ds IH]; intros p; simpl.
  - intros [= <-]. by rewrite app_nil_r.
  - destruct (move d walls p) as [[] q] eqn:Hm; [|done].
    apply move_true_inv in Hm as [_ ->]. intros Hq.
    apply IH in Hq as [-> ->]. simpl. by rewrite <- app_assoc.
Qed.

(** Walking a path and then the opposites of its steps, last step
    first, ends where the path began. *)
Lemma retrace_path ds (a : Pos) :
  foldl step_from (foldl step_from a ds) (reverse (opposite <$> ds)) = a.
Proof.
  revert a. induction ds as [|d ds IH]; intros a; [done|].
  simpl. rewrite reverse_cons, foldl_app, IH. simpl.
  apply step_from_opposite.
Qed.

End player_moves.

(** C2: [Player.move] returns false and leaves the player as it was when
    the candidate position is a wall or one of the two mode flags is set;
    otherwise it returns true, moves to the candidate and appends the
    opposite direction to the history. *)
Theorem player_move_spec (d : Direction) (walls : gset Pos) (p : Player.t) :
  let candidate := ((Player.pos p).1 + dx d, (Player.pos p).2 + dy d) in
  (candidate ∈ walls \/ Player.is_auto_mode p = true
     \/ Player.is_reverse_mode p = true ->
   Player.move d walls p = (false, p)) /\
  (~ (candidate ∈ walls \/ Player.is_auto_mode p = true
        \/ Player.is_reverse_mode p = true) ->
   Player.move d walls p =
     (true, {| Player.pos := candidate;
               Player.gold := Player.gold p;
               Player.move_history := Player.move_history p ++ [opposite d];
               Player.is_auto_mode := Player.is_auto_mode p;
               Player.is_reverse_mode := Player.is_reverse_mode p |})).
Proof.
  split.
  - apply move_rejected.
  - intros Hn. apply move_accepted.
    + intros Hw. apply Hn. by left.
    + destruct (Player.is_auto_mode p); [|done]. exfalso. apply Hn. right. by left.
    + destruct (Player.is_reverse_mode p); [|done].
      exfalso. apply Hn. right. by right.
Qed.

Lemma player_move_spec_witness :
  Player.move LEFT {[ (-24, 0) ]} Player.init = (false, Player.init) /\
  Player.move UP {[ (-24, 0) ]} Player.init
  = (true, Player.mk (0, 24) 0 [DOWN] false false).
Proof.
  split.
  - apply (player_move_spec LEFT {[ (-24, 0) ]} Player.init).
    left. simpl. set_solver.
  - apply (player_move_spec UP {[ (-24, 0) ]} Player.init).
    intros [H|[H|H]]; [|done..].
    simpl in H. apply elem_of_singleton in H. done.
Defined.

(** C1: after any run of successful [Player.move] calls that starts with
    an empty history (the state at the spawn position), replaying the
    history in reverse order with [move_to_direction] brings the player
    back to where the run started; and after a single successful move,
    replaying the entry it appended restores the position held before. *)
Theorem reverse_replay_returns_to_spawn :
  (forall (ds : list Direction) (walls : gset Pos) (p p' : Player.t),
      Player.move_history p = [] ->
      Player.moves ds walls p = Some p' ->
      Player.pos (Player.reverse_replay p') = Player.pos p) /\
  (forall (d : Direction) (walls : gset Pos) (p p' : Player.t),
      Player.move d walls p = (true, p') ->
      exists entry,
        Player.move_history p' = Player.move_history p ++ [entry] /\
        Player.pos (Player.move_to_direction entry p') = Player.pos p).
Proof.
  split.
  - intros ds walls p p' Hh Hm.
    apply moves_history_pos in Hm as [Hhist Hpos].
    unfold Player.reverse_replay. rewrite pos_replay. simpl.
    rewrite Hhist, Hh, Hpos. simpl. apply retrace_path.
  - intros d walls p p' Hm. apply move_true_inv in Hm as [_ ->].
    exists (opposite d). split; [done|]. simpl. apply step_from_opposite.
Qed.

Lemma reverse_replay_returns_to_spawn_witness :
  Player.pos
    (Player.reverse_replay
       (Player.mk (24, 24) 0 [DOWN; LEFT] false false))
  = (0, 0).
Proof.
  apply (proj1 reverse_replay_returns_to_spawn [UP; RIGHT] ∅ Player.init);
    reflexivity.
Defined.

(** ** Enemies *)

Section enemy_moves.
Import Enemy.
Implicit Types (e : Enemy.t) (player : Player.t) (st : store) (k : nat).

Lemma try_move_free st k e :
  step_from (pos e) (current_direction e) ∉ deref st (walls e) ->
  step_from (pos e) (current_direction e) ∉ deref st (treasures e) ->
  _try_move st k e = goto (step_from (pos e) (current_direction e)) e.
Proof.
  intros Hw Ht. unfold _try_move. by rewrite !bool_decide_true.
Qed.

Lemma try_move_blocked st k e :
  step_from (pos e) (current_direction e) ∈ deref st (walls e)
  \/ step_from (pos e) (current_direction e) ∈ deref st (treasures e) ->
  _try_move st k e = set_direction (random_choice k) e.
Proof.
  intros H. unfold _try_move.
  destruct (bool_decide_reflect
              (step_from (pos e) (current_direction e) ∉ deref st (walls e)))
    as [Hw|Hw]; [|done].
  destruct (bool_decide_reflect
              (step_from (pos e) (current_direction e)
                 ∉ deref st (treasures e))) as [Ht|Ht]; [|done].
  by destruct H.
Qed.

(** A tick of an active enemy that detects the player. *)
Lemma move_when_close st player k e :
  player_ref e = true -> is_active e = true ->
  _is_close_to_player player e = true ->
  move st player k e
  = _try_move st k (set_direction (chase_heading player e) e).
Proof.
  intros Hr Ha Hc. unfold move, _move_towards_player.
  by rewrite Hr, Ha, Hc.
Qed.

Lemma chase_heading_cases player e :
  ((Player.pos player).1 < (pos e).1 -> chase_heading player e = LEFT) /\
  ((Player.pos player).1 > (pos e).1 -> chase_heading player e = RIGHT) /\
  ((Player.pos player).1 = (pos e).1 ->
   (Player.pos player).2 < (pos e).2 -> chase_heading player e = DOWN) /\
  ((Player.pos player).1 = (pos e).1 ->
   (Player.pos player).2 > (pos e).2 -> chase_heading player e = UP).
Proof.
  unfold chase_heading. rewrite !Z.gtb_ltb.
  destruct (Z.ltb_spec (Player.pos player).1 (pos e).1),
           (Z.ltb_spec (pos e).1 (Player.pos player).1),
           (Z.ltb_spec (Player.pos player).2 (pos e).2),
           (Z.ltb_spec (pos e).2 (Player.pos player).2);
    repeat split; intros; first [done | lia].
Qed.

(** Each direction is the outcome of exactly one of the equally likely
    indices [random.choice] can draw. *)
Lemma random_choice_uniform (d : Direction) :
  length (filter (fun k => random_choice k = d)
            (seq 0 (length all_directions))) = 1%nat.
Proof. by destruct d. Qed.

End enemy_moves.

(** C3: on a tick of an active enemy that detects the player, the step is
    attempted in the chase heading, which is Left when the player's x is
    smaller, Right when it is larger, and with equal x Down when the
    player's y is smaller and Up when it is larger.  With the player 50 to
    the left (within the radius of 100) the heading is Left, and when the
    cell to the left is free the enemy steps there and keeps heading Left
    whatever index the random generator would have drawn. *)
Theorem chase_heading_x_before_y
    (st : store) (player : Player.t) (e : Enemy.t) :
  Enemy.player_ref e = true -> Enemy.is_active e = true ->
  (Enemy._is_close_to_player player e = true ->
   (forall k, Enemy.move st player k e
              = Enemy._try_move st k
                  (Enemy.set_direction (Enemy.chase_heading player e) e)) /\
   ((Player.pos player).1 < (Enemy.pos e).1 ->
    Enemy.chase_heading player e = LEFT) /\
   ((Player.pos player).1 > (Enemy.pos e).1 ->
    Enemy.chase_heading player e = RIGHT) /\
   ((Player.pos player).1 = (Enemy.pos e).1 ->
    (Player.pos player).2 < (Enemy.pos e).2 ->
    Enemy.chase_heading player e = DOWN) /\
   ((Player.pos player).1 = (Enemy.pos e).1 ->
    (Player.pos player).2 > (Enemy.pos e).2 ->
    Enemy.chase_heading player e = UP)) /\
  (Player.pos player = ((Enemy.pos e).1 - 50, (Enemy.pos e).2) ->
   Enemy._is_close_to_player player e = true /\
   Enemy.chase_heading player e = LEFT /\
   (step_from (Enemy.pos e) LEFT ∉ deref st (Enemy.walls e) ->
    step_from (Enemy.pos e) LEFT ∉ deref st (Enemy.treasures e) ->
    forall k,
      Enemy.current_direction (Enemy.move st player k e) = LEFT /\
      Enemy.pos (Enemy.move st player k e) = step_from (Enemy.pos e) LEFT)).
Proof.
  intros Hr Ha. split.
  - intros Hc. split.
    + intros k. by apply move_when_close.
    + apply chase_heading_cases.
  - intros Hp.
    assert (Hc : Enemy._is_close_to_player player e = true).
    { unfold Enemy._is_close_to_player, distance_lt. rewrite Hr, Hp. simpl.
      apply bool_decide_eq_true. unfold Config.PLAYER_DETECTION_RADIUS. lia. }
    assert (Hl : Enemy.chase_heading player e = LEFT).
    { apply chase_heading_cases. rewrite Hp. simpl. lia. }
    split; [done|]. split; [done|]. intros Hw Ht k.
    rewrite move_when_close, Hl by done.
    rewrite try_move_free by done. done.
Qed.

Lemma chase_heading_x_before_y_witness :
  let e := Enemy.mk (50, 0) 25 UP 0%nat 1%nat true true in
  let player := Player.goto (0, 0) Player.init in
  Enemy.chase_heading player e = LEFT /\
  forall k, Enemy.move ∅ player k e = Enemy.mk (26, 0) 25 LEFT 0%nat 1%nat true true.
Proof.
  intros e player.
  destruct (chase_heading_x_before_y ∅ player e eq_refl eq_refl)
    as [Hgen Hscen].
  destruct (Hgen eq_refl) as (Hmove & Hleft & _).
  split; [apply Hleft; simpl; lia|].
  intros k. rewrite Hmove. reflexivity.
Defined.

(** C4: when an enemy attempts its step, a destination in the wall set
    or in the treasure set leaves the position as it was and replaces the
    heading by the direction [random.choice] draws, each of the four
    directions being drawn with the same probability; any other
    destination becomes the position and the heading stays. *)
Theorem try_move_spec (st : store) (k : nat) (e : Enemy.t) :
  let dest := step_from (Enemy.pos e) (Enemy.current_direction e) in
  (dest ∈ deref st (Enemy.walls e) \/ dest ∈ deref st (Enemy.treasures e) ->
   Enemy.pos (Enemy._try_move st k e) = Enemy.pos e /\
   Enemy.current_direction (Enemy._try_move st k e) = random_choice k) /\
  (~ (dest ∈ deref st (Enemy.walls e) \/ dest ∈ deref st (Enemy.treasures e)) ->
   Enemy.pos (Enemy._try_move st k e) = dest /\
   Enemy.current_direction (Enemy._try_move st k e)
   = Enemy.current_direction e) /\
  length all_directions = 4%nat /\
  (forall d : Direction, d ∈ all_directions) /\
  (forall d : Direction,
      length (filter (fun i => random_choice i = d)
                (seq 0 (length all_directions))) = 1%nat).
Proof.
  intros dest. split; [|split; [|split; [|split]]].
  - intros H. by rewrite try_move_blocked.
  - intros H. rewrite try_move_free; [done| |].
    + intros Hw. apply H. by left.
    + intros Ht. apply H. by right.
  - done.
  - intros []; set_solver.
  - apply random_choice_uniform.
Qed.

Lemma try_move_spec_witness :
  let st : store := {[ 0%nat := {[ (24, 0) ]} ]} in
  let e := Enemy.mk (0, 0) 25 RIGHT 0%nat 1%nat true true in
  (Enemy.pos (Enemy._try_move st 2 e) = (0, 0) /\
   Enemy.current_direction (Enemy._try_move st 2 e) = LEFT) /\
  Enemy.pos (Enemy._try_move ∅ 2 e) = (24, 0).
Proof.
  intros st e. split.
  - apply (proj1 (try_move_spec st 2 e)).
    left. vm_compute. set_solver.
  - apply (proj1 (proj2 (try_move_spec ∅ 2 e))).
    intros [H|H]; vm_compute in H; set_solver.
Defined.

(** ** The level editor: clicks *)

Lemma py_round_div_near (a : Z) :
  -12 <= a - 24 * py_round_div a 24 <= 12.
Proof.
  unfold py_round_div.
  pose proof (Z.div_mod a 24 ltac:(lia)) as Hdm.
  pose proof (Z.mod_pos_bound a 24 ltac:(lia)) as Hb.
  destruct (Z.ltb_spec (2 * (a `mod` 24)) 24); [lia|].
  destruct (Z.ltb_spec 24 (2 * (a `mod` 24))); [lia|].
  destruct (Z.even (a `div` 24)); lia.
Qed.

Lemma py_round_div_exact (c : Z) : py_round_div (24 * c) 24 = c.
Proof.
  unfold py_round_div.
  replace (24 * c) with (c * 24) by lia.
  rewrite Z.div_mul, Z.mod_mul by lia. done.
Qed.

Section editor_clicks.
Import LevelEditor.
Implicit Types (ed : LevelEditor.t) (x y : Z) (sel : string).

Lemma pixel_to_cell_to_pixel cx cy :
  pixel_to_cell (cell_to_pixel cx cy).1 (cell_to_pixel cx cy).2 = (cx, cy).
Proof.
  unfold pixel_to_cell, cell_to_pixel, Config.CELL_SIZE. simpl.
  by rewrite !py_round_div_exact.
Qed.

(** A click whose cell passes the guard lies on the grid, away from the
    two buttons and from the palette strip. *)
Lemma in_bounds_not_ui x y :
  click_in_bounds (pixel_to_cell x y) = true ->
  Button.contains_point play_button x y = false /\
  Button.contains_point clear_button x y = false /\
  (-612 <? x) && (x <? -588) = false.
Proof.
  unfold click_in_bounds, pixel_to_cell, Config.CELL_SIZE. simpl.
  intros [Hx _]%andb_true_iff. apply Z.ltb_lt in Hx.
  change (Config.GRID_COLS `div` 2) with 12 in Hx.
  pose proof (py_round_div_near x) as Hn.
  assert (-288 <= x) as Hx' by lia.
  unfold Button.contains_point. simpl.
  repeat split; apply andb_false_iff.
  - left. apply andb_false_iff. left. apply andb_false_iff. right.
    apply Z.leb_gt. lia.
  - left. apply andb_false_iff. left. apply andb_false_iff. right.
    apply Z.leb_gt. lia.
  - right. apply Z.ltb_ge. lia.
Qed.

(** What [handle_click] does with a click on the grid. *)
Lemma handle_click_in_bounds x y ed sel :
  selected_item ed = Some sel -> sel <> "" ->
  click_in_bounds (pixel_to_cell x y) = true ->
  handle_click x y ed
  = (None,
     (try_place sel
        (cell_to_pixel (pixel_to_cell x y).1 (pixel_to_cell x y).2) ed).1,
     (try_place sel
        (cell_to_pixel (pixel_to_cell x y).1 (pixel_to_cell x y).2) ed).2).
Proof.
  intros Hsel Hne Hb.
  destruct (in_bounds_not_ui x y Hb) as (Hp & Hc & Hs).
  unfold handle_click. rewrite Hp, Hc, Hs, Hsel, Hb.
  rewrite bool_decide_false by done.
  by destruct (try_place _ _ _).
Qed.

(** Whatever the click, the placement list is kept, emptied or extended
    by [try_place]. *)
Lemma handle_click_placed x y ed :
  placed_items (handle_click x y ed).2 = placed_items ed
  \/ (Button.contains_point clear_button x y = true
      /\ placed_items (handle_click x y ed).2 = [])
  \/ (exists sel,
         selected_item ed = Some sel /\
         click_in_bounds (pixel_to_cell x y) = true /\
         (handle_click x y ed).2
         = (try_place sel
              (cell_to_pixel (pixel_to_cell x y).1 (pixel_to_cell x y).2)
              ed).2).
Proof.
  unfold handle_click.
  destruct (Button.contains_point play_button x y); [by left|].
  destruct (Button.contains_point clear_button x y);
    [right; left; done|].
  destruct ((-612 <? x) && (x <? -588)).
  { left. repeat case_match; done. }
  destruct (selected_item ed) as [sel|]; [|by left].
  case_bool_decide; [by left|].
  destruct (click_in_bounds (pixel_to_cell x y)) eqn:Hb; [|by left].
  right; right. exists sel.
  by destruct (try_place _ _ _).
Qed.

Lemma try_place_rejected sel pixel ed :
  tile_occupied pixel ed = true
  \/ (sel = "s" /\ has_item "s" ed = true)
  \/ (sel = "f" /\ has_item "f" ed = true) ->
  (try_place sel pixel ed).2 = ed.
Proof.
  unfold try_place. intros H.
  destruct (tile_occupied pixel ed); [done|].
  destruct H as [H|[[-> H]|[-> H]]]; [done| |]; by rewrite H.
Qed.

End editor_clicks.

(** C6: a click that is not on the CLEAR ALL button leaves the placement
    list as it was when its canonical pixel position is already occupied,
    or the start marker is selected and a start is placed, or the end
    marker is selected and an end is placed.  Selecting the treasure,
    clicking a grid cell, selecting the wall and clicking the same cell
    shows the stacking message and leaves exactly the treasure placed;
    and with a start placed and the start marker selected no click adds
    an item. *)
Theorem rejected_placement_keeps_items :
  (forall (x y : Z) (ed : LevelEditor.t),
      let cell := LevelEditor.pixel_to_cell x y in
      let pixel := LevelEditor.cell_to_pixel cell.1 cell.2 in
      Button.contains_point LevelEditor.clear_button x y = false ->
      LevelEditor.tile_occupied pixel ed = true
      \/ (LevelEditor.selected_item ed = Some "s"
          /\ LevelEditor.has_item "s" ed = true)
      \/ (LevelEditor.selected_item ed = Some "f"
          /\ LevelEditor.has_item "f" ed = true) ->
      LevelEditor.placed_items (LevelEditor.handle_click x y ed).2
      = LevelEditor.placed_items ed) /\
  (forall x y : Z,
      LevelEditor.click_in_bounds (LevelEditor.pixel_to_cell x y) = true ->
      let cell := LevelEditor.pixel_to_cell x y in
      let ed1 := (LevelEditor.handle_click (-600) 200 LevelEditor.init).2 in
      let ed2 := (LevelEditor.handle_click x y ed1).2 in
      let ed3 := (LevelEditor.handle_click (-600) 300 ed2).2 in
      LevelEditor.placed_items ed2 = [("t", 24 * cell.1, 24 * cell.2)] /\
      LevelEditor.selected_item ed3 = Some "m" /\
      (LevelEditor.handle_click x y ed3).1
      = (None, Some "Cannot stack items on same tile!") /\
      LevelEditor.placed_items (LevelEditor.handle_click x y ed3).2
      = [("t", 24 * cell.1, 24 * cell.2)]) /\
  (forall (x y : Z) (ed : LevelEditor.t),
      LevelEditor.selected_item ed = Some "s" ->
      LevelEditor.has_item "s" ed = true ->
      LevelEditor.placed_items (LevelEditor.handle_click x y ed).2
      = LevelEditor.placed_items ed
      \/ LevelEditor.placed_items (LevelEditor.handle_click x y ed).2 = []).
Proof.
  split; [|split].
  - intros x y ed cell pixel Hclear H. subst cell pixel.
    destruct (handle_click_placed x y ed) as [Hk|[[Hc _]|(sel & Hs & Hb & ->)]];
      [done|congruence|].
    rewrite try_place_rejected; [done|].
    destruct H as [H|[[Hs' H]|[Hs' H]]]; [by left| |];
      rewrite Hs in Hs'; injection Hs' as ->; eauto.
  - intros x y Hb cell ed1 ed2 ed3.
    assert (Hed2 : ed2 = LevelEditor.mk (Some "t")
                           [("t", 24 * cell.1, 24 * cell.2)]).
    { unfold ed2. by rewrite (handle_click_in_bounds x y ed1 "t"). }
    assert (Hed3 : ed3 = LevelEditor.mk (Some "m")
                           [("t", 24 * cell.1, 24 * cell.2)]).
    { unfold ed3. by rewrite Hed2. }
    rewrite (handle_click_in_bounds x y ed3 "m") by (by rewrite ?Hed3).
    rewrite Hed2, Hed3. fold cell.
    unfold LevelEditor.try_place, LevelEditor.tile_occupied. simpl.
    by rewrite !Z.eqb_refl.
  - intros x y ed Hs Hh.
    destruct (handle_click_placed x y ed) as [Hk|[[_ Hc]|(sel & Hs' & Hb & ->)]];
      [by left|by right|].
    left. rewrite Hs in Hs'. injection Hs' as <-.
    rewrite (try_place_rejected "s" _ ed); eauto.
Qed.

Lemma rejected_placement_keeps_items_witness :
  let ed := LevelEditor.mk (Some "m") [("t", 48, -24)] in
  LevelEditor.placed_items (LevelEditor.handle_click 50 (-30) ed).2
  = [("t", 48, -24)].
Proof.
  intros ed.
  apply (proj1 rejected_placement_keeps_items 50 (-30) ed);
    [reflexivity | left; reflexivity].
Defined.

(** C7 as stated does not hold: the statement that every click whose cell
    lies in the row and column range of the grid reaches the placement
    checks fails.  With the wall
    selected and nothing placed, a click at pixel (288, 0) has the cell
    of row 10 and column 24, the checks would place the wall, and
    [handle_click] drops the click. *)
Lemma in_range_click_dropped :
  ~ (forall (x y : Z) (ed : LevelEditor.t) (sel : string),
        LevelEditor.selected_item ed = Some sel ->
        sel ∈ LevelEditor.palette_keys ->
        let cell := LevelEditor.pixel_to_cell x y in
        LevelEditor.in_grid_range cell = true ->
        LevelEditor.handle_click x y ed
        = (None,
           (LevelEditor.try_place sel
              (LevelEditor.cell_to_pixel cell.1 cell.2) ed).1,
           (LevelEditor.try_place sel
              (LevelEditor.cell_to_pixel cell.1 cell.2) ed).2)).
Proof.
  intros H.
  specialize (H 288 0 (LevelEditor.mk (Some "m") []) "m" eq_refl).
  assert (Hin : "m" ∈ LevelEditor.palette_keys) by (apply list_elem_of_here).
  specialize (H Hin eq_refl).
  vm_compute in H. discriminate H.
Qed.

(** C7, amended: with a palette symbol selected, a click whose cell
    [(cx, cy)] fails [|cx| < GRID_COLS // 2] or [|cy| < GRID_ROWS // 2]
    shows no message and appends nothing (off the buttons and the palette
    strip it changes nothing at all); this covers every cell outside the
    row and column range of the grid and, inside that range, exactly the
    cells of the first and last column and of the first row.  A click
    whose cell passes the guard always reaches the placement checks. *)
Theorem click_bounds_guard
    (x y : Z) (ed : LevelEditor.t) (sel : string) :
  LevelEditor.selected_item ed = Some sel -> sel <> "" ->
  let cell := LevelEditor.pixel_to_cell x y in
  (LevelEditor.click_in_bounds cell = false ->
   (LevelEditor.handle_click x y ed).1.2 = None /\
   (LevelEditor.placed_items (LevelEditor.handle_click x y ed).2
    = LevelEditor.placed_items ed
    \/ LevelEditor.placed_items (LevelEditor.handle_click x y ed).2 = []) /\
   (Button.contains_point LevelEditor.play_button x y = false ->
    Button.contains_point LevelEditor.clear_button x y = false ->
    (-612 <? x) && (x <? -588) = false ->
    LevelEditor.handle_click x y ed = (None, None, ed))) /\
  (LevelEditor.in_grid_range cell = false ->
   LevelEditor.click_in_bounds cell = false) /\
  (LevelEditor.in_grid_range cell = true ->
   LevelEditor.click_in_bounds cell = false <->
   LevelEditor.grid_col cell = 0
   \/ LevelEditor.grid_col cell = Config.GRID_COLS - 1
   \/ LevelEditor.grid_row cell = 0) /\
  (LevelEditor.click_in_bounds cell = true ->
   LevelEditor.handle_click x y ed
   = (None,
      (LevelEditor.try_place sel
         (LevelEditor.cell_to_pixel cell.1 cell.2) ed).1,
      (LevelEditor.try_place sel
         (LevelEditor.cell_to_pixel cell.1 cell.2) ed).2)).
Proof.
  intros Hsel Hne cell. split; [|split; [|split]].
  - intros Hb. unfold LevelEditor.handle_click. fold cell. rewrite Hsel, Hb.
    rewrite (bool_decide_false (sel = "")) by done.
    destruct (Button.contains_point LevelEditor.play_button x y),
             (Button.contains_point LevelEditor.clear_button x y),
             ((-612 <? x) && (x <? -588));
      repeat case_match;
      (split; [done | split; [first [by left | by right] | by intros]]).
  - unfold LevelEditor.in_grid_range, LevelEditor.click_in_bounds,
      LevelEditor.grid_row, LevelEditor.grid_col,
      Config.GRID_ROWS, Config.GRID_COLS.
    change (25 `div` 2) with 12. change (20 `div` 2) with 10.
    rewrite !andb_false_iff, !Z.leb_gt, !Z.ltb_ge. lia.
  - unfold LevelEditor.in_grid_range, LevelEditor.click_in_bounds,
      LevelEditor.grid_row, LevelEditor.grid_col,
      Config.GRID_ROWS, Config.GRID_COLS.
    change (25 `div` 2) with 12. change (20 `div` 2) with 10.
    rewrite !andb_true_iff, !andb_false_iff, !Z.leb_le, !Z.ltb_lt, !Z.ltb_ge.
    lia.
  - intros Hb. by apply handle_click_in_bounds.
Qed.

Lemma click_bounds_guard_witness :
  let ed := LevelEditor.mk (Some "m") [] in
  LevelEditor.handle_click 288 0 ed = (None, None, ed) /\
  LevelEditor.handle_click 264 216 ed
  = (None, None, LevelEditor.mk (Some "m") [("m", 264, 216)]).
Proof.
  intros ed.
  destruct (click_bounds_guard 288 0 ed "m" eq_refl ltac:(done))
    as ((_ & _ & Hout) & _).
  { reflexivity. }
  destruct (click_bounds_guard 264 216 ed "m" eq_refl ltac:(done))
    as (_ & _ & _ & Hin).
  split; [by apply Hout | by rewrite Hin].
Defined.

(** ** The level editor: layout export *)

Section export.
Import LevelEditor.
Implicit Types (layout : list (list ascii)) (row col : Z) (ch : ascii).
Implicit Types (start_pos end_pos : option (Z * Z)).

(** A loop over the concatenated pieces is the loop of the loops. *)
Lemma foldl_bind {A B C} (f : A -> C -> A) (g : B -> list C)
    (l : list B) (a : A) :
  foldl f a (l ≫= g) = foldl (fun a' b => foldl f a' (g b)) a l.
Proof.
  revert a. induction l as [|b l IH]; intros a; [done|].
  change ((b :: l) ≫= g) with (g b ++ (l ≫= g)).
  by rewrite foldl_app, IH.
Qed.

Lemma elem_of_range (n i : Z) : i ∈ range n <-> 0 <= i < n.
Proof.
  unfold range. rewrite list_elem_of_fmap. split.
  - intros (k & -> & Hk). apply elem_of_seq in Hk. lia.
  - intros Hi. exists (Z.to_nat i). split; [lia|].
    apply elem_of_seq. lia.
Qed.

Lemma grid_shape_empty : grid_shape empty_grid.
Proof.
  split; [apply length_replicate|].
  apply Forall_replicate, length_replicate.
Qed.

Lemma grid_shape_set_cell row col ch layout :
  grid_shape layout -> grid_shape (set_cell row col ch layout).
Proof.
  intros [Hl Hr]. split.
  - unfold set_cell. by rewrite length_alter.
  - apply Forall_alter; [done|]. intros r _ Hlen.
    by rewrite length_insert.
Qed.

Lemma get_set_cell layout row col ch row' col' :
  grid_shape layout -> in_grid row col -> 0 <= row' -> 0 <= col' ->
  get_cell (set_cell row col ch layout) row' col'
  = if decide (row' = row /\ col' = col) then ch
    else get_cell layout row' col'.
Proof.
  intros [Hl Hr] [Hrow Hcol] Hr' Hc'. unfold get_cell, set_cell.
  destruct (decide (Z.to_nat row = Z.to_nat row')) as [Heq|Hne].
  - assert (row' = row) as -> by lia.
    rewrite list_lookup_alter_eq.
    destruct (lookup_lt_is_Some_2 layout (Z.to_nat row)) as [r Hlk]; [lia|].
    rewrite Hlk. simpl.
    assert (length r = Z.to_nat Config.GRID_COLS) as Hlen.
    { by eapply (Forall_lookup_1 _ _ _ _ Hr). }
    destruct (decide (Z.to_nat col = Z.to_nat col')) as [Hceq|Hcne].
    + assert (col' = col) as -> by lia.
      rewrite list_lookup_insert_eq by lia.
      by rewrite decide_True.
    + rewrite list_lookup_insert_ne by done.
      rewrite decide_False by lia. done.
  - rewrite list_lookup_alter_ne by done.
    rewrite decide_False by lia. done.
Qed.

Lemma grid_shape_fill_cell start_pos end_pos rc layout :
  grid_shape layout -> grid_shape (fill_cell start_pos end_pos rc layout).
Proof.
  intros H. unfold fill_cell. case_match; [|done].
  by apply grid_shape_set_cell.
Qed.

Lemma get_fill_cell start_pos end_pos rc layout row col :
  grid_shape layout -> in_grid rc.1 rc.2 -> 0 <= row -> 0 <= col ->
  get_cell (fill_cell start_pos end_pos rc layout) row col
  = if bool_decide ((row, col) = rc)
       && fillable start_pos end_pos layout row col
    then "X"%char else get_cell layout row col.
Proof.
  intros Hs Hin Hr Hc. destruct rc as [r c]. simpl in Hin.
  unfold fill_cell. simpl.
  case_bool_decide as Heq.
  - injection Heq as -> ->. simpl.
    destruct (fillable start_pos end_pos layout r c); [|done].
    rewrite get_set_cell by done. by rewrite decide_True.
  - simpl. destruct (fillable start_pos end_pos layout r c); [|done].
    rewrite get_set_cell by done. rewrite decide_False; [done|].
    intros [-> ->]. done.
Qed.

Lemma get_fill_cells start_pos end_pos cells layout row col :
  grid_shape layout -> Forall (fun rc => in_grid rc.1 rc.2) cells ->
  0 <= row -> 0 <= col ->
  get_cell (foldl (fun l rc => fill_cell start_pos end_pos rc l) layout cells)
    row col
  = if bool_decide ((row, col) ∈ cells)
       && fillable start_pos end_pos layout row col
    then "X"%char else get_cell layout row col.
Proof.
  intros Hs Hcells Hr Hc. revert layout Hs.
  induction Hcells as [|rc cells Hrc _ IH]; intros layout Hs; simpl; [done|].
  rewrite IH by by apply grid_shape_fill_cell.
  assert (fillable start_pos end_pos (fill_cell start_pos end_pos rc layout)
            row col
          = negb (bool_decide ((row, col) = rc))
            && fillable start_pos end_pos layout row col) as ->.
  { unfold fillable at 1. rewrite get_fill_cell by done.
    destruct (bool_decide_reflect ((row, col) = rc)) as [Heq|Hne]; simpl;
      [|done].
    destruct (fillable start_pos end_pos layout row col) eqn:Hf; [done|].
    apply Hf. }
  rewrite get_fill_cell by done.
  destruct (bool_decide_reflect ((row, col) = rc)) as [Heq|Hne]; simpl.
  - rewrite andb_false_r.
    rewrite (bool_decide_true (_ ∈ rc :: cells)) by (rewrite Heq; left).
    done.
  - rewrite (bool_decide_ext ((row, col) ∈ rc :: cells) ((row, col) ∈ cells));
      [done|].
    rewrite elem_of_cons. split; [intros [?|?]; done | by right].
Qed.

Lemma fill_perimeter_cells start_pos end_pos layout :
  fill_perimeter start_pos end_pos layout
  = foldl (fun l rc => fill_cell start_pos end_pos rc l) layout perimeter_cells.
Proof.
  unfold fill_perimeter, perimeter_cells.
  by rewrite foldl_app, !foldl_bind.
Qed.

Lemma perimeter_cells_in_grid :
  Forall (fun rc => in_grid rc.1 rc.2) perimeter_cells.
Proof.
  apply Forall_forall. intros [r c]. unfold perimeter_cells.
  rewrite elem_of_app, !list_elem_of_bind.
  intros [(i & Hrc & Hi)|(i & Hrc & Hi)]; apply elem_of_range in Hi;
    apply elem_of_cons in Hrc as [Hrc|Hrc%list_elem_of_singleton];
    injection Hrc as -> ->; unfold in_grid, Config.GRID_ROWS, Config.GRID_COLS in *;
    simpl; lia.
Qed.

Lemma elem_of_perimeter_cells row col :
  in_grid row col ->
  (row, col) ∈ perimeter_cells <-> on_perimeter row col = true.
Proof.
  intros [Hr Hc]. unfold perimeter_cells, on_perimeter.
  rewrite elem_of_app, !list_elem_of_bind, !orb_true_iff, !Z.eqb_eq.
  split.
  - intros [(i & Hrc & Hi)|(i & Hrc & Hi)];
      apply elem_of_cons in Hrc as [Hrc|Hrc%list_elem_of_singleton];
      injection Hrc as -> ->; tauto.
  - intros [[[->| ->]| ->]| ->].
    + left. exists col. split; [left|by apply elem_of_range].
    + left. exists col. split; [right; left|by apply elem_of_range].
    + right. exists row. split; [left|by apply elem_of_range].
    + right. exists row. split; [right; left|by apply elem_of_range].
Qed.

(** The cell-by-cell effect of the two perimeter loops. *)
Lemma get_fill_perimeter start_pos end_pos layout row col :
  grid_shape layout -> in_grid row col ->
  get_cell (fill_perimeter start_pos end_pos layout) row col
  = if on_perimeter row col && fillable start_pos end_pos layout row col
    then "X"%char else get_cell layout row col.
Proof.
  intros Hs Hin. rewrite fill_perimeter_cells.
  rewrite get_fill_cells;
    [|done|apply perimeter_cells_in_grid|apply Hin|apply Hin].
  assert (bool_decide ((row, col) ∈ perimeter_cells) = on_perimeter row col)
    as ->; [|done].
  destruct (on_perimeter row col) eqn:Hp.
  - apply bool_decide_eq_true. by apply elem_of_perimeter_cells.
  - apply bool_decide_eq_false. rewrite elem_of_perimeter_cells by done.
    by rewrite Hp.
Qed.

Lemma grid_shape_export_item item (s : export_state) :
  grid_shape s.1.1 -> grid_shape (export_item item s).1.1.
Proof.
  destruct item as [[item_type px] py], s as [[layout sp] ep]. simpl.
  intros Hs. repeat case_match; simpl; try done;
    by apply grid_shape_set_cell.
Qed.

Lemma grid_shape_place_all ed : grid_shape (place_all ed).1.1.
Proof.
  unfold place_all.
  assert (grid_shape (empty_grid, @None (Z * Z), @None (Z * Z)).1.1)
    as Hs by apply grid_shape_empty.
  revert Hs. generalize (empty_grid, @None (Z * Z), @None (Z * Z)).
  induction (placed_items ed) as [|item l IH]; intros s Hs; [done|].
  simpl. by apply IH, grid_shape_export_item.
Qed.

Lemma get_export_grid ed row col :
  in_grid row col ->
  get_cell (export_grid ed) row col
  = if on_perimeter row col
       && fillable (place_all ed).1.2 (place_all ed).2
            (place_all ed).1.1 row col
    then "X"%char else get_cell (place_all ed).1.1 row col.
Proof.
  intros Hin. unfold export_grid.
  pose proof (grid_shape_place_all ed) as Hs.
  destruct (place_all ed) as [[layout sp] ep]. simpl in *.
  by apply get_fill_perimeter.
Qed.

End export.

(** C5: in the exported grid every perimeter cell that the placement
    loop left as open floor and that is neither the recorded start nor
    the recorded end cell holds the wall symbol, every other cell holds
    what the placement loop left there, and with no placements the
    perimeter is all wall and the interior all floor. *)
Theorem export_walls_perimeter :
  (forall (ed : LevelEditor.t) (row col : Z),
      LevelEditor.in_grid row col ->
      LevelEditor.on_perimeter row col = true ->
      LevelEditor.get_cell (LevelEditor.place_all ed).1.1 row col = "."%char ->
      Some (row, col) <> (LevelEditor.place_all ed).1.2 ->
      Some (row, col) <> (LevelEditor.place_all ed).2 ->
      LevelEditor.get_cell (LevelEditor.export_grid ed) row col = "X"%char) /\
  (forall (ed : LevelEditor.t) (row col : Z),
      LevelEditor.in_grid row col ->
      LevelEditor.on_perimeter row col = false
      \/ LevelEditor.get_cell (LevelEditor.place_all ed).1.1 row col
         <> "."%char ->
      LevelEditor.get_cell (LevelEditor.export_grid ed) row col
      = LevelEditor.get_cell (LevelEditor.place_all ed).1.1 row col) /\
  (forall (ed : LevelEditor.t) (row col : Z),
      LevelEditor.placed_items ed = [] ->
      LevelEditor.in_grid row col ->
      LevelEditor.get_cell (LevelEditor.export_grid ed) row col
      = if LevelEditor.on_perimeter row col then "X"%char else "."%char) /\
  (forall ed : LevelEditor.t,
      LevelEditor.placed_items ed = [] ->
      LevelEditor.get_custom_level_layout ed
      = ["XXXXXXXXXXXXXXXXXXXXXXXXX"]
        ++ replicate 18 "X.......................X"
        ++ ["XXXXXXXXXXXXXXXXXXXXXXXXX"]).
Proof.
  split; [|split; [|split]].
  - intros ed row col Hin Hp Hfloor Hs He.
    rewrite get_export_grid by done. rewrite Hp.
    unfold LevelEditor.fillable.
    rewrite !bool_decide_true; [done| | |]; auto.
  - intros ed row col Hin H. rewrite get_export_grid by done.
    destruct H as [->|H]; [done|].
    unfold LevelEditor.fillable.
    rewrite (bool_decide_false (_ = "."%char)) by done.
    by rewrite andb_false_r.
  - intros ed row col Hnil Hin. rewrite get_export_grid by done.
    unfold LevelEditor.place_all. rewrite Hnil. simpl.
    assert (LevelEditor.get_cell LevelEditor.empty_grid row col = "."%char)
      as Hfloor.
    { destruct Hin as [Hr Hc].
      unfold LevelEditor.get_cell, LevelEditor.empty_grid.
      rewrite lookup_replicate_2 by lia. cbn [mbind option_bind].
      by rewrite lookup_replicate_2 by lia. }
    unfold LevelEditor.fillable. rewrite Hfloor.
    by destruct (LevelEditor.on_perimeter row col).
  - intros [sel placed] Hnil. simpl in Hnil. subst placed.
    vm_compute. reflexivity.
Qed.

Lemma export_walls_perimeter_witness :
  let ed := LevelEditor.mk (Some "s") [("m", 48, 24); ("s", 24, 216)] in
  LevelEditor.get_cell (LevelEditor.export_grid ed) 19 0 = "X"%char /\
  LevelEditor.get_cell (LevelEditor.export_grid ed) 19 13 = "S"%char /\
  LevelEditor.get_cell (LevelEditor.export_grid LevelEditor.init) 0 7
  = "X"%char.
Proof.
  intros ed. split; [|split].
  - apply (proj1 export_walls_perimeter ed 19 0);
      [unfold LevelEditor.in_grid, Config.GRID_ROWS, Config.GRID_COLS; lia
      | reflexivity | reflexivity | done | done].
  - rewrite (proj1 (proj2 export_walls_perimeter) ed 19 13);
      [reflexivity
      | unfold LevelEditor.in_grid, Config.GRID_ROWS, Config.GRID_COLS; lia
      | right; done].
  - rewrite (proj1 (proj2 (proj2 export_walls_perimeter))
               LevelEditor.init 0 7);
      [reflexivity | reflexivity
      | unfold LevelEditor.in_grid, Config.GRID_ROWS, Config.GRID_COLS; lia].
Defined.

(** ** The store of sets *)

Section store_facts.
Implicit Types (st : store) (a : addr) (p : Pos).

Lemma deref_set_add a a' p st :
  deref (set_add a p st) a'
  = if decide (a = a') then {[p]} ∪ deref st a else deref st a'.
Proof.
  unfold set_add. unfold deref at 1.
  destruct (decide (a = a')) as [->|Hne].
  - by rewrite lookup_insert_eq.
  - by rewrite lookup_insert_ne.
Qed.

Lemma set_add_grows a p st a' : deref st a' ⊆ deref (set_add a p st) a'.
Proof.
  rewrite deref_set_add. destruct (decide (a = a')) as [->|]; set_solver.
Qed.

Lemma elem_of_set_add a p st : p ∈ deref (set_add a p st) a.
Proof. rewrite deref_set_add, decide_True by done. set_solver. Qed.

Lemma alloc_grows st a' : deref st a' ⊆ deref (alloc st).2 a'.
Proof.
  unfold alloc, deref. simpl.
  destruct (decide (fresh (dom st) = a')) as [<-|Hne].
  - rewrite lookup_insert_eq.
    assert (st !! fresh (dom st) = None) as ->; [|done].
    apply not_elem_of_dom, is_fresh.
  - by rewrite lookup_insert_ne.
Qed.

Lemma enemy_init_grows p k st a' :
  deref st a' ⊆ deref (Enemy.init p k st).2 a'.
Proof.
  unfold Enemy.init.
  pose proof (alloc_grows st a') as H1.
  destruct (alloc st) as [w st1].
  pose proof (alloc_grows st1 a') as H2.
  destruct (alloc st1) as [tr st2]. simpl in *. set_solver.
Qed.

End store_facts.

(** ** Loops over [enumerate] *)

Section enumerate_loops.
Context {A S : Type} (step : nat -> A -> S -> S).

Lemma foldl_enumerate_snoc (l : list A) (y : A) (s : S) :
  foldl (fun s1 '(i, x) => step i x s1) s (enumerate (l ++ [y]))
  = step (length l) y
      (foldl (fun s1 '(i, x) => step i x s1) s (enumerate l)).
Proof.
  unfold enumerate. rewrite imap_app, foldl_app. simpl.
  by rewrite Nat.add_0_r.
Qed.

(** Each round establishes a fact about its own element, and later
    rounds, which only move the state up a preorder, keep it. *)
Lemma foldl_enumerate_established
    (R : relation S) (P : nat -> A -> S -> Prop) `{!PreOrder R} :
  (forall i x s, R s (step i x s)) ->
  (forall i x s, P i x (step i x s)) ->
  (forall i x s s', R s s' -> P i x s -> P i x s') ->
  forall l s,
    R s (foldl (fun s1 '(i, x) => step i x s1) s (enumerate l)) /\
    forall i x, l !! i = Some x ->
      P i x (foldl (fun s1 '(i, x) => step i x s1) s (enumerate l)).
Proof.
  intros Hstep Hest Hkeep l.
  induction l as [|y l IH] using rev_ind; intros s.
  - split; [done|]. intros i x Hlk. by rewrite lookup_nil in Hlk.
  - rewrite foldl_enumerate_snoc. destruct (IH s) as [HR HP]. split.
    + etrans; [exact HR|apply Hstep].
    + intros i x Hlk. apply lookup_app_Some in Hlk as [Hlk|[Hge Hlk]].
      * eapply Hkeep; [apply Hstep|]. by apply HP.
      * apply list_lookup_singleton_Some in Hlk as [Hi ->].
        replace i with (length l) by lia. apply Hest.
Qed.

(** An invariant kept by every round on an admissible element. *)
Lemma foldl_enumerate_inv (Inv : S -> Prop) (ok : A -> Prop) :
  (forall i x s, ok x -> Inv s -> Inv (step i x s)) ->
  forall l s, Forall ok l -> Inv s ->
    Inv (foldl (fun s1 '(i, x) => step i x s1) s (enumerate l)).
Proof.
  intros Hstep l. induction l as [|y l IH] using rev_ind; intros s Hok Hs.
  - done.
  - rewrite foldl_enumerate_snoc. apply Forall_app in Hok as [Hl Hy].
    apply Hstep; [by eapply Forall_inv|]. by apply IH.
Qed.

End enumerate_loops.

(** ** Level setup *)

Section level_setup.
Import Game.
Implicit Types (g : Game.t) (lv : GameLevel.t) (draws : nat -> nat).

#[local] Instance extends_preorder : PreOrder extends.
Proof.
  split.
  - intros g. do 3 (split; [reflexivity|]). split; [|by intros].
    intros a. reflexivity.
  - intros g1 g2 g3 (Hl & Hw & Ht & Hs & Hp) (Hl' & Hw' & Ht' & Hs' & Hp').
    split; [congruence|]. split; [congruence|]. split; [congruence|].
    split; [|by auto]. intros a. etrans; [apply Hs|apply Hs'].
Qed.

Lemma get_screen_position_layout lv lv' row col :
  GameLevel.layout lv' = GameLevel.layout lv ->
  GameLevel.get_screen_position lv' row col
  = GameLevel.get_screen_position lv row col.
Proof. unfold GameLevel.get_screen_position. by intros ->. Qed.

Ltac extends_goal :=
  split; [|split; [|split; [|split]]]; simpl; try done;
  try (intros a; first [apply set_add_grows | apply enemy_init_grows]).

Lemma setup_cell_extends draws r c ch g :
  extends g (setup_cell draws r c ch g).
Proof.
  unfold setup_cell.
  destruct (decide (ch = "X"%char)); [by extends_goal|].
  destruct (decide (ch = "P"%char)); [by extends_goal|].
  destruct (decide (ch = "T"%char)); [by extends_goal|].
  destruct (decide (ch = "E"%char)).
  { pose proof (enemy_init_grows
                  (GameLevel.get_screen_position (level g)
                     (Z.of_nat r) (Z.of_nat c))
                  (draws (length (GameLevel.enemies (level g)))) (sets g))
      as Hgrow.
    destruct (Enemy.init _ _ _) as [en st]. extends_goal. }
  destruct (decide (ch = "S"%char)).
  { simpl. destruct (GameLevel.player_spawn (level g)); by extends_goal. }
  destruct (decide (ch = "F"%char)); by extends_goal.
Qed.

Lemma cell_in_extends sel r c g g' :
  sel = GameLevel.walls \/ sel = GameLevel.treasure_positions ->
  extends g g' -> cell_in sel r c g -> cell_in sel r c g'.
Proof.
  intros Hsel (Hl & Hw & Ht & Hs & _). unfold cell_in.
  rewrite (get_screen_position_layout _ _ _ _ Hl).
  destruct Hsel as [-> | ->]; [rewrite Hw|rewrite Ht]; apply Hs.
Qed.

Lemma setup_cell_start draws r c g :
  cell_in GameLevel.walls r c (setup_cell draws r c "S" g).
Proof.
  unfold setup_cell, cell_in. simpl.
  destruct (GameLevel.player_spawn (level g)); simpl; apply elem_of_set_add.
Qed.

Lemma setup_cell_treasure draws r c g :
  cell_in GameLevel.treasure_positions r c (setup_cell draws r c "T" g).
Proof. unfold setup_cell, cell_in. simpl. apply elem_of_set_add. Qed.

Lemma setup_cell_done draws r c ch g :
  cell_done r c ch (setup_cell draws r c ch g).
Proof.
  split; intros ->.
  - split; [apply setup_cell_start|].
    unfold setup_cell. simpl.
    destruct (GameLevel.player_spawn (level g)) eqn:Hsp; simpl;
      [by rewrite Hsp|done].
  - apply setup_cell_treasure.
Qed.

Lemma cell_done_extends r c ch g g' :
  extends g g' -> cell_done r c ch g -> cell_done r c ch g'.
Proof.
  intros Hext [Hs Ht]. split; intros ->.
  - destruct (Hs eq_refl) as [Hin Hsp]. split.
    + eapply cell_in_extends; [by left|done..].
    + by apply Hext.
  - eapply cell_in_extends; [by right|done|by apply Ht].
Qed.

Lemma setup_row_done draws r row g :
  extends g (setup_row draws r row g) /\
  forall c ch, list_ascii_of_string row !! c = Some ch ->
    cell_done r c ch (setup_row draws r row g).
Proof.
  unfold setup_row.
  apply (foldl_enumerate_established (setup_cell draws r) extends
           (cell_done r)).
  - intros. apply setup_cell_extends.
  - intros. apply setup_cell_done.
  - intros. by eapply cell_done_extends.
Qed.

Lemma setup_rows_done draws lay g :
  let g' := foldl (fun g1 '(row_idx, row) => setup_row draws row_idx row g1)
              g (enumerate lay) in
  extends g g' /\
  forall r c ch, cell_char lay r c = Some ch -> cell_done r c ch g'.
Proof.
  intros g'.
  destruct (foldl_enumerate_established (setup_row draws) extends
              (fun r row s =>
                 forall c ch, list_ascii_of_string row !! c = Some ch ->
                   cell_done r c ch s)) with (l := lay) (s := g)
    as [Hext Hdone].
  - intros. apply setup_row_done.
  - intros. by apply setup_row_done.
  - intros i x s s' Hss' H c ch Hlk. eapply cell_done_extends; eauto.
  - split; [done|]. intros r c ch Hch. unfold cell_char in Hch.
    destruct (lay !! r) as [row|] eqn:Hrow; [|done]. simpl in Hch.
    by eapply Hdone.
Qed.

Lemma spawn_on_wall_mono g g' :
  GameLevel.player_spawn (level g') = GameLevel.player_spawn (level g) ->
  GameLevel.walls (level g') = GameLevel.walls (level g) ->
  Player.pos (player g') = Player.pos (player g) ->
  (forall a, deref (sets g) a ⊆ deref (sets g') a) ->
  spawn_on_wall g -> spawn_on_wall g'.
Proof.
  unfold spawn_on_wall. intros -> -> -> Hs.
  destruct (GameLevel.player_spawn (level g)); [|done].
  intros [Hp Hw]. split; [done|]. by apply Hs.
Qed.

Lemma setup_cell_spawn_on_wall draws r c ch g :
  ch <> "P"%char -> spawn_on_wall g ->
  spawn_on_wall (setup_cell draws r c ch g).
Proof.
  intros HP H. unfold setup_cell.
  destruct (decide (ch = "X"%char)).
  { revert H. apply spawn_on_wall_mono; try done. apply set_add_grows. }
  destruct (decide (ch = "P"%char)); [done|].
  destruct (decide (ch = "T"%char)).
  { revert H. apply spawn_on_wall_mono; try done.
    simpl. apply set_add_grows. }
  destruct (decide (ch = "E"%char)).
  { pose proof (enemy_init_grows
                  (GameLevel.get_screen_position (level g)
                     (Z.of_nat r) (Z.of_nat c))
                  (draws (length (GameLevel.enemies (level g)))) (sets g))
      as Hgrow.
    destruct (Enemy.init _ _ _) as [en st].
    revert H. by apply spawn_on_wall_mono. }
  destruct (decide (ch = "S"%char)).
  { simpl. destruct (GameLevel.player_spawn (level g)) eqn:Hsp.
    - revert H. apply spawn_on_wall_mono; try done.
      simpl. apply set_add_grows.
    - unfold spawn_on_wall. simpl. split; [done|]. apply elem_of_set_add. }
  destruct (decide (ch = "F"%char)); [|done].
  revert H. by apply spawn_on_wall_mono.
Qed.

Lemma setup_cell_distinct_treasures draws r c ch g :
  distinct_treasures g -> distinct_treasures (setup_cell draws r c ch g).
Proof.
  intros [Hnd Hlt]. unfold setup_cell.
  destruct (decide (ch = "X"%char)); [done|].
  destruct (decide (ch = "P"%char)); [done|].
  destruct (decide (ch = "T"%char)).
  { split; simpl.
    - rewrite fmap_app. apply NoDup_app. split; [done|]. split.
      + intros i Hi [->|[]%elem_of_nil]%elem_of_cons.
        apply list_elem_of_fmap in Hi as (tr & Heq & Htr).
        rewrite Forall_forall in Hlt. specialize (Hlt tr Htr). simpl in *. lia.
      + apply NoDup_singleton.
    - apply Forall_app. split.
      + eapply Forall_impl; [exact Hlt|]. simpl. intros; lia.
      + apply Forall_singleton. simpl. lia. }
  destruct (decide (ch = "E"%char)).
  { destruct (Enemy.init _ _ _) as [en st]. done. }
  destruct (decide (ch = "S"%char)).
  { simpl. by destruct (GameLevel.player_spawn (level g)). }
  by destruct (decide (ch = "F"%char)).
Qed.

Lemma setup_row_spawn_on_wall draws r row g :
  Forall (fun ch => ch <> "P"%char) (list_ascii_of_string row) ->
  spawn_on_wall g -> spawn_on_wall (setup_row draws r row g).
Proof.
  unfold setup_row.
  apply (foldl_enumerate_inv (setup_cell draws r) spawn_on_wall).
  intros. by apply setup_cell_spawn_on_wall.
Qed.

Lemma setup_row_distinct_treasures draws r row g :
  distinct_treasures g -> distinct_treasures (setup_row draws r row g).
Proof.
  unfold setup_row.
  apply (foldl_enumerate_inv (setup_cell draws r) distinct_treasures
           (fun _ => True)).
  - intros. by apply setup_cell_distinct_treasures.
  - by apply Forall_true.
Qed.

End level_setup.

(** What [setup_level] guarantees. *)
Lemma setup_level_facts (draws : nat -> nat) (lv : GameLevel.t) (g : Game.t) :
  let g' := Game.setup_level draws lv g in
  GameLevel.layout (Game.level g') = GameLevel.layout lv /\
  GameLevel.walls (Game.level g') = GameLevel.walls lv /\
  GameLevel.treasure_positions (Game.level g')
  = GameLevel.treasure_positions lv /\
  (forall r c ch, Game.cell_char (GameLevel.layout lv) r c = Some ch ->
     Game.cell_done r c ch g') /\
  Game.wired g' /\
  (GameLevel.treasures lv = [] -> Game.distinct_treasures g') /\
  (GameLevel.player_spawn lv = None ->
   Game.no_player_mark (GameLevel.layout lv) -> Game.spawn_on_wall g').
Proof.
  intros g'. unfold Game.setup_level in g'.
  set (g0 := Game.set_player Player.init (Game.set_level lv g)) in *.
  set (g1 := foldl _ g0 _) in *.
  destruct (setup_rows_done draws (GameLevel.layout lv) g0)
    as [(Hl & Hw & Ht & Hs & Hp) Hdone]. fold g1 in Hl, Hw, Ht, Hs, Hp, Hdone.
  assert (Game.extends g1 g') as Hext.
  { do 3 (split; [reflexivity|]). split; [|by intros].
    intros a. reflexivity. }
  split; [exact Hl|]. split; [exact Hw|]. split; [exact Ht|].
  split; [|split; [|split]].
  - intros r c ch Hch. eapply cell_done_extends; [exact Hext|]. by apply Hdone.
  - unfold Game.wired, g'. simpl. apply Forall_fmap, Forall_true. done.
  - intros Hnil.
    assert (Game.distinct_treasures g1) as Hd; [|exact Hd].
    apply (foldl_enumerate_inv (Game.setup_row draws) Game.distinct_treasures
             (fun _ => True)).
    + intros. by apply setup_row_distinct_treasures.
    + by apply Forall_true.
    + unfold Game.distinct_treasures, g0. simpl. rewrite Hnil.
      split; [apply NoDup_nil_2|apply Forall_nil_2].
  - intros Hsp Hno.
    assert (Game.spawn_on_wall g1) as Hd; [|exact Hd].
    apply (foldl_enumerate_inv (Game.setup_row draws) Game.spawn_on_wall
             (fun row => Forall (fun ch => ch <> "P"%char)
                           (list_ascii_of_string row))).
    + intros. by apply setup_row_spawn_on_wall.
    + exact Hno.
    + unfold Game.spawn_on_wall, g0. simpl. by rewrite Hsp.
Qed.

(** ** The play loop *)

Section play.
Import Game.
Implicit Types (g : Game.t) (e : Enemy.t) (tr : Treasure.t).

Lemma enemy_move_refs st player k e :
  Enemy.walls (Enemy.move st player k e) = Enemy.walls e /\
  Enemy.treasures (Enemy.move st player k e) = Enemy.treasures e.
Proof.
  unfold Enemy.move, Enemy._move_towards_player, Enemy._move_random,
    Enemy._try_move.
  repeat case_match; done.
Qed.

(** An enemy that moves in a tick does not land in its treasure set. *)
Lemma enemy_move_avoids st player k e :
  Enemy.pos (Enemy.move st player k e) = Enemy.pos e
  \/ Enemy.pos (Enemy.move st player k e) ∉ deref st (Enemy.treasures e).
Proof.
  unfold Enemy.move, Enemy._move_towards_player, Enemy._move_random,
    Enemy._try_move.
  repeat case_match; simpl; try (by left);
    match goal with
    | H : _ && _ = true |- _ =>
        apply andb_true_iff in H as [_ H%bool_decide_eq_true]; by right
    end.
Qed.

Lemma is_collision_pos (p p' : Player.t) (q : Pos) :
  Player.pos p' = Player.pos p ->
  Player.is_collision p' q = Player.is_collision p q.
Proof. unfold Player.is_collision. by intros ->. Qed.

Lemma remove_treasure_middle i l1 tr l2 :
  Treasure.oid tr = i ->
  Forall (fun x => Treasure.oid x <> i) l1 ->
  remove_treasure i (l1 ++ tr :: l2) = l1 ++ l2.
Proof.
  intros Hi Hl1. induction Hl1 as [|x l1 Hx _ IH]; simpl.
  - by rewrite decide_True.
  - rewrite decide_False by done. by rewrite IH.
Qed.

(** The collection loop, from the point where the treasures of [pre] have
    been visited and those of [suf] are still to come. *)
Lemma collect_loop q pre suf g :
  NoDup (Treasure.oid <$> (pre ++ suf)) ->
  Player.pos (player g) = q ->
  GameLevel.treasures (level g) = filter (out_of_reach q) pre ++ suf ->
  GameLevel.treasures (level (foldl collect_one g suf))
  = filter (out_of_reach q) (pre ++ suf) /\
  sets (foldl collect_one g suf) = sets g /\
  GameLevel.set_treasures [] (level (foldl collect_one g suf))
  = GameLevel.set_treasures [] (level g) /\
  Player.pos (player (foldl collect_one g suf)) = q /\
  next_oid (foldl collect_one g suf) = next_oid g.
Proof.
  revert pre g. induction suf as [|tr suf IH]; intros pre g Hnd Hq Htr.
  { simpl. by rewrite app_nil_r in *. }
  assert (Hnd' : NoDup (Treasure.oid <$> ((pre ++ [tr]) ++ suf))).
  { by rewrite <- app_assoc. }
  change (foldl collect_one g (tr :: suf))
    with (foldl collect_one (collect_one g tr) suf).
  replace (pre ++ tr :: suf) with ((pre ++ [tr]) ++ suf)
    by (by rewrite <- app_assoc).
  assert (Hcol : Player.is_collision (player g) (Treasure.pos tr)
                 = distance_lt q (Treasure.pos tr) Config.COLLISION_DISTANCE).
  { unfold Player.is_collision. by rewrite Hq. }
  destruct (distance_lt q (Treasure.pos tr) Config.COLLISION_DISTANCE) eqn:Hd.
  - destruct (IH (pre ++ [tr]) (collect_one g tr)) as (H1 & H2 & H3 & H4 & H5);
      [exact Hnd'|by unfold collect_one; rewrite Hcol| |].
    + unfold collect_one. rewrite Hcol. simpl. rewrite Htr, filter_app.
      rewrite (filter_cons_False _ tr) by (unfold out_of_reach; congruence).
      rewrite filter_nil, app_nil_r.
      apply remove_treasure_middle; [done|].
      apply Forall_forall. intros x [_ Hx]%list_elem_of_filter Heq.
      rewrite fmap_app, fmap_cons in Hnd.
      apply NoDup_app in Hnd as (_ & Hnd & _).
      apply (Hnd (Treasure.oid x)).
      * by apply list_elem_of_fmap_2.
      * rewrite Heq. left.
    + rewrite H1, H2, H3, H4, H5. unfold collect_one. rewrite Hcol.
      by repeat split.
  - destruct (IH (pre ++ [tr]) (collect_one g tr)) as (H1 & H2 & H3 & H4 & H5);
      [exact Hnd'|by unfold collect_one; rewrite Hcol| |].
    + unfold collect_one. rewrite Hcol.
      rewrite Htr, filter_app, (filter_cons_True _ tr) by done.
      by rewrite filter_nil, <- app_assoc.
    + rewrite H1, H2, H3, H4, H5. unfold collect_one. rewrite Hcol.
      by repeat split.
Qed.

(** The collection loop removes from the live list the treasures the
    player collides with, and touches neither the store nor the rest of
    the level. *)
Lemma collect_treasures_spec g :
  NoDup (Treasure.oid <$> GameLevel.treasures (level g)) ->
  GameLevel.treasures (level (collect_treasures g))
  = filter (out_of_reach (Player.pos (player g)))
      (GameLevel.treasures (level g)) /\
  sets (collect_treasures g) = sets g /\
  GameLevel.set_treasures [] (level (collect_treasures g))
  = GameLevel.set_treasures [] (level g) /\
  Player.pos (player (collect_treasures g)) = Player.pos (player g) /\
  next_oid (collect_treasures g) = next_oid g.
Proof.
  intros Hnd.
  apply (collect_loop (Player.pos (player g)) []
           (GameLevel.treasures (level g)) g); done.
Qed.

Lemma remove_treasure_sublist i l : sublist (remove_treasure i l) l.
Proof.
  induction l as [|x l IH]; simpl; [done|].
  destruct (decide (Treasure.oid x = i)).
  - by apply sublist_cons.
  - by apply sublist_skip.
Qed.

Lemma collect_one_keeps g tr :
  sets (collect_one g tr) = sets g /\
  GameLevel.set_treasures [] (level (collect_one g tr))
  = GameLevel.set_treasures [] (level g) /\
  next_oid (collect_one g tr) = next_oid g /\
  sublist (GameLevel.treasures (level (collect_one g tr)))
    (GameLevel.treasures (level g)).
Proof.
  unfold collect_one.
  destruct (Player.is_collision _ _); simpl; [|done].
  repeat split. apply remove_treasure_sublist.
Qed.

Lemma collect_loop_keeps l g :
  sets (foldl collect_one g l) = sets g /\
  GameLevel.set_treasures [] (level (foldl collect_one g l))
  = GameLevel.set_treasures [] (level g) /\
  next_oid (foldl collect_one g l) = next_oid g /\
  sublist (GameLevel.treasures (level (foldl collect_one g l)))
    (GameLevel.treasures (level g)).
Proof.
  revert g. induction l as [|tr l IH]; intros g; simpl; [done|].
  destruct (IH (collect_one g tr)) as (H1 & H2 & H3 & H4).
  destruct (collect_one_keeps g tr) as (K1 & K2 & K3 & K4).
  rewrite H1, H2, H3. repeat split; try done. by etrans.
Qed.

Lemma run_auto_mode_keeps g :
  sets (run_auto_mode g) = sets g /\
  level (run_auto_mode g) = level g /\
  next_oid (run_auto_mode g) = next_oid g.
Proof. unfold run_auto_mode. by case_bool_decide. Qed.

(** A round of the play loop that goes round again. *)
Lemma frame_keeps g g' :
  frame g = (None, g') ->
  sets g' = sets g /\
  GameLevel.set_treasures [] (level g') = GameLevel.set_treasures [] (level g) /\
  next_oid g' = next_oid g /\
  sublist (GameLevel.treasures (level g')) (GameLevel.treasures (level g)).
Proof.
  unfold frame.
  destruct (return_to_menu g); [done|]. destruct (create_mode g); [done|].
  set (g1 := if auto_mode g then _ else g).
  assert (sets g1 = sets g /\ level g1 = level g /\ next_oid g1 = next_oid g)
    as (E1 & E2 & E3).
  { unfold g1. destruct (auto_mode g); [|done].
    destruct (run_auto_mode_keeps g) as (A1 & A2 & A3).
    simpl. rewrite A2. by destruct (GameLevel.player_spawn (level g)). }
  destruct (collect_loop_keeps (GameLevel.treasures (level g1)) g1)
    as (H1 & H2 & H3 & H4).
  fold (collect_treasures g1) in H1, H2, H3, H4.
  rewrite E1 in H1. rewrite E2 in H2, H4. rewrite E3 in H3.
  intros Hf. assert (g' = collect_treasures g1) as ->; [|done].
  revert Hf. generalize (collect_treasures g1). intros g2.
  repeat case_match; congruence.
Qed.

Lemma same_level_projections (lv lv' : GameLevel.t) :
  GameLevel.set_treasures [] lv' = GameLevel.set_treasures [] lv ->
  GameLevel.layout lv' = GameLevel.layout lv /\
  GameLevel.walls lv' = GameLevel.walls lv /\
  GameLevel.treasure_positions lv' = GameLevel.treasure_positions lv /\
  GameLevel.enemies lv' = GameLevel.enemies lv.
Proof. destruct lv, lv'. unfold GameLevel.set_treasures. simpl. by intros [=]. Qed.

Lemma play_step_keeps g g' :
  play_step g g' ->
  same_sets g g' /\ (wired g -> wired g') /\
  (distinct_treasures g -> distinct_treasures g').
Proof.
  intros [d g1|i k g1|x y g1|g1 g2 Hf].
  - done.
  - split; [done|]. split; [|done]. unfold wired. simpl. intros Hw.
    apply Forall_alter; [done|]. intros e _ [Hew Het].
    destruct (enemy_move_refs (sets g1) (player g1) k e) as [-> ->]. done.
  - unfold handle_button_click. by repeat case_match.
  - apply frame_keeps in Hf as (H1 & H2 & H3 & H4).
    apply same_level_projections in H2 as (L1 & L2 & L3 & L4).
    split; [done|]. split.
    + unfold wired. by rewrite L2, L3, L4.
    + intros [Hnd Hlt]. split.
      * eapply sublist_NoDup; [exact Hnd|]. by apply fmap_sublist.
      * rewrite H3. rewrite Forall_forall in Hlt. apply Forall_forall.
        intros tr Htr. apply Hlt. by eapply elem_of_sublist.
Qed.

Lemma play_keeps g g' :
  rtc play_step g g' ->
  same_sets g g' /\ (wired g -> wired g') /\
  (distinct_treasures g -> distinct_treasures g').
Proof.
  induction 1 as [g|g1 g2 g3 Hstep _ IH]; [done|].
  apply play_step_keeps in Hstep as ((S1 & S2 & S3 & S4) & Hw & Hd).
  destruct IH as ((T1 & T2 & T3 & T4) & Hw' & Hd').
  split; [|by auto]. unfold same_sets. by rewrite T1, T2, T3, T4.
Qed.

End play.

(** C10: level setup puts the screen position of every ['S'] cell in the
    wall set, where it stays while the level is played, so that no
    [Player.move] that returns true ends on such a cell; and in a level
    without ['P'] whose spawn is yet to be recorded and that has a start
    cell, the player begins on its spawn cell, which is a wall, and no
    successful move brings it back there. *)
Theorem start_cells_are_walls
    (draws : nat -> nat) (lv : GameLevel.t) (g0 g : Game.t) :
  rtc Game.play_step (Game.setup_level draws lv g0) g ->
  (forall r c,
      Game.cell_char (GameLevel.layout lv) r c = Some "S"%char ->
      let start :=
        GameLevel.get_screen_position lv (Z.of_nat r) (Z.of_nat c) in
      start ∈ deref (Game.sets (Game.setup_level draws lv g0))
                (GameLevel.walls lv) /\
      start ∈ deref (Game.sets g) (GameLevel.walls (Game.level g)) /\
      forall d p',
        Player.move d (deref (Game.sets g) (GameLevel.walls (Game.level g)))
          (Game.player g) = (true, p') ->
        Player.pos p' <> start) /\
  (GameLevel.player_spawn lv = None ->
   Game.no_player_mark (GameLevel.layout lv) ->
   (exists r c, Game.cell_char (GameLevel.layout lv) r c = Some "S"%char) ->
   let g1 := Game.setup_level draws lv g0 in
   GameLevel.player_spawn (Game.level g1) = Some (Player.pos (Game.player g1))
   /\ Player.pos (Game.player g1)
        ∈ deref (Game.sets g1) (GameLevel.walls (Game.level g1))
   /\ forall d p',
        Player.move d (deref (Game.sets g) (GameLevel.walls (Game.level g)))
          (Game.player g) = (true, p') ->
        Player.pos p' <> Player.pos (Game.player g1)).
Proof.
  intros Hplay.
  destruct (setup_level_facts draws lv g0)
    as (Hl & Hw & Ht & Hdone & Hwired & Hdist & Hspawn).
  destruct (play_keeps _ _ Hplay) as ((S1 & S2 & S3 & S4) & _ & _).
  assert (Hmove : forall (q : Pos) d p',
             q ∈ deref (Game.sets (Game.setup_level draws lv g0))
                   (GameLevel.walls lv) ->
             Player.move d
               (deref (Game.sets g) (GameLevel.walls (Game.level g)))
               (Game.player g) = (true, p') ->
             Player.pos p' <> q).
  { intros q d p' Hq Hm. apply move_true_inv in Hm as [Hfree ->]. simpl.
    intros Heq. apply Hfree. by rewrite Heq, S1, S3, Hw. }
  split.
  - intros r c Hch start.
    destruct (Hdone r c _ Hch) as [[Hin _] _]; [done|].
    unfold Game.cell_in in Hin.
    rewrite (get_screen_position_layout lv _ _ _ Hl), Hw in Hin.
    split; [exact Hin|]. split; [by rewrite S1, S3, Hw|].
    intros d p'. by apply Hmove.
  - intros Hnone Hno (r & c & Hch) g1.
    destruct (Hdone r c _ Hch) as [[_ [sp Hsp]] _]; [done|].
    specialize (Hspawn Hnone Hno). unfold Game.spawn_on_wall in Hspawn.
    fold g1 in Hsp, Hspawn, Hw. rewrite Hsp in Hspawn.
    destruct Hspawn as [Hpos Hin]. rewrite Hsp, Hpos.
    split; [done|]. split; [done|].
    intros d p'. apply Hmove. by rewrite <- Hw.
Qed.

Lemma start_cells_are_walls_witness :
  let lv := (GameLevel.init ["XSX"; "X.F"; "XXX"] [] ∅).1 in
  let g0 := Game.mk ∅ Player.init lv 0 false false false in
  let g1 := Game.setup_level (fun _ => 0%nat) lv g0 in
  Player.pos (Game.player g1) = (-24, 48) /\
  Player.pos (Game.player g1)
    ∈ deref (Game.sets g1) (GameLevel.walls (Game.level g1)).
Proof.
  intros lv g0 g1.
  destruct (start_cells_are_walls (fun _ => 0%nat) lv g0 g1 (rtc_refl _ _))
    as [_ H].
  destruct H as (_ & Hin & _).
  - reflexivity.
  - repeat constructor; done.
  - by exists 0%nat, 1%nat.
  - split; [reflexivity|exact Hin].
Defined.

(** C9: while a level is played, the collection loop drops from the live
    list exactly the treasures the player collides with and leaves the
    treasure-occupancy set as it is; every enemy holds that set as an
    obstacle set, so the position of every ['T'] cell of the layout stays
    in it, before and after collection, and an enemy neither steps onto
    such a cell from a neighbouring one nor ends a tick on one it was not
    already on. *)
Theorem treasure_cells_stay_blocked
    (draws : nat -> nat) (lv : GameLevel.t) (g0 g : Game.t) :
  GameLevel.treasures lv = [] ->
  rtc Game.play_step (Game.setup_level draws lv g0) g ->
  (GameLevel.treasures (Game.level (Game.collect_treasures g))
   = filter (Game.out_of_reach (Player.pos (Game.player g)))
       (GameLevel.treasures (Game.level g)) /\
   Game.sets (Game.collect_treasures g) = Game.sets g /\
   GameLevel.treasure_positions (Game.level (Game.collect_treasures g))
   = GameLevel.treasure_positions (Game.level g)) /\
  (forall r c,
      Game.cell_char (GameLevel.layout lv) r c = Some "T"%char ->
      let cell :=
        GameLevel.get_screen_position lv (Z.of_nat r) (Z.of_nat c) in
      cell ∈ deref (Game.sets g)
               (GameLevel.treasure_positions (Game.level g)) /\
      cell ∈ deref (Game.sets (Game.collect_treasures g))
               (GameLevel.treasure_positions
                  (Game.level (Game.collect_treasures g))) /\
      forall e k,
        e ∈ GameLevel.enemies (Game.level g) ->
        Enemy.treasures e = GameLevel.treasure_positions (Game.level g) /\
        (step_from (Enemy.pos e) (Enemy.current_direction e) = cell ->
         Enemy.pos (Enemy._try_move (Game.sets g) k e) = Enemy.pos e) /\
        (Enemy.pos (Enemy.move (Game.sets g) (Game.player g) k e) = cell ->
         Enemy.pos e = cell)).
Proof.
  intros Hnil Hplay.
  destruct (setup_level_facts draws lv g0)
    as (Hl & Hw & Ht & Hdone & Hwired & Hdist & _).
  destruct (play_keeps _ _ Hplay) as ((S1 & S2 & S3 & S4) & Hwired' & Hdist').
  specialize (Hwired' Hwired). destruct (Hdist' (Hdist Hnil)) as [Hnd _].
  destruct (collect_treasures_spec g Hnd) as (C1 & C2 & C3 & _ & _).
  apply same_level_projections in C3 as (_ & _ & C3 & _).
  split; [done|].
  intros r c Hch cell.
  assert (Hin : cell ∈ deref (Game.sets g)
                         (GameLevel.treasure_positions (Game.level g))).
  { destruct (Hdone r c _ Hch) as [_ Hin]. specialize (Hin eq_refl).
    unfold Game.cell_in in Hin.
    rewrite (get_screen_position_layout lv _ _ _ Hl) in Hin.
    by rewrite S1, S4. }
  split; [exact Hin|]. split; [by rewrite C2, C3|].
  intros e k He.
  unfold Game.wired in Hwired'. rewrite Forall_forall in Hwired'.
  destruct (Hwired' e He) as [_ Het].
  split; [exact Het|]. split.
  - intros Hdest. rewrite try_move_blocked; [done|].
    right. by rewrite Hdest, Het.
  - intros Hpos.
    destruct (enemy_move_avoids (Game.sets g) (Game.player g) k e)
      as [Hsame|Havoid]; [congruence|].
    exfalso. apply Havoid. by rewrite Hpos, Het.
Qed.

Lemma treasure_cells_stay_blocked_witness :
  let lv := (GameLevel.init ["XXXXX"; "XPTEX"; "XXXXX"] [] ∅).1 in
  let g0 := Game.mk ∅ Player.init lv 0 false false false in
  let g1 := Game.setup_level (fun _ => 2%nat) lv g0 in
  let g2 := Game.collect_treasures (Game.key_press RIGHT g1) in
  GameLevel.treasures (Game.level g2) = [] /\
  (0, 24) ∈ deref (Game.sets g2)
              (GameLevel.treasure_positions (Game.level g2)).
Proof.
  intros lv g0 g1 g2.
  destruct (treasure_cells_stay_blocked (fun _ => 2%nat) lv g0
              (Game.key_press RIGHT g1) eq_refl) as [(Hlist & _) Hcells].
  { apply rtc_once. constructor. }
  split.
  - unfold g2. rewrite Hlist. reflexivity.
  - apply (Hcells 1%nat 2%nat). reflexivity.
Defined.

(** * Further properties *)

(** ** Direction names *)

Lemma lower_char_idempotent (c : ascii) :
  lower_char (lower_char c) = lower_char c.
Proof. destruct c as [[] [] [] [] [] [] [] []]; reflexivity. Qed.

Lemma lower_idempotent (s : string) : lower (lower s) = lower s.
Proof.
  induction s as [|c s IH]; simpl; [done|].
  by rewrite lower_char_idempotent, IH.
Qed.

(** [Direction.from_string] does not look at the case of its argument,
    maps a name to its direction and anything else to [UP]. *)
Theorem from_string_case_insensitive (s : string) :
  from_string (lower s) = from_string s /\
  (lower s = "up" -> from_string s = UP) /\
  (lower s = "down" -> from_string s = DOWN) /\
  (lower s = "left" -> from_string s = LEFT) /\
  (lower s = "right" -> from_string s = RIGHT) /\
  (lower s <> "down" -> lower s <> "left" -> lower s <> "right" ->
   from_string s = UP).
Proof.
  unfold from_string. rewrite lower_idempotent.
  split; [done|].
  repeat split; intros; repeat case_decide; congruence.
Qed.

Lemma from_string_case_insensitive_witness :
  from_string "Left" = LEFT /\ from_string "DOWN" = DOWN /\
  from_string "sideways" = UP.
Proof.
  split; [|split].
  - by apply (from_string_case_insensitive "Left").
  - by apply (from_string_case_insensitive "DOWN").
  - by apply (from_string_case_insensitive "sideways").
Defined.

(** ** Collisions *)

Lemma distance_lt_sym (a b : Pos) (r : Z) : distance_lt a b r = distance_lt b a r.
Proof.
  unfold distance_lt. apply bool_decide_ext.
  replace ((b.1 - a.1) ^ 2) with ((a.1 - b.1) ^ 2) by lia.
  by replace ((b.2 - a.2) ^ 2) with ((a.2 - b.2) ^ 2) by lia.
Qed.

(** The collision test is symmetric in the two positions, and between
    two positions whose coordinates differ by whole cells it holds only
    when the positions are equal: the threshold is smaller than a cell. *)
Theorem collision_on_grid (p : Player.t) (q : Pos) :
  Player.is_collision p q
  = Player.is_collision (Player.goto q p) (Player.pos p) /\
  (forall i j : Z,
      q.1 - (Player.pos p).1 = Config.CELL_SIZE * i ->
      q.2 - (Player.pos p).2 = Config.CELL_SIZE * j ->
      Player.is_collision p q = true <-> Player.pos p = q).
Proof.
  split; [apply distance_lt_sym|].
  intros i j Hi Hj. unfold Player.is_collision, distance_lt.
  rewrite bool_decide_eq_true. unfold Config.CELL_SIZE in *.
  destruct (Player.pos p) as [x y], q as [x' y']. simpl in *.
  replace (x - x') with (- (24 * i)) by lia.
  replace (y - y') with (- (24 * j)) by lia.
  unfold Config.COLLISION_DISTANCE. split.
  - intros H. assert (i = 0) by nia. assert (j = 0) by nia.
    f_equal; lia.
  - intros [= <- <-]. assert (i = 0) by lia. assert (j = 0) by lia.
    subst. done.
Qed.

Lemma collision_on_grid_witness :
  Player.is_collision (Player.goto (24, 0) Player.init) (24, 0) = true <->
  (24, 0) = ((24, 0) : Pos).
Proof.
  apply (proj2 (collision_on_grid (Player.goto (24, 0) Player.init) (24, 0))
           0 0); reflexivity.
Defined.

(** ** Screen positions *)

(** The screen positions of neighbouring layout cells are one step of
    the matching direction apart, and distinct cells have distinct
    positions. *)
Theorem screen_positions_follow_grid (lv : GameLevel.t) (row col : Z) :
  GameLevel.get_screen_position lv row (col + 1)
  = step_from (GameLevel.get_screen_position lv row col) RIGHT /\
  GameLevel.get_screen_position lv row (col - 1)
  = step_from (GameLevel.get_screen_position lv row col) LEFT /\
  GameLevel.get_screen_position lv (row + 1) col
  = step_from (GameLevel.get_screen_position lv row col) DOWN /\
  GameLevel.get_screen_position lv (row - 1) col
  = step_from (GameLevel.get_screen_position lv row col) UP /\
  (forall row' col',
      GameLevel.get_screen_position lv row col
      = GameLevel.get_screen_position lv row' col' ->
      row = row' /\ col = col').
Proof.
  unfold GameLevel.get_screen_position, step_from, Config.CELL_SIZE.
  cbn [fst snd dx dy value].
  repeat split; try (f_equal; lia).
  all: intros; simplify_eq; lia.
Qed.

(** ** Enemy ticks *)

(** A tick leaves the enemy where it is, or moves it by one step of its
    new heading to a position that is in neither obstacle set; apart from
    position and heading nothing of the enemy changes. *)
Theorem enemy_tick_one_step
    (st : store) (player : Player.t) (k : nat) (e : Enemy.t) :
  let e' := Enemy.move st player k e in
  (Enemy.pos e' = Enemy.pos e
   \/ (Enemy.pos e' = step_from (Enemy.pos e) (Enemy.current_direction e')
       /\ (Enemy.pos e' ∉ deref st (Enemy.walls e))
       /\ (Enemy.pos e' ∉ deref st (Enemy.treasures e)))) /\
  Enemy.gold e' = Enemy.gold e /\
  Enemy.walls e' = Enemy.walls e /\
  Enemy.treasures e' = Enemy.treasures e /\
  Enemy.player_ref e' = Enemy.player_ref e /\
  Enemy.is_active e' = Enemy.is_active e.
Proof.
  unfold Enemy.move, Enemy._move_towards_player, Enemy._move_random,
    Enemy._try_move.
  repeat case_match; simpl; repeat split; try (by left);
    match goal with
    | H : _ && _ = true |- _ =>
        apply andb_true_iff in H as [?%bool_decide_eq_true ?%bool_decide_eq_true];
        by right
    end.
Qed.

(** An enemy that is inactive or has no player does nothing on a tick;
    in particular a destroyed enemy stays parked at (2000, 2000). *)
Theorem enemy_inactive_tick
    (st : store) (player : Player.t) (k : nat) (e : Enemy.t) :
  (Enemy.is_active e = false \/ Enemy.player_ref e = false ->
   Enemy.move st player k e = e) /\
  Enemy.move st player k (Enemy.destroy e) = Enemy.destroy e /\
  Enemy.pos (Enemy.destroy e) = (2000, 2000) /\
  Enemy.is_active (Enemy.destroy e) = false.
Proof.
  split; [|split; [|done]].
  - unfold Enemy.move. intros [-> | ->]; [|done]. by rewrite orb_true_r.
  - unfold Enemy.move. simpl. by rewrite orb_true_r.
Qed.

Lemma enemy_inactive_tick_witness :
  let e := Enemy.mk (24, 0) 25 LEFT 0%nat 1%nat true false in
  Enemy.move ∅ Player.init 3 e = e.
Proof.
  intros e. apply (proj1 (enemy_inactive_tick ∅ Player.init 3 e)).
  by left.
Defined.

(** Out of the detection radius the player has no influence on the tick:
    the enemy goes on in its heading, and only an obstacle changes it. *)
Theorem enemy_out_of_range_ignores_player
    (st : store) (player player' : Player.t) (k : nat) (e : Enemy.t) :
  Enemy._is_close_to_player player e = false ->
  Enemy._is_close_to_player player' e = false ->
  Enemy.move st player k e = Enemy.move st player' k e /\
  (Enemy.player_ref e = true -> Enemy.is_active e = true ->
   step_from (Enemy.pos e) (Enemy.current_direction e)
     ∉ deref st (Enemy.walls e) ->
   step_from (Enemy.pos e) (Enemy.current_direction e)
     ∉ deref st (Enemy.treasures e) ->
   Enemy.move st player k e
   = Enemy.goto (step_from (Enemy.pos e) (Enemy.current_direction e)) e).
Proof.
  intros Hc Hc'. unfold Enemy.move. rewrite Hc, Hc'. split; [done|].
  intros -> -> Hw Ht. simpl. by apply try_move_free.
Qed.

Lemma enemy_out_of_range_ignores_player_witness :
  let e := Enemy.mk (240, 0) 25 UP 0%nat 1%nat true true in
  Enemy.move ∅ Player.init 1 e
  = Enemy.move ∅ (Player.goto (0, 24) Player.init) 1 e.
Proof.
  intros e.
  apply (proj1 (enemy_out_of_range_ignores_player ∅ Player.init
                  (Player.goto (0, 24) Player.init) 1 e eq_refl eq_refl)).
Defined.

(** ** The score display *)

(** After any series of updates the high score is the largest of the
    high score before and the scores shown, and the current score is the
    last one shown. *)
Theorem high_score_is_maximum (scores : list Z) (sd : ScoreDisplay.t) :
  let sd' := foldl (fun d s => ScoreDisplay.update s d) sd scores in
  ScoreDisplay.high_score sd <= ScoreDisplay.high_score sd' /\
  Forall (fun s => s <= ScoreDisplay.high_score sd') scores /\
  (ScoreDisplay.high_score sd' = ScoreDisplay.high_score sd
   \/ ScoreDisplay.high_score sd' ∈ scores) /\
  ScoreDisplay.current_score sd'
  = default (ScoreDisplay.current_score sd) (last scores).
Proof.
  induction scores as [|s scores IH] using rev_ind; simpl.
  { repeat split; [lia|constructor|by left]. }
  rewrite foldl_app, last_snoc. simpl.
  destruct IH as (H1 & H2 & H3 & _).
  set (d := foldl _ sd scores) in *.
  destruct (Z.ltb_spec (ScoreDisplay.high_score d) s).
  - split; [lia|]. split; [|split; [|done]].
    + apply Forall_app. split; [|by apply Forall_singleton].
      eapply Forall_impl; [exact H2|]. simpl. intros; lia.
    + right. apply elem_of_app. right. by apply list_elem_of_singleton.
  - split; [lia|]. split; [|split; [|done]].
    + apply Forall_app. split; [done|]. by apply Forall_singleton.
    + destruct H3 as [H3|H3]; [by left|].
      right. apply elem_of_app. by left.
Qed.

(** ** Editor sessions *)

Section editor_sessions.
Import LevelEditor.
Implicit Types (ed : LevelEditor.t) (sel : string) (pixel : Z * Z).

Lemma tile_occupied_false pixel ed :
  tile_occupied pixel ed = false ->
  pixel ∉ ((fun '(_, px, py) => (px, py)) <$> placed_items ed).
Proof.
  unfold tile_occupied. induction (placed_items ed) as [|[[ty px] py] l IH];
    simpl; [intros _; apply not_elem_of_nil|].
  intros [Hhd Htl]%orb_false_iff. apply not_elem_of_cons. split; [|by apply IH].
  intros ->. simpl in Hhd. by rewrite !Z.eqb_refl in Hhd.
Qed.

Lemma has_item_false sel ed :
  has_item sel ed = false ->
  filter (fun it => it.1.1 = sel) (placed_items ed) = [].
Proof.
  unfold has_item. induction (placed_items ed) as [|[[ty px] py] l IH];
    simpl; [done|].
  intros [Hhd Htl]%orb_false_iff. apply bool_decide_eq_false in Hhd.
  rewrite filter_cons_False by done. by apply IH.
Qed.

Lemma filter_type_snoc sel (l : list (string * Z * Z)) it :
  length (filter (fun i => i.1.1 = sel) (l ++ [it]))
  = (length (filter (fun i => i.1.1 = sel) l)
     + if decide (it.1.1 = sel) then 1 else 0)%nat.
Proof.
  rewrite filter_app, length_app. f_equal.
  destruct (decide (it.1.1 = sel)).
  - by rewrite filter_cons_True.
  - by rewrite filter_cons_False.
Qed.

Lemma well_placed_try_place sel cell ed :
  click_in_bounds cell = true -> well_placed ed ->
  well_placed (try_place sel (cell_to_pixel cell.1 cell.2) ed).2.
Proof.
  intros Hb Hwp. unfold try_place.
  destruct (tile_occupied _ ed) eqn:Hocc; [exact Hwp|].
  destruct (bool_decide (sel = "s") && has_item "s" ed) eqn:Hss; [exact Hwp|].
  destruct (bool_decide (sel = "f") && has_item "f" ed) eqn:Hff; [exact Hwp|].
  destruct (bool_decide_reflect (sel ∈ palette_keys)) as [Hpal|Hpal];
    [|exact Hwp].
  destruct Hwp as (Hall & Hnd & Hs & Hf).
  unfold well_placed. simpl. split; [|split; [|split]].
  - apply Forall_app. split; [done|]. apply Forall_singleton.
    split; [done|]. exists cell.1, cell.2. by destruct cell.
  - rewrite fmap_app. apply NoDup_app. split; [done|]. split.
    + intros p Hp [->|[]%elem_of_nil]%elem_of_cons.
      by apply tile_occupied_false in Hocc.
    + apply NoDup_singleton.
  - rewrite filter_type_snoc. simpl. destruct (decide (sel = "s")) as [->|];
      [|lia].
    rewrite bool_decide_true in Hss by done. simpl in Hss.
    rewrite (has_item_false _ _ Hss). simpl. lia.
  - rewrite filter_type_snoc. simpl. destruct (decide (sel = "f")) as [->|];
      [|lia].
    rewrite bool_decide_true in Hff by done. simpl in Hff.
    rewrite (has_item_false _ _ Hff). simpl. lia.
Qed.

Lemma well_placed_empty (o : option string) :
  well_placed (LevelEditor.mk o []).
Proof.
  unfold well_placed. simpl.
  split; [constructor|]. split; [constructor|]. split; lia.
Qed.

Lemma well_placed_handle_click x y ed :
  well_placed ed -> well_placed (handle_click x y ed).2.
Proof.
  intros Hwp.
  destruct (handle_click_placed x y ed) as [Hk|[[_ Hc]|(sel & Hs & Hb & ->)]].
  - destruct Hwp as (? & ? & ? & ?). unfold well_placed. by rewrite Hk.
  - destruct (handle_click x y ed).2 as [sel l]. simpl in Hc. subst l.
    apply well_placed_empty.
  - by apply well_placed_try_place.
Qed.

End editor_sessions.

(** Whatever is clicked, the editor never holds two items on one pixel,
    two starts or two ends, an item off the cells the click guard admits,
    or an item that is not at the canonical pixel of its cell. *)
Theorem editor_session_well_placed
    (clicks : list (Z * Z)) (ed : LevelEditor.t) :
  well_placed LevelEditor.init /\
  (well_placed ed -> well_placed (run_clicks clicks ed)).
Proof.
  split; [apply well_placed_empty|].
  unfold run_clicks. revert ed.
  induction clicks as [|[x y] clicks IH]; intros ed Hwp; [done|].
  simpl. by apply IH, well_placed_handle_click.
Qed.

Lemma editor_session_well_placed_witness :
  well_placed
    (run_clicks [(-600, 0); (50, 50); (50, 60); (-600, 300); (48, 40)]
       LevelEditor.init).
Proof.
  apply (proj2 (editor_session_well_placed
                  [(-600, 0); (50, 50); (50, 60); (-600, 300); (48, 40)]
                  LevelEditor.init)).
  apply well_placed_empty.
Defined.

Lemma screen_positions_follow_grid_witness :
  let lv := (GameLevel.init ["XXX"; "XPX"; "XFX"] [] ∅).1 in
  (1 : Z) = 1 /\ (2 : Z) = 2.
Proof.
  intros lv.
  exact (proj2 (proj2 (proj2 (proj2 (screen_positions_follow_grid lv 1 2))))
           1 2 eq_refl).
Defined.

(** ** Rounds of the play loop *)

Section rounds.
Import Game.
Implicit Types (g : Game.t) (tr : Treasure.t).

(** [frame] in terms of the state reached after collection. *)
Lemma frame_unfold g :
  frame g =
    if return_to_menu g then (Some false, _cleanup_level g)
    else if create_mode g then (Some false, _cleanup_level g)
    else
      let g2 := after_collection g in
      if existsb (fun e => Player.is_collision (player g2) (Enemy.pos e))
           (GameLevel.enemies (level g2))
      then (Some false,
            _cleanup_level (set_player (Player.destroy (player g2)) g2))
      else
        match GameLevel.end_pos (level g2) with
        | Some ep =>
            if Player.is_collision (player g2) ep then
              (Some true,
               _cleanup_level
                 (set_player (Player.reverse_replay (player g2)) g2))
            else if create_mode g2 then (Some false, _cleanup_level g2)
            else (None, g2)
        | None =>
            if create_mode g2 then (Some false, _cleanup_level g2)
            else (None, g2)
        end.
Proof. reflexivity. Qed.

Lemma foldl_collect_one_keeps {A} (f : Game.t -> A) l g :
  (forall g1 tr, f (collect_one g1 tr) = f g1) ->
  f (foldl collect_one g l) = f g.
Proof.
  intros Hf. revert g. induction l as [|tr l IH]; intros g; [done|].
  simpl. by rewrite IH.
Qed.

(** The collection loop changes the gold of the player and nothing else
    of it. *)
Lemma collect_loop_player l g :
  Player.pos (player (foldl collect_one g l)) = Player.pos (player g) /\
  Player.move_history (player (foldl collect_one g l))
  = Player.move_history (player g) /\
  Player.is_auto_mode (player (foldl collect_one g l))
  = Player.is_auto_mode (player g) /\
  Player.is_reverse_mode (player (foldl collect_one g l))
  = Player.is_reverse_mode (player g).
Proof.
  repeat split;
    apply (foldl_collect_one_keeps (fun g1 => _ (player g1)));
    intros g1 tr; unfold collect_one; by destruct (Player.is_collision _ _).
Qed.

Lemma collect_loop_gold l g :
  Player.gold (player (foldl collect_one g l))
  = Player.gold (player g) + gold_in_reach (Player.pos (player g)) l.
Proof.
  revert g. induction l as [|tr l IH]; intros g.
  { unfold gold_in_reach. simpl. lia. }
  change (foldl collect_one g (tr :: l))
    with (foldl collect_one (collect_one g tr) l).
  rewrite IH. unfold collect_one, Player.is_collision, gold_in_reach.
  destruct (distance_lt (Player.pos (player g)) (Treasure.pos tr)
              Config.COLLISION_DISTANCE) eqn:Hd; simpl.
  - rewrite filter_cons_True by (unfold out_of_reach; congruence).
    rewrite fmap_cons. simpl. lia.
  - rewrite filter_cons_False; [done|].
    unfold out_of_reach. intros H. by apply H.
Qed.

Lemma collect_nothing_in_reach l g :
  Forall (out_of_reach (Player.pos (player g))) l ->
  foldl collect_one g l = g.
Proof.
  induction 1 as [|tr l Htr _ IH]; [done|].
  simpl. unfold collect_one at 2, Player.is_collision.
  unfold out_of_reach in Htr. by rewrite Htr.
Qed.

Lemma move_false_inv d walls (p p' : Player.t) :
  Player.move d walls p = (false, p') -> p' = p.
Proof. unfold Player.move. case_match; congruence. Qed.

Lemma same_level_more (lv lv' : GameLevel.t) :
  GameLevel.set_treasures [] lv' = GameLevel.set_treasures [] lv ->
  GameLevel.player_spawn lv' = GameLevel.player_spawn lv /\
  GameLevel.end_pos lv' = GameLevel.end_pos lv /\
  GameLevel.start_pos lv' = GameLevel.start_pos lv /\
  GameLevel.auto_solution lv' = GameLevel.auto_solution lv.
Proof. destruct lv, lv'. unfold GameLevel.set_treasures. simpl. by intros [=]. Qed.

(** The state after collection keeps the way back of the history. *)
Lemma after_collection_history origin g :
  history_leads_to origin g -> history_leads_to origin (after_collection g).
Proof.
  intros [Hpath Hsp]. unfold after_collection.
  set (g1 := if auto_mode g then _ else g).
  assert (history_leads_to origin g1) as [Hpath1 Hsp1].
  { unfold g1. destruct (auto_mode g); [|done].
    destruct (run_auto_mode_keeps g) as (_ & A2 & _).
    simpl. rewrite A2, Hsp. split; [done|]. simpl. by rewrite A2. }
  destruct (collect_loop_player (GameLevel.treasures (level g1)) g1)
    as (P1 & P2 & _).
  destruct (collect_loop_keeps (GameLevel.treasures (level g1)) g1)
    as (_ & K2 & _).
  apply same_level_more in K2 as (K2 & _).
  unfold history_leads_to, collect_treasures. by rewrite P1, P2, K2.
Qed.

Lemma play_step_history origin g g' :
  play_step g g' -> history_leads_to origin g -> history_leads_to origin g'.
Proof.
  intros [d g1|i k g1|x y g1|g1 g2 Hf] [Hpath Hsp].
  - split; [|done]. unfold key_press. simpl.
    destruct (Player.move d _ (player g1)) as [[] p'] eqn:Hm; simpl.
    + apply move_true_inv in Hm as [_ ->]. simpl.
      rewrite reverse_app. simpl. by rewrite step_from_opposite.
    + by apply move_false_inv in Hm as ->.
  - done.
  - unfold handle_button_click. repeat case_match; by split.
  - pose proof (after_collection_history origin g1 (conj Hpath Hsp)) as Ha.
    rewrite frame_unfold in Hf. cbv zeta in Hf.
    repeat case_match; congruence.
Qed.

End rounds.

(** The collection loop adds to the player's gold the gold of the
    treasures it collides with and changes nothing else of the player;
    with distinct treasure objects, a second collection right after the
    first changes nothing. *)
Theorem collection_accounts_gold (g : Game.t) :
  let g' := Game.collect_treasures g in
  Player.gold (Game.player g')
  = Player.gold (Game.player g)
    + Game.gold_in_reach (Player.pos (Game.player g))
        (GameLevel.treasures (Game.level g)) /\
  Player.pos (Game.player g') = Player.pos (Game.player g) /\
  Player.move_history (Game.player g') = Player.move_history (Game.player g) /\
  (NoDup (Treasure.oid <$> GameLevel.treasures (Game.level g)) ->
   Game.collect_treasures g' = g').
Proof.
  intros g'. unfold g', Game.collect_treasures at 1 2 3.
  destruct (collect_loop_player (GameLevel.treasures (Game.level g)) g)
    as (P1 & P2 & _).
  split; [apply collect_loop_gold|]. split; [done|]. split; [done|].
  intros Hnd. destruct (collect_treasures_spec g Hnd) as (C1 & _).
  unfold Game.collect_treasures at 1. apply collect_nothing_in_reach.
  rewrite C1. fold (Game.collect_treasures g). unfold Game.collect_treasures at 1.
  rewrite P1. apply Forall_forall. by intros tr [? _]%list_elem_of_filter.
Qed.

Lemma collection_accounts_gold_witness :
  let lv := (GameLevel.init ["XXXXX"; "XPTEX"; "XXXXX"] [] ∅).1 in
  let g0 := Game.mk ∅ Player.init lv 0 false false false in
  let g := Game.key_press RIGHT (Game.setup_level (fun _ => 2%nat) lv g0) in
  Player.gold (Game.player (Game.collect_treasures g)) = 100 /\
  Game.collect_treasures (Game.collect_treasures g) = Game.collect_treasures g.
Proof.
  intros lv g0 g.
  destruct (collection_accounts_gold g) as (Hgold & _ & _ & Hidem).
  split; [by rewrite Hgold|].
  apply Hidem. vm_compute. apply NoDup_singleton.
Defined.

Lemma replay_reverse_mode ds (p : Player.t) :
  Player.is_reverse_mode (Player.replay ds p) = Player.is_reverse_mode p.
Proof.
  revert p. induction ds as [|d ds IH]; intros p; [done|].
  simpl. by rewrite IH.
Qed.

(** From a state whose player has an empty history and stands on the
    recorded spawn, whatever happens during play, a round that reports
    victory ends with the player back on that spawn, in reverse mode, and
    with the live enemy and treasure lists empty. *)
Theorem victory_returns_to_spawn (g1 g g' : Game.t) :
  Player.move_history (Game.player g1) = [] ->
  GameLevel.player_spawn (Game.level g1) = Some (Player.pos (Game.player g1)) ->
  rtc Game.play_step g1 g ->
  Game.frame g = (Some true, g') ->
  Player.pos (Game.player g') = Player.pos (Game.player g1) /\
  Player.is_reverse_mode (Game.player g') = true /\
  GameLevel.enemies (Game.level g') = [] /\
  GameLevel.treasures (Game.level g') = [].
Proof.
  intros Hh Hsp Hplay Hf.
  assert (Game.history_leads_to (Player.pos (Game.player g1)) g) as Hg.
  { clear Hf. revert g Hplay.
    apply (rtc_ind_r
             (fun z => Game.history_leads_to (Player.pos (Game.player g1)) z)).
    - split; [by rewrite Hh|done].
    - intros ga gb _ Hstep IH. by eapply play_step_history. }
  apply after_collection_history in Hg as [Hpath _].
  rewrite frame_unfold in Hf. cbv zeta in Hf.
  assert (g' = Game._cleanup_level
                 (Game.set_player
                    (Player.reverse_replay
                       (Game.player (Game.after_collection g)))
                    (Game.after_collection g))) as ->.
  { repeat case_match; congruence. }
  simpl. split; [|split; [|done]].
  - unfold Player.reverse_replay. rewrite pos_replay. simpl. exact Hpath.
  - unfold Player.reverse_replay. by rewrite replay_reverse_mode.
Qed.

Lemma victory_returns_to_spawn_witness :
  let lv := (GameLevel.init ["XXX"; "XPX"; "XFX"] [] ∅).1 in
  let g0 := Game.mk ∅ Player.init lv 0 false false false in
  let g1 := Game.setup_level (fun _ => 0%nat) lv g0 in
  let g := Game.key_press DOWN g1 in
  Player.pos (Game.player (Game.frame g).2) = (-24, 24).
Proof.
  intros lv g0 g1 g.
  apply (victory_returns_to_spawn g1 g (Game.frame g).2);
    [reflexivity | reflexivity | apply rtc_once; constructor | reflexivity].
Defined.

(** A round of the play loop that returns has emptied the live enemy and
    treasure lists; the Menu and Create flags end the level before
    anything else; an enemy touching the player after collection ends the
    level in failure even on the end cell; and victory is reported only
    when no enemy touches the player and the player is on the end cell. *)
Theorem round_outcomes (g : Game.t) :
  (forall b g', Game.frame g = (Some b, g') ->
     GameLevel.enemies (Game.level g') = [] /\
     GameLevel.treasures (Game.level g') = []) /\
  (Game.return_to_menu g = true \/ Game.create_mode g = true ->
   Game.frame g = (Some false, Game._cleanup_level g)) /\
  (Game.return_to_menu g = false -> Game.create_mode g = false ->
   existsb (fun e => Player.is_collision
                       (Game.player (Game.after_collection g)) (Enemy.pos e))
     (GameLevel.enemies (Game.level (Game.after_collection g))) = true ->
   (Game.frame g).1 = Some false) /\
  (forall g', Game.frame g = (Some true, g') ->
     existsb (fun e => Player.is_collision
                         (Game.player (Game.after_collection g)) (Enemy.pos e))
       (GameLevel.enemies (Game.level (Game.after_collection g))) = false /\
     exists ep,
       GameLevel.end_pos (Game.level (Game.after_collection g)) = Some ep /\
       Player.is_collision (Game.player (Game.after_collection g)) ep = true).
Proof.
  rewrite frame_unfold. cbv zeta. split; [|split; [|split]].
  - intros b g' Hf. repeat case_match; by simplify_eq.
  - intros [-> | ->]; [done|]. by destruct (Game.return_to_menu g).
  - by intros -> -> ->.
  - intros g' Hf. repeat case_match; simplify_eq. eauto.
Qed.

Lemma round_outcomes_witness :
  let lv := (GameLevel.init ["XXXX"; "XPEX"; "XXFX"] [] ∅).1 in
  let g0 := Game.mk ∅ Player.init lv 0 false false false in
  let g := Game.key_press RIGHT (Game.setup_level (fun _ => 0%nat) lv g0) in
  (Game.frame g).1 = Some false.
Proof.
  intros lv g0 g.
  apply (proj1 (proj2 (proj2 (round_outcomes g)))); reflexivity.
Defined.

(** ** The maze loader *)

Section loops_with_lookup.
Context {A S : Type} (step : nat -> A -> S -> S).

(** An invariant kept by every round, which may use that its element is
    the one at its index. *)
Lemma foldl_enumerate_inv_lookup (Inv : S -> Prop) (l : list A) :
  (forall i x s, l !! i = Some x -> Inv s -> Inv (step i x s)) ->
  forall s, Inv s ->
    Inv (foldl (fun s1 '(i, x) => step i x s1) s (enumerate l)).
Proof.
  induction l as [|y l IH] using rev_ind; intros Hstep s Hs; [done|].
  rewrite foldl_enumerate_snoc. apply Hstep.
  - rewrite lookup_app_r by lia. by rewrite Nat.sub_diag.
  - apply IH; [|done]. intros i x s' Hlk. apply Hstep.
    by apply lookup_app_l_Some.
Qed.

End loops_with_lookup.

Section maze_loader.
Import MazeLoader.

Lemma load_char_inv lines r line c ch s :
  lines !! r = Some line -> list_ascii_of_string line !! c = Some ch ->
  bits s.1.1 /\ marked lines "x" s.1.2 /\ marked lines "X" s.2 ->
  bits (load_char r c ch s).1.1 /\
  marked lines "x" (load_char r c ch s).1.2 /\
  marked lines "X" (load_char r c ch s).2.
Proof.
  intros Hline Hch (Hb & Hs & He). destruct s as [[row sp] ep].
  assert (Hcell : (lines !! r ≫= fun l => list_ascii_of_string l !! c)
                  = Some ch).
  { rewrite Hline. simpl. done. }
  unfold load_char. simpl in *.
  repeat case_decide; simpl; subst; repeat split; try done.
  all: try (apply Forall_app; split; [done|apply Forall_singleton; auto]).
  all: intros rc [= <-]; by exists r, c.
Qed.

Lemma load_char_found r c ch s :
  (ch = "x"%char -> is_Some (load_char r c ch s).1.2) /\
  (ch = "X"%char -> is_Some (load_char r c ch s).2).
Proof.
  destruct s as [[row sp] ep]. unfold load_char.
  split; intros ->; simpl; eauto.
Qed.

Lemma load_char_keeps r c ch s :
  (is_Some s.1.2 -> is_Some (load_char r c ch s).1.2) /\
  (is_Some s.2 -> is_Some (load_char r c ch s).2).
Proof.
  destruct s as [[row sp] ep]. unfold load_char.
  repeat case_decide; simpl; split; eauto.
Qed.

#[global] Instance keeps_found_preorder {X : Type} :
  PreOrder (@keeps_found X).
Proof.
  split.
  - by intros s.
  - intros s1 s2 s3 [H1 H2] [H1' H2']. split; auto.
Qed.

Lemma load_line_inv lines r line (s : loader_state) :
  lines !! r = Some line ->
  Forall (fun row => row <> [] /\ bits row) s.1.1 /\
  marked lines "x" s.1.2 /\ marked lines "X" s.2 ->
  Forall (fun row => row <> [] /\ bits row) (load_line r line s).1.1 /\
  marked lines "x" (load_line r line s).1.2 /\
  marked lines "X" (load_line r line s).2.
Proof.
  intros Hline (Hm & Hs & He). destruct s as [[maze sp] ep]. simpl in *.
  unfold load_line.
  pose proof (foldl_enumerate_inv_lookup (load_char r)
                (fun s' => bits s'.1.1 /\ marked lines "x" s'.1.2
                           /\ marked lines "X" s'.2)
                (list_ascii_of_string line)) as Hin.
  specialize (Hin (fun c ch s' Hc => load_char_inv lines r line c ch s' Hline Hc)
                ([], sp, ep)).
  destruct Hin as (Hb & Hs' & He'); [by repeat split; try constructor|].
  destruct (foldl _ _ _) as [[row sp'] ep']. simpl in *.
  split; [|done]. destruct row as [|v row]; [done|].
  apply Forall_app. split; [done|]. by apply Forall_singleton.
Qed.

Lemma load_line_found r line (s : loader_state) :
  keeps_found s (load_line r line s) /\
  forall c ch, list_ascii_of_string line !! c = Some ch ->
    (ch = "x"%char -> is_Some (load_line r line s).1.2) /\
    (ch = "X"%char -> is_Some (load_line r line s).2).
Proof.
  destruct s as [[maze sp] ep]. unfold load_line.
  destruct (foldl_enumerate_established (load_char r) keeps_found
              (fun c ch s' =>
                 (ch = "x"%char -> is_Some s'.1.2) /\
                 (ch = "X"%char -> is_Some s'.2)))
    with (l := list_ascii_of_string line) (s := (@nil Z, sp, ep))
    as [Hk Hf].
  - intros. apply load_char_keeps.
  - intros. apply load_char_found.
  - intros c ch s1 s2 [K1 K2] [F1 F2]. split; auto.
  - destruct (foldl _ _ _) as [[row sp'] ep']. simpl in *.
    split; [exact Hk|]. intros c ch Hc. apply (Hf c ch Hc).
Qed.

End maze_loader.

(** The maze [load_from_file] builds holds only rows that are not empty
    and only the values 0 and 1; a recorded start is the (line, character)
    index of an ['x'] of the file and a recorded end that of an ['X'];
    and a start or end is recorded whenever the file has the marker. *)
Theorem maze_loader_records_markers (lines : list string) :
  let s := MazeLoader.load_from_lines lines in
  Forall (fun row => row <> [] /\ Forall (fun v => v = 0 \/ v = 1) row)
    s.1.1 /\
  MazeLoader.marked lines "x" s.1.2 /\
  MazeLoader.marked lines "X" s.2 /\
  ((exists r c, Game.cell_char lines r c = Some "x"%char) -> is_Some s.1.2) /\
  ((exists r c, Game.cell_char lines r c = Some "X"%char) -> is_Some s.2).
Proof.
  intros s. unfold s, MazeLoader.load_from_lines.
  assert (Hinv :
    let s' := foldl (fun s0 '(row_idx, line) =>
                       MazeLoader.load_line row_idx line s0)
                (@nil (list Z), @None (Z * Z), @None (Z * Z))
                (enumerate lines) in
    Forall (fun row => row <> [] /\ MazeLoader.bits row) s'.1.1
    /\ MazeLoader.marked lines "x" s'.1.2
    /\ MazeLoader.marked lines "X" s'.2).
  { apply (foldl_enumerate_inv_lookup MazeLoader.load_line
             (fun s' =>
                Forall (fun row => row <> [] /\ MazeLoader.bits row) s'.1.1
                /\ MazeLoader.marked lines "x" s'.1.2
                /\ MazeLoader.marked lines "X" s'.2) lines).
    - intros. by eapply load_line_inv.
    - split; [apply Forall_nil_2|]. split; by intros rc. }
  destruct Hinv as (H1 & H2 & H3).
  split; [exact H1|]. split; [exact H2|]. split; [exact H3|].
  destruct (foldl_enumerate_established MazeLoader.load_line
              MazeLoader.keeps_found
              (fun r line s' =>
                 forall c ch, list_ascii_of_string line !! c = Some ch ->
                   (ch = "x"%char -> is_Some s'.1.2) /\
                   (ch = "X"%char -> is_Some s'.2)))
    with (l := lines) (s := (@nil (list Z), @None (Z * Z), @None (Z * Z)))
    as [_ Hf].
  - intros r line s0. apply (proj1 (load_line_found r line s0)).
  - intros r line s0 c ch Hc.
    apply (proj2 (load_line_found r line s0) c ch Hc).
  - intros r line s1 s2 [K1 K2] F c ch Hc.
    destruct (F c ch Hc) as [F1 F2]. split; auto.
  - split; intros (r & c & Hcell); unfold Game.cell_char in Hcell;
      destruct (lines !! r) as [line|] eqn:Hline; try done;
      simpl in Hcell; by apply (Hf r line Hline c _ Hcell).
Qed.

Lemma maze_loader_records_markers_witness :
  (MazeLoader.load_from_lines ["#x#"; ""; "#.X"]).1.2 = Some (0, 1) /\
  is_Some (MazeLoader.load_from_lines ["#x#"; ""; "#.X"]).2.
Proof.
  split; [reflexivity|].
  apply (maze_loader_records_markers ["#x#"; ""; "#.X"]).
  by exists 2%nat, 2%nat.
Defined.

(** ** Export of placed items *)

Section export_items.
Import LevelEditor.
Implicit Types (it : string * Z * Z) (s : export_state).

Lemma in_grid_range_in_grid (cell : Z * Z) :
  in_grid_range cell = true <-> in_grid (grid_row cell) (grid_col cell).
Proof.
  unfold in_grid_range, in_grid.
  rewrite !andb_true_iff, !Z.leb_le, !Z.ltb_lt. tauto.
Qed.

Lemma export_item_skipped it s : ~ item_written it -> export_item it s = s.
Proof.
  destruct it as [[ty px] py], s as [[layout sp] ep].
  unfold item_written, layout_symbol, export_item. simpl. intros Hn.
  destruct (in_grid_range _); [|done].
  repeat (case_decide; [exfalso; apply Hn; by eauto|]). done.
Qed.

Lemma export_item_layout it s :
  item_written it ->
  (export_item it s).1.1
  = set_cell (item_cell it).1 (item_cell it).2
      (default "."%char (layout_symbol it.1.1)) s.1.1.
Proof.
  destruct it as [[ty px] py], s as [[layout sp] ep].
  unfold item_written, layout_symbol, export_item, item_cell. simpl.
  intros [-> Hsym]. repeat (case_decide; [done|]). by destruct Hsym.
Qed.

Lemma layout_symbol_not_floor ty ch :
  layout_symbol ty = Some ch -> ch <> "."%char /\ ch <> "P"%char.
Proof.
  unfold layout_symbol. repeat case_decide; intros [= <-]; done.
Qed.

Lemma item_written_in_grid it :
  item_written it -> in_grid (item_cell it).1 (item_cell it).2.
Proof. intros [Hin _]. by apply in_grid_range_in_grid. Qed.

Lemma item_written_symbol it :
  item_written it ->
  default "."%char (layout_symbol it.1.1) <> "."%char /\
  default "."%char (layout_symbol it.1.1) <> "P"%char.
Proof.
  intros [_ [ch Hch]]. rewrite Hch. simpl.
  by apply (layout_symbol_not_floor it.1.1).
Qed.

(** One round of the placement loop, cell by cell. *)
Lemma get_export_item it s row col :
  grid_shape s.1.1 -> 0 <= row -> 0 <= col ->
  get_cell (export_item it s).1.1 row col
  = get_cell s.1.1 row col
  \/ (item_written it /\ (row, col) = item_cell it /\
      get_cell (export_item it s).1.1 row col
      = default "."%char (layout_symbol it.1.1)).
Proof.
  intros Hs Hr Hc. destruct (decide (item_written it)) as [Hw|Hn].
  2:{ left. by rewrite export_item_skipped. }
  rewrite export_item_layout by done.
  rewrite get_set_cell by (try done; by apply item_written_in_grid).
  case_decide as Hrc; [right|by left].
  split; [done|]. split; [|done]. destruct (item_cell it). simpl in *.
  by destruct Hrc as [-> ->].
Qed.

(** The recorded start and end are cells of items of the loop. *)
Lemma export_item_recorded it s rc :
  ((export_item it s).1.2 = Some rc ->
   s.1.2 = Some rc \/ (item_written it /\ rc = item_cell it)) /\
  ((export_item it s).2 = Some rc ->
   s.2 = Some rc \/ (item_written it /\ rc = item_cell it)).
Proof.
  destruct (decide (item_written it)) as [Hw|Hn].
  2:{ rewrite export_item_skipped by done. split; by left. }
  destruct it as [[ty px] py], s as [[layout sp] ep].
  destruct Hw as [Hin Hsym]. unfold export_item, item_cell in *.
  simpl in *. rewrite Hin.
  repeat case_decide; simpl; split; intros Heq; try (by left);
    right; (split; [by split|]); congruence.
Qed.

(** What the placement loop keeps: the grid has its shape, and a recorded
    start or end is a cell of the grid that does not hold floor. *)
Lemma export_item_inv it s :
  (grid_shape s.1.1 /\
   forall rc, s.1.2 = Some rc \/ s.2 = Some rc ->
     in_grid rc.1 rc.2 /\ get_cell s.1.1 rc.1 rc.2 <> "."%char) ->
  grid_shape (export_item it s).1.1 /\
  forall rc, (export_item it s).1.2 = Some rc \/ (export_item it s).2 = Some rc ->
    in_grid rc.1 rc.2 /\ get_cell (export_item it s).1.1 rc.1 rc.2 <> "."%char.
Proof.
  intros [Hs Hrec]. split; [by apply grid_shape_export_item|].
  intros rc Hrc.
  assert (Hcase : (s.1.2 = Some rc \/ s.2 = Some rc)
                  \/ (item_written it /\ rc = item_cell it)).
  { destruct Hrc as [H|H];
      [apply (proj1 (export_item_recorded it s rc)) in H
      |apply (proj2 (export_item_recorded it s rc)) in H]; tauto. }
  destruct (decide (item_written it)) as [Hw|Hn].
  2:{ rewrite export_item_skipped by done. apply Hrec. tauto. }
  rewrite export_item_layout by done.
  assert (Hin : in_grid rc.1 rc.2).
  { destruct Hcase as [H|[_ ->]]; [by apply Hrec|].
    by apply item_written_in_grid. }
  split; [done|].
  rewrite get_set_cell
    by (try done; try apply Hin; by apply item_written_in_grid).
  case_decide as Hrc'; [by apply item_written_symbol|].
  destruct Hcase as [H|[_ ->]]; [by apply Hrec|]. by destruct Hrc'.
Qed.

Lemma place_all_inv ed :
  grid_shape (place_all ed).1.1 /\
  forall rc, (place_all ed).1.2 = Some rc \/ (place_all ed).2 = Some rc ->
    in_grid rc.1 rc.2 /\ get_cell (place_all ed).1.1 rc.1 rc.2 <> "."%char.
Proof.
  unfold place_all.
  induction (placed_items ed) as [|it l IH] using rev_ind.
  - split; [apply grid_shape_empty|]. by intros rc [|].
  - rewrite foldl_app. simpl. by apply export_item_inv.
Qed.

(** The exemption of the recorded start and end in the perimeter loops
    never applies: a cell the placement loop left as floor is neither. *)
Lemma fillable_floor ed row col :
  fillable (place_all ed).1.2 (place_all ed).2 (place_all ed).1.1 row col
  = bool_decide (get_cell (place_all ed).1.1 row col = "."%char).
Proof.
  unfold fillable. destruct (place_all_inv ed) as [_ Hrec].
  case_bool_decide as Hfloor; [|done]. simpl.
  rewrite !bool_decide_true; [done| |].
  - destruct (place_all ed).2 as [rc|] eqn:He; [right|by left].
    intros [= <-]. destruct (Hrec (row, col)) as [_ []]; by auto.
  - destruct (place_all ed).1.2 as [rc|] eqn:Hs; [right|by left].
    intros [= <-]. destruct (Hrec (row, col)) as [_ []]; by auto.
Qed.

End export_items.

(** In the exported grid every perimeter cell the placement loop left as
    floor holds the wall symbol, whatever start and end were recorded, so
    that no perimeter cell of an exported level is floor; every other cell
    holds what the placement loop left there. *)
Theorem exported_perimeter_closed (ed : LevelEditor.t) (row col : Z) :
  LevelEditor.in_grid row col ->
  LevelEditor.get_cell (LevelEditor.export_grid ed) row col
  = (if LevelEditor.on_perimeter row col
        && bool_decide
             (LevelEditor.get_cell (LevelEditor.place_all ed).1.1 row col
              = "."%char)
     then "X"%char
     else LevelEditor.get_cell (LevelEditor.place_all ed).1.1 row col) /\
  (LevelEditor.on_perimeter row col = true ->
   LevelEditor.get_cell (LevelEditor.export_grid ed) row col <> "."%char).
Proof.
  intros Hin.
  assert (Heq : LevelEditor.get_cell (LevelEditor.export_grid ed) row col
    = (if LevelEditor.on_perimeter row col
          && bool_decide
               (LevelEditor.get_cell (LevelEditor.place_all ed).1.1 row col
                = "."%char)
       then "X"%char
       else LevelEditor.get_cell (LevelEditor.place_all ed).1.1 row col)).
  { rewrite get_export_grid by done. by rewrite fillable_floor. }
  split; [done|]. intros Hp. rewrite Heq, Hp. simpl.
  by case_bool_decide.
Qed.

Lemma exported_perimeter_closed_witness :
  let ed := LevelEditor.mk None [("s", 0, 216); ("f", -264, 216)] in
  LevelEditor.get_cell (LevelEditor.export_grid ed) 19 12 = "S"%char /\
  LevelEditor.get_cell (LevelEditor.export_grid ed) 19 5 <> "."%char.
Proof.
  intros ed. split.
  - rewrite (proj1 (exported_perimeter_closed ed 19 12
                      ltac:(unfold LevelEditor.in_grid, Config.GRID_ROWS,
                              Config.GRID_COLS; lia))).
    reflexivity.
  - apply (exported_perimeter_closed ed 19 5); [|reflexivity].
    unfold LevelEditor.in_grid, Config.GRID_ROWS, Config.GRID_COLS. lia.
Defined.

(** ** Round trip of an editor session through the export *)

Section export_round_trip.
Import LevelEditor.
Implicit Types (it : string * Z * Z) (s : export_state).

(** A cell no item of the loop is written to keeps what it held. *)
Lemma get_place_items_other (l : list (string * Z * Z)) s row col :
  grid_shape s.1.1 -> 0 <= row -> 0 <= col ->
  (forall it, it ∈ l -> item_written it -> item_cell it <> (row, col)) ->
  get_cell (foldl (fun s1 item => export_item item s1) s l).1.1 row col
  = get_cell s.1.1 row col.
Proof.
  intros Hs Hr Hc. revert s Hs.
  induction l as [|it l IH]; intros s Hs Hl; [done|]. simpl.
  rewrite IH.
  - destruct (get_export_item it s row col) as [->|(Hw & Heq & _)];
      try done.
    exfalso. apply (Hl it); [by left|done|done].
  - by apply grid_shape_export_item.
  - intros it' Hit'. apply Hl. by right.
Qed.

(** With no two items on one cell, every written item shows. *)
Lemma get_place_items_at (l : list (string * Z * Z)) s it :
  grid_shape s.1.1 -> NoDup (item_cell <$> l) ->
  it ∈ l -> item_written it ->
  get_cell (foldl (fun s1 item => export_item item s1) s l).1.1
    (item_cell it).1 (item_cell it).2
  = default "."%char (layout_symbol it.1.1).
Proof.
  intros Hs Hnd Hit Hw. revert s Hs.
  induction l as [|it' l IH]; intros s Hs; [by inversion Hit|].
  rewrite fmap_cons in Hnd. apply NoDup_cons in Hnd as [Hnin Hnd].
  simpl. apply elem_of_cons in Hit as [->|Hit].
  - pose proof (item_written_in_grid _ Hw) as Hin.
    rewrite get_place_items_other.
    + rewrite export_item_layout by done.
      rewrite get_set_cell by (try done; apply Hin).
      by rewrite decide_True.
    + by apply grid_shape_export_item.
    + apply Hin.
    + apply Hin.
    + intros it Hit _ Heq. apply Hnin. apply list_elem_of_fmap.
      exists it. split; [by rewrite Heq|done].
  - apply IH; [done|done|]. by apply grid_shape_export_item.
Qed.

(** The items of a session are written, on a cell off the first row and
    off the first and last columns, which determines their pixel. *)
Lemma well_placed_written ed it :
  well_placed ed -> it ∈ placed_items ed ->
  item_written it /\
  1 <= (item_cell it).1 <= 19 /\ 1 <= (item_cell it).2 <= 23 /\
  it.1.2 = 24 * ((item_cell it).2 - 12) /\
  it.2 = 24 * ((item_cell it).1 - 10).
Proof.
  intros (Hall & _) Hit.
  rewrite Forall_forall in Hall. specialize (Hall it Hit).
  destruct it as [[ty px] py]. destruct Hall as (Hty & cx & cy & -> & -> & Hb).
  unfold click_in_bounds, Config.GRID_COLS, Config.GRID_ROWS in Hb.
  simpl in Hb. apply andb_true_iff in Hb as [Hx Hy].
  apply Z.ltb_lt in Hx, Hy.
  change (25 `div` 2) with 12 in Hx. change (20 `div` 2) with 10 in Hy.
  unfold item_written, item_cell, pixel_to_cell, Config.CELL_SIZE.
  cbn [fst snd]. rewrite !py_round_div_exact.
  unfold in_grid_range, grid_row, grid_col, Config.GRID_COLS, Config.GRID_ROWS.
  cbn [fst snd].
  change (25 `div` 2) with 12. change (20 `div` 2) with 10.
  split; [|lia]. split.
  - rewrite !andb_true_iff, !Z.leb_le, !Z.ltb_lt. lia.
  - unfold palette_keys in Hty. unfold layout_symbol.
    repeat (apply elem_of_cons in Hty as [->|Hty]; [by eexists|]).
    by apply elem_of_nil in Hty.
Qed.

Lemma well_placed_distinct_cells ed :
  well_placed ed -> NoDup (item_cell <$> placed_items ed).
Proof.
  intros Hwp. pose proof Hwp as (_ & Hnd & _).
  assert (Hcomp : item_cell <$> placed_items ed
          = (fun p : Z * Z =>
               (grid_row (pixel_to_cell p.1 p.2),
                grid_col (pixel_to_cell p.1 p.2)))
            <$> ((fun '(_, px, py) => (px, py)) <$> placed_items ed)).
  { rewrite <- list_fmap_compose. apply list_fmap_ext.
    by intros _ [[ty px] py] _. }
  rewrite Hcomp. apply NoDup_fmap_2_strong; [|done].
  intros p q Hp Hq Heq.
  apply list_elem_of_fmap in Hp as ([[ty px] py] & -> & Hp).
  apply list_elem_of_fmap in Hq as ([[ty' px'] py'] & -> & Hq).
  destruct (well_placed_written ed _ Hwp Hp) as (_ & _ & _ & H1 & H2).
  destruct (well_placed_written ed _ Hwp Hq) as (_ & _ & _ & H1' & H2').
  unfold item_cell in *. simpl in *.
  injection Heq as Hr Hc. f_equal; congruence.
Qed.

(** A placed item of a session shows at its cell of the export. *)
Lemma export_grid_item ed it :
  well_placed ed -> it ∈ placed_items ed ->
  Some (get_cell (export_grid ed) (item_cell it).1 (item_cell it).2)
  = layout_symbol it.1.1.
Proof.
  intros Hwp Hit.
  destruct (well_placed_written ed it Hwp Hit) as (Hw & Hr & Hc & Hx & Hy).
  pose proof (item_written_in_grid it Hw) as Hin.
  assert (Hat : get_cell (place_all ed).1.1
                  (item_cell it).1 (item_cell it).2
                = default "."%char (layout_symbol it.1.1)).
  { apply get_place_items_at; try done.
    - apply grid_shape_empty.
    - by apply well_placed_distinct_cells. }
  rewrite get_export_grid by done. unfold fillable.
  rewrite Hat.
  rewrite (bool_decide_false (_ = "."%char))
    by (by apply item_written_symbol).
  rewrite andb_false_r. by destruct Hw as [_ [ch ->]].
Qed.

(** A cell without item is wall on the perimeter and floor inside. *)
Lemma export_grid_free ed row col :
  in_grid row col ->
  (forall it, it ∈ placed_items ed -> item_cell it <> (row, col)) ->
  get_cell (export_grid ed) row col
  = if on_perimeter row col then "X"%char else "."%char.
Proof.
  intros Hin Hfree.
  assert (Hfloor : get_cell (place_all ed).1.1 row col = "."%char).
  { unfold place_all. rewrite get_place_items_other.
    - destruct Hin as [Hr Hc]. cbn [fst snd].
      unfold get_cell, empty_grid.
      rewrite lookup_replicate_2 by lia. cbn [mbind option_bind].
      by rewrite lookup_replicate_2 by lia.
    - apply grid_shape_empty.
    - apply Hin.
    - apply Hin.
    - intros it Hit _. by apply Hfree. }
  rewrite get_export_grid, fillable_floor by done.
  rewrite Hfloor. rewrite bool_decide_true by done.
  by rewrite andb_true_r.
Qed.

End export_round_trip.

(** The export of an editor whose items are placed as every session places
    them shows each item, with its layout symbol, on the cell of its
    pixel, which lies off the first row and off the first and last
    columns; every other cell of the grid is wall on the perimeter and
    floor inside. *)
Theorem export_shows_placed_items (ed : LevelEditor.t) :
  well_placed ed ->
  (forall it, it ∈ LevelEditor.placed_items ed ->
     1 <= (item_cell it).1 <= 19 /\ 1 <= (item_cell it).2 <= 23 /\
     it.1.2 = 24 * ((item_cell it).2 - 12) /\
     it.2 = 24 * ((item_cell it).1 - 10) /\
     Some (LevelEditor.get_cell (LevelEditor.export_grid ed)
             (item_cell it).1 (item_cell it).2)
     = layout_symbol it.1.1) /\
  (forall row col,
     LevelEditor.in_grid row col ->
     (forall it, it ∈ LevelEditor.placed_items ed ->
        item_cell it <> (row, col)) ->
     LevelEditor.get_cell (LevelEditor.export_grid ed) row col
     = if LevelEditor.on_perimeter row col then "X"%char else "."%char).
Proof.
  intros Hwp. split.
  - intros it Hit.
    destruct (well_placed_written ed it Hwp Hit) as (Hw & Hr & Hc & Hx & Hy).
    do 4 (split; [done|]). by apply export_grid_item.
  - intros row col Hin Hfree. by apply export_grid_free.
Qed.

Lemma export_shows_placed_items_witness :
  let ed := LevelEditor.mk None [("s", 48, 48); ("m", 0, -216)] in
  LevelEditor.get_cell (LevelEditor.export_grid ed) 12 14 = "S"%char /\
  LevelEditor.get_cell (LevelEditor.export_grid ed) 0 3 = "X"%char.
Proof.
  intros ed.
  assert (Hwp : well_placed ed).
  { unfold well_placed, ed. cbn [LevelEditor.placed_items].
    split; [|split; [|split]].
    - repeat apply Forall_cons_2; [| |apply Forall_nil_2].
      + split; [unfold LevelEditor.palette_keys; set_solver|].
        exists 2, 2. by repeat split.
      + split; [unfold LevelEditor.palette_keys; set_solver|].
        exists 0, (-9). by repeat split.
    - cbn [fmap list_fmap]. apply NoDup_cons. split.
      + intros Hin. apply list_elem_of_singleton in Hin. discriminate Hin.
      + apply NoDup_singleton.
    - apply (bool_decide_unpack _). vm_compute. reflexivity.
    - apply (bool_decide_unpack _). vm_compute. reflexivity. }
  split.
  - destruct (proj1 (export_shows_placed_items ed Hwp) ("s", 48, 48))
      as (_ & _ & _ & _ & H).
    { unfold ed. cbn [LevelEditor.placed_items]. apply list_elem_of_here. }
    assert (Hc : item_cell ("s", 48, 48) = (12, 14))
      by (vm_compute; reflexivity).
    rewrite Hc in H. cbn [fst snd] in H.
    assert (Hl : layout_symbol "s" = Some "S"%char)
      by (vm_compute; reflexivity).
    cbn [fst snd] in H. rewrite Hl in H. congruence.
  - apply (proj2 (export_shows_placed_items ed Hwp) 0 3).
    + unfold LevelEditor.in_grid, Config.GRID_ROWS, Config.GRID_COLS. lia.
    + intros it Hit. unfold ed in Hit. cbn [LevelEditor.placed_items] in Hit.
      apply elem_of_cons in Hit as [->|Hit]; [vm_compute; discriminate|].
      apply list_elem_of_singleton in Hit as ->. vm_compute. discriminate.
Defined.

(** ** Custom levels *)

Section custom_levels.
Import LevelEditor.
Implicit Types (it : string * Z * Z) (grid : list (list ascii)).

Lemma grid_shape_export_grid ed : grid_shape (export_grid ed).
Proof.
  unfold export_grid. pose proof (grid_shape_place_all ed) as Hs.
  destruct (place_all ed) as [[layout sp] ep]. simpl in Hs.
  rewrite fill_perimeter_cells.
  induction perimeter_cells as [|rc l IH] using rev_ind; [done|].
  rewrite foldl_app. simpl. by apply grid_shape_fill_cell.
Qed.

(** Lookups in a grid of the right shape, by index and by cell. *)
Lemma grid_lookup_get_cell grid (r c : nat) ch :
  grid_shape grid ->
  (grid !! r ≫= fun row => row !! c) = Some ch ->
  in_grid (Z.of_nat r) (Z.of_nat c) /\
  get_cell grid (Z.of_nat r) (Z.of_nat c) = ch.
Proof.
  intros [Hlen Hrows] Hlk.
  destruct (grid !! r) as [row|] eqn:Hrow; [|done]. simpl in Hlk.
  pose proof (lookup_lt_Some _ _ _ Hrow) as Hr.
  pose proof (lookup_lt_Some _ _ _ Hlk) as Hc.
  rewrite Forall_forall in Hrows.
  rewrite (Hrows row) in Hc by (by eapply list_elem_of_lookup_2).
  unfold in_grid, get_cell, Config.GRID_ROWS, Config.GRID_COLS in *.
  split; [lia|]. rewrite !Nat2Z.id, Hrow. simpl. by rewrite Hlk.
Qed.

Lemma get_cell_grid_lookup grid row col :
  grid_shape grid -> in_grid row col ->
  (grid !! Z.to_nat row ≫= fun r => r !! Z.to_nat col)
  = Some (get_cell grid row col).
Proof.
  intros [Hlen Hrows] [Hr Hc]. unfold get_cell.
  unfold Config.GRID_ROWS, Config.GRID_COLS in *.
  destruct (lookup_lt_is_Some_2 grid (Z.to_nat row)) as [rw Hrw]; [lia|].
  rewrite Hrw. simpl. rewrite Forall_forall in Hrows.
  destruct (lookup_lt_is_Some_2 rw (Z.to_nat col)) as [ch Hch].
  { rewrite (Hrows rw) by (by eapply list_elem_of_lookup_2). lia. }
  by rewrite Hch.
Qed.

Lemma cell_char_joined grid (r c : nat) :
  Game.cell_char (string_of_list_ascii <$> grid) r c
  = (grid !! r ≫= fun row => row !! c).
Proof.
  unfold Game.cell_char. rewrite list_lookup_fmap.
  destruct (grid !! r) as [row|]; [|done]. simpl.
  by rewrite list_ascii_of_string_of_list_ascii.
Qed.

(** [any(ch in row for row in layout)] finds the cells that hold [ch]. *)
Lemma has_symbol_spec ch (layout : list string) :
  has_symbol ch layout = true <->
  exists r c : nat, Game.cell_char layout r c = Some ch.
Proof.
  unfold has_symbol, Game.cell_char. rewrite existsb_exists. split.
  - intros (row & Hrow & Hex). apply existsb_exists in Hex as (x & Hx & Heq).
    apply Ascii.eqb_eq in Heq. subst x.
    apply list_elem_of_In, list_elem_of_lookup in Hrow as [r Hr].
    apply list_elem_of_In, list_elem_of_lookup in Hx as [c Hc].
    exists r, c. rewrite Hr. by simpl.
  - intros (r & c & Hlk).
    destruct (layout !! r) as [row|] eqn:Hrow; [|done]. simpl in Hlk.
    exists row. split.
    + apply list_elem_of_In. by eapply list_elem_of_lookup_2.
    + apply existsb_exists. exists ch. split; [|by apply Ascii.eqb_eq].
      apply list_elem_of_In. by eapply list_elem_of_lookup_2.
Qed.

Lemma has_item_spec ty ed :
  has_item ty ed = true <-> exists it, it ∈ placed_items ed /\ it.1.1 = ty.
Proof.
  unfold has_item. rewrite existsb_exists. split.
  - intros ([[ty' px] py] & Hin & Heq). apply bool_decide_eq_true in Heq.
    exists (ty', px, py). split; [by apply list_elem_of_In|done].
  - intros ([[ty' px] py] & Hin & Heq). exists (ty', px, py).
    split; [by apply list_elem_of_In|]. by apply bool_decide_eq_true.
Qed.

Lemma layout_symbol_start_end ty :
  (layout_symbol ty = Some "S"%char <-> ty = "s") /\
  (layout_symbol ty = Some "F"%char <-> ty = "f").
Proof.
  unfold layout_symbol.
  split; (split; [repeat case_decide; by intros [=]|by intros ->]).
Qed.

(** In the export of a session a cell holds the start (end) symbol
    exactly when a start (end) item is placed on it. *)
Lemma export_grid_start_end ed row col ty ch :
  well_placed ed -> in_grid row col ->
  ch <> "X"%char -> ch <> "."%char ->
  (forall ty', layout_symbol ty' = Some ch <-> ty' = ty) ->
  get_cell (export_grid ed) row col = ch <->
  exists it, it ∈ placed_items ed /\ it.1.1 = ty /\ item_cell it = (row, col).
Proof.
  intros Hwp Hin HX Hfloor Hsym. split.
  - intros Hch.
    destruct (decide (Exists (fun it => item_cell it = (row, col))
                        (placed_items ed))) as [Hex|Hnex].
    + apply Exists_exists in Hex as (it & Hit & Hcell).
      exists it. split; [done|]. split; [|done].
      pose proof (export_grid_item ed it Hwp Hit) as Hshow.
      rewrite Hcell in Hshow. simpl in Hshow. rewrite Hch in Hshow.
      by apply Hsym.
    + rewrite export_grid_free in Hch; [by destruct (on_perimeter row col)|done|].
      intros it Hit Hcell. apply Hnex, Exists_exists. by exists it.
  - intros (it & Hit & Hty & Hcell).
    pose proof (export_grid_item ed it Hwp Hit) as Hshow.
    rewrite Hcell in Hshow. simpl in Hshow.
    rewrite (proj2 (Hsym it.1.1) Hty) in Hshow. by injection Hshow.
Qed.

Lemma has_symbol_export ed ty ch :
  well_placed ed -> ch <> "X"%char -> ch <> "."%char ->
  (forall ty', layout_symbol ty' = Some ch <-> ty' = ty) ->
  has_symbol ch (get_custom_level_layout ed) = has_item ty ed.
Proof.
  intros Hwp HX Hfloor Hsym. apply eq_true_iff_eq.
  rewrite has_symbol_spec, has_item_spec.
  unfold get_custom_level_layout.
  pose proof (grid_shape_export_grid ed) as Hs. split.
  - intros (r & c & Hlk). rewrite cell_char_joined in Hlk.
    apply grid_lookup_get_cell in Hlk as [Hin Hch]; [|done].
    apply (export_grid_start_end ed _ _ ty) in Hch; try done.
    destruct Hch as (it & Hit & Hty & _). by exists it.
  - intros (it & Hit & Hty).
    destruct (well_placed_written ed it Hwp Hit) as (Hw & _).
    pose proof (item_written_in_grid it Hw) as Hin.
    exists (Z.to_nat (item_cell it).1), (Z.to_nat (item_cell it).2).
    rewrite cell_char_joined, get_cell_grid_lookup by done. f_equal.
    apply (export_grid_start_end ed _ _ ty); try done.
    exists it. split; [done|]. split; [done|]. by destruct (item_cell it).
Qed.

End custom_levels.

(** [_play_custom_level] finds a start (an end) in the layout exported
    from an editor session exactly when a start (an end) item is placed,
    so the level is played exactly when the session placed both. *)
Theorem custom_level_needs_start_and_end (ed : LevelEditor.t) :
  well_placed ed ->
  has_symbol "S" (LevelEditor.get_custom_level_layout ed)
  = LevelEditor.has_item "s" ed /\
  has_symbol "F" (LevelEditor.get_custom_level_layout ed)
  = LevelEditor.has_item "f" ed /\
  custom_level_playable ed
  = LevelEditor.has_item "s" ed && LevelEditor.has_item "f" ed.
Proof.
  intros Hwp.
  assert (HS : has_symbol "S" (LevelEditor.get_custom_level_layout ed)
               = LevelEditor.has_item "s" ed).
  { apply has_symbol_export; try done.
    intros ty. apply layout_symbol_start_end. }
  assert (HF : has_symbol "F" (LevelEditor.get_custom_level_layout ed)
               = LevelEditor.has_item "f" ed).
  { apply has_symbol_export; try done.
    intros ty. apply layout_symbol_start_end. }
  split; [done|]. split; [done|].
  unfold custom_level_playable. cbv zeta. by rewrite HS, HF.
Qed.

Lemma custom_level_needs_start_and_end_witness :
  let ed := LevelEditor.mk None [("s", 48, 48); ("f", -48, 0)] in
  well_placed ed /\ custom_level_playable ed = true.
Proof.
  intros ed.
  assert (Hwp : well_placed ed).
  { unfold well_placed, ed. cbn [LevelEditor.placed_items].
    split; [|split; [|split]].
    - repeat apply Forall_cons_2; [| |apply Forall_nil_2].
      + split; [unfold LevelEditor.palette_keys; set_solver|].
        exists 2, 2. by repeat split.
      + split; [unfold LevelEditor.palette_keys; set_solver|].
        exists (-2), 0. by repeat split.
    - cbn [fmap list_fmap]. apply NoDup_cons. split.
      + intros Hin. apply list_elem_of_singleton in Hin. discriminate Hin.
      + apply NoDup_singleton.
    - apply (bool_decide_unpack _). vm_compute. reflexivity.
    - apply (bool_decide_unpack _). vm_compute. reflexivity. }
  split; [exact Hwp|].
  rewrite (proj2 (proj2 (custom_level_needs_start_and_end ed Hwp))).
  reflexivity.
Defined.

(** ** From the editor to the played level *)

Section editor_to_level.
Import LevelEditor.
Implicit Types (it : string * Z * Z) (s : export_state).

Lemma length_joined (l : list ascii) :
  String.length (string_of_list_ascii l) = length l.
Proof. induction l as [|ch l IH]; simpl; congruence. Qed.

(** The screen positions of a level whose layout is an exported grid. *)
Lemma get_screen_position_export ed (lv : GameLevel.t) row col :
  GameLevel.layout lv = get_custom_level_layout ed ->
  GameLevel.get_screen_position lv row col = (24 * col - 288, 240 - 24 * row).
Proof.
  intros Hl. unfold GameLevel.get_screen_position. rewrite Hl.
  unfold get_custom_level_layout.
  destruct (grid_shape_export_grid ed) as [Hlen Hrows].
  destruct (export_grid ed) as [|row0 grid]; [done|].
  apply Forall_cons in Hrows as [Hrow0 _].
  unfold len, str_len. rewrite length_fmap, Hlen. simpl.
  rewrite length_joined, Hrow0.
  unfold Config.CELL_SIZE, Config.GRID_ROWS, Config.GRID_COLS.
  change (py_round_div (Z.of_nat (Z.to_nat 25)) 2) with 12.
  change (py_round_div (Z.of_nat (Z.to_nat 20)) 2) with 10.
  f_equal; lia.
Qed.

(** The placement loop writes layout symbols only. *)
Lemma place_items_cells (P : ascii -> Prop) (l : list (string * Z * Z)) s
    row col :
  (forall ty ch, layout_symbol ty = Some ch -> P ch) ->
  grid_shape s.1.1 -> 0 <= row -> 0 <= col ->
  P (get_cell s.1.1 row col) ->
  P (get_cell (foldl (fun s1 item => export_item item s1) s l).1.1 row col).
Proof.
  intros HP Hs Hr Hc. revert s Hs.
  induction l as [|it l IH]; intros s Hs Hcell; [done|]. simpl.
  apply IH; [by apply grid_shape_export_item|].
  destruct (get_export_item it s row col) as [->|([_ [ch Hch]] & _ & ->)];
    try done.
  rewrite Hch. simpl. by eapply HP.
Qed.

Lemma export_grid_cells (P : ascii -> Prop) ed row col :
  (forall ty ch, layout_symbol ty = Some ch -> P ch) ->
  P "."%char -> in_grid row col ->
  P (get_cell (export_grid ed) row col).
Proof.
  intros HP Hfloor Hin. rewrite get_export_grid by done.
  case_match; [by apply (HP "m")|].
  unfold place_all. apply place_items_cells; try done.
  - apply grid_shape_empty.
  - apply Hin.
  - apply Hin.
  - destruct Hin as [Hr Hc]. cbn [fst snd]. unfold get_cell, empty_grid.
    rewrite lookup_replicate_2 by lia. cbn [mbind option_bind].
    by rewrite lookup_replicate_2 by lia.
Qed.

Lemma export_no_player_mark ed :
  Game.no_player_mark (get_custom_level_layout ed).
Proof.
  unfold Game.no_player_mark, get_custom_level_layout.
  apply Forall_lookup. intros r row Hrow.
  apply Forall_lookup. intros c ch Hch.
  assert (Hlk : Game.cell_char (string_of_list_ascii <$> export_grid ed) r c
                = Some ch).
  { unfold Game.cell_char. rewrite Hrow. by simpl. }
  rewrite cell_char_joined in Hlk.
  apply grid_lookup_get_cell in Hlk as [Hin <-];
    [|apply grid_shape_export_grid].
  apply (export_grid_cells (fun ch => ch <> "P"%char)); try done.
  intros ty ch'. apply layout_symbol_not_floor.
Qed.

End editor_to_level.

(** A level made from the layout of an editor session shows every placed
    item, with its symbol, at the cell whose screen position has the x of
    the item's pixel and the opposite of its y: the played level is the
    editor's picture mirrored top to bottom. *)
Theorem custom_level_mirrors_editor
    (ed : LevelEditor.t) (lv : GameLevel.t) (it : string * Z * Z) :
  well_placed ed ->
  GameLevel.layout lv = LevelEditor.get_custom_level_layout ed ->
  it ∈ LevelEditor.placed_items ed ->
  Game.cell_char (GameLevel.layout lv)
    (Z.to_nat (item_cell it).1) (Z.to_nat (item_cell it).2)
  = layout_symbol it.1.1 /\
  GameLevel.get_screen_position lv (item_cell it).1 (item_cell it).2
  = (it.1.2, - it.2).
Proof.
  intros Hwp Hl Hit.
  destruct (well_placed_written ed it Hwp Hit) as (Hw & Hr & Hc & Hx & Hy).
  split.
  - rewrite Hl. unfold LevelEditor.get_custom_level_layout.
    rewrite cell_char_joined, get_cell_grid_lookup.
    + by apply export_grid_item.
    + apply grid_shape_export_grid.
    + by apply item_written_in_grid.
  - rewrite (get_screen_position_export ed) by done. f_equal; lia.
Qed.

Lemma custom_level_mirrors_editor_witness :
  let ed := LevelEditor.mk None [("s", 48, 48)] in
  let lv := GameLevel.mk (LevelEditor.get_custom_level_layout ed)
              0 [] 1 [] None None None [] in
  GameLevel.get_screen_position lv 12 14 = (48, -48).
Proof.
  intros ed lv.
  assert (Hwp : well_placed ed).
  { unfold well_placed, ed. cbn [LevelEditor.placed_items].
    split; [|split; [|split]].
    - apply Forall_singleton.
      split; [unfold LevelEditor.palette_keys; set_solver|].
      exists 2, 2. by repeat split.
    - cbn [fmap list_fmap]. apply NoDup_singleton.
    - apply (bool_decide_unpack _). vm_compute. reflexivity.
    - apply (bool_decide_unpack _). vm_compute. reflexivity. }
  destruct (custom_level_mirrors_editor ed lv ("s", 48, 48) Hwp eq_refl)
    as [_ H].
  { unfold ed. cbn [LevelEditor.placed_items]. apply list_elem_of_here. }
  assert (Hc : item_cell ("s", 48, 48) = (12, 14))
    by (vm_compute; reflexivity).
  rewrite Hc in H. exact H.
Defined.

(** The layout exported from any editor holds no ['P'], so a custom level
    the game plays (one whose layout shows a start) is set up with the
    player on the recorded spawn, the position of a start cell, which is
    in the level's wall set. *)
Theorem custom_level_spawn_in_wall
    (ed : LevelEditor.t) (draws : nat -> nat) (lv : GameLevel.t)
    (g0 : Game.t) :
  Game.no_player_mark (LevelEditor.get_custom_level_layout ed) /\
  (GameLevel.layout lv = LevelEditor.get_custom_level_layout ed ->
   GameLevel.player_spawn lv = None ->
   custom_level_playable ed = true ->
   let g1 := Game.setup_level draws lv g0 in
   GameLevel.player_spawn (Game.level g1) = Some (Player.pos (Game.player g1))
   /\ Player.pos (Game.player g1)
        ∈ deref (Game.sets g1) (GameLevel.walls (Game.level g1))).
Proof.
  split; [apply export_no_player_mark|].
  intros Hl Hnone Hplay g1.
  unfold custom_level_playable in Hplay. cbv zeta in Hplay.
  apply andb_true_iff in Hplay as [HS _].
  apply has_symbol_spec in HS as (r & c & Hch). rewrite <- Hl in Hch.
  destruct (setup_level_facts draws lv g0)
    as (_ & _ & _ & Hdone & _ & _ & Hspawn).
  destruct (Hdone r c _ Hch) as [[_ [sp Hsp]] _]; [done|].
  specialize (Hspawn Hnone). rewrite Hl in Hspawn.
  specialize (Hspawn (export_no_player_mark ed)).
  unfold Game.spawn_on_wall in Hspawn. fold g1 in Hsp, Hspawn.
  rewrite Hsp in Hspawn. destruct Hspawn as [Hpos Hin].
  rewrite Hsp, Hpos. by split.
Qed.

Lemma custom_level_spawn_in_wall_witness :
  let ed := LevelEditor.mk None [("s", 48, 48); ("f", -48, 0)] in
  let lv := GameLevel.mk (LevelEditor.get_custom_level_layout ed)
              0 [] 1 [] None None None [] in
  let g1 := Game.setup_level (fun _ => 0%nat) lv
              (Game.mk ∅ Player.init lv 0 false false false) in
  Player.pos (Game.player g1)
    ∈ deref (Game.sets g1) (GameLevel.walls (Game.level g1)).
Proof.
  intros ed lv.
  assert (Hplay : custom_level_playable ed = true)
    by (vm_compute; reflexivity).
  pose proof (proj2 (custom_level_spawn_in_wall ed (fun _ => 0%nat) lv
                       (Game.mk ∅ Player.init lv 0 false false false))
                eq_refl eq_refl Hplay) as H.
  cbv zeta in H. intros g1. exact (proj2 H).
Defined.

(** ** Auto-solve mode *)

Section auto_mode.
Import Player.

Lemma replay_fields ds p :
  gold (replay ds p) = gold p /\
  move_history (replay ds p) = move_history p /\
  is_auto_mode (replay ds p) = is_auto_mode p /\
  is_reverse_mode (replay ds p) = is_reverse_mode p.
Proof.
  revert p. induction ds as [|d ds IH]; intros p; [done|].
  simpl. destruct (IH (move_to_direction d p)) as (-> & -> & -> & ->). done.
Qed.

(** A run of unvalidated steps displaces by the sum of the steps. *)
Lemma foldl_step_from (a : Pos) ds :
  foldl step_from a ds
  = (a.1 + foldr Z.add 0 (dx <$> ds), a.2 + foldr Z.add 0 (dy <$> ds)).
Proof.
  revert a. induction ds as [|d ds IH]; intros [x y].
  - simpl. f_equal; lia.
  - rewrite !fmap_cons. cbn [foldl foldr]. rewrite IH.
    unfold step_from. cbn [fst snd]. f_equal; lia.
Qed.

End auto_mode.

(** [run_auto_mode] does nothing for a level without recorded solution.
    Otherwise it takes the player from the recorded spawn (from where it
    stands when none is recorded) through the steps the solution names,
    whatever the walls, an unknown name counting as up; the player ends
    displaced by the sum of the steps, out of auto mode, with its gold
    unchanged and, when a spawn is recorded, with an empty history;
    nothing but the player changes. *)
Theorem auto_mode_follows_solution (g : Game.t) :
  let lv := Game.level g in
  let ds := from_string <$> GameLevel.auto_solution lv in
  let g' := Game.run_auto_mode g in
  (GameLevel.auto_solution lv = [] -> g' = g) /\
  (GameLevel.auto_solution lv <> [] ->
   let start := default (Player.pos (Game.player g))
                  (GameLevel.player_spawn lv) in
   Player.pos (Game.player g')
   = (start.1 + foldr Z.add 0 (dx <$> ds),
      start.2 + foldr Z.add 0 (dy <$> ds)) /\
   Player.is_auto_mode (Game.player g') = false /\
   Player.is_reverse_mode (Game.player g')
   = Player.is_reverse_mode (Game.player g) /\
   Player.gold (Game.player g') = Player.gold (Game.player g) /\
   Player.move_history (Game.player g')
   = match GameLevel.player_spawn lv with
     | Some _ => []
     | None => Player.move_history (Game.player g)
     end /\
   Game.sets g' = Game.sets g /\ Game.level g' = Game.level g).
Proof.
  intros lv ds g'. unfold g', Game.run_auto_mode. fold lv. split.
  - intros Hnil. by rewrite bool_decide_true.
  - intros Hsol. cbv zeta. rewrite bool_decide_false by done. simpl.
    set (p1 := match GameLevel.player_spawn lv with
               | Some sp => _ | None => _ end).
    assert (Hfold :
      foldl (fun p move_str =>
               Player.move_to_direction (from_string move_str) p)
        p1 (GameLevel.auto_solution lv) = Player.replay ds p1).
    { unfold Player.replay, ds. by rewrite foldl_fmap. }
    rewrite Hfold, pos_replay, foldl_step_from.
    destruct (replay_fields ds p1) as (-> & -> & _ & ->).
    unfold p1. by destruct (GameLevel.player_spawn lv).
Qed.

Lemma auto_mode_follows_solution_witness :
  let lv := GameLevel.mk ["XPX"] 0 [] 1 [] None None (Some (0, 24))
              ["right"; "Down"; "jump"] in
  let g := Game.mk ∅ Player.init lv 0 false false false in
  Player.pos (Game.player (Game.run_auto_mode g)) = (24, 24).
Proof.
  intros lv g.
  destruct (proj2 (auto_mode_follows_solution g)) as [H _]; [done|].
  exact H.
Defined.

(** ** Accepted placements *)

(** A click on the grid that passes the checks of [handle_click] (a
    palette symbol is selected, the cell passes the guard, its tile is
    free, and no second start or end is asked for) appends the selected
    symbol at the canonical pixel of the nearest cell, at most half a cell
    away from the click in each coordinate, with no message; after it,
    every click with the same nearest cell is rejected as stacked. *)
Theorem accepted_click_snaps
    (x y : Z) (ed : LevelEditor.t) (sel : string) :
  LevelEditor.selected_item ed = Some sel ->
  sel ∈ LevelEditor.palette_keys ->
  let cell := LevelEditor.pixel_to_cell x y in
  let pixel := LevelEditor.cell_to_pixel cell.1 cell.2 in
  LevelEditor.click_in_bounds cell = true ->
  LevelEditor.tile_occupied pixel ed = false ->
  (sel = "s" -> LevelEditor.has_item "s" ed = false) ->
  (sel = "f" -> LevelEditor.has_item "f" ed = false) ->
  let ed' :=
    LevelEditor.set_placed
      (LevelEditor.placed_items ed ++ [(sel, pixel.1, pixel.2)]) ed in
  LevelEditor.handle_click x y ed = (None, None, ed') /\
  -12 <= x - pixel.1 <= 12 /\ -12 <= y - pixel.2 <= 12 /\
  (forall x' y',
     LevelEditor.pixel_to_cell x' y' = cell ->
     LevelEditor.handle_click x' y' ed'
     = (None, Some "Cannot stack items on same tile!", ed')).
Proof.
  intros Hsel Hpal cell pixel Hb Hfree Hs Hf ed'.
  assert (Hne : sel <> "").
  { intros ->. unfold LevelEditor.palette_keys in Hpal.
    repeat (apply elem_of_cons in Hpal as [Hpal|Hpal]; [done|]).
    by apply elem_of_nil in Hpal. }
  split; [|split; [|split]].
  - rewrite (handle_click_in_bounds x y ed sel) by done.
    fold cell. fold pixel. unfold LevelEditor.try_place. rewrite Hfree.
    assert (bool_decide (sel = "s") && LevelEditor.has_item "s" ed = false)
      as ->.
    { case_bool_decide; [by rewrite Hs|done]. }
    assert (bool_decide (sel = "f") && LevelEditor.has_item "f" ed = false)
      as ->.
    { case_bool_decide; [by rewrite Hf|done]. }
    by rewrite bool_decide_true.
  - pose proof (py_round_div_near x).
    unfold pixel, cell, LevelEditor.cell_to_pixel, LevelEditor.pixel_to_cell,
      Config.CELL_SIZE. cbn [fst snd]. lia.
  - pose proof (py_round_div_near y).
    unfold pixel, cell, LevelEditor.cell_to_pixel, LevelEditor.pixel_to_cell,
      Config.CELL_SIZE. cbn [fst snd]. lia.
  - intros x' y' Hcell.
    rewrite (handle_click_in_bounds x' y' ed' sel); [|done|done|by rewrite Hcell].
    rewrite Hcell. fold pixel. unfold LevelEditor.try_place.
    assert (LevelEditor.tile_occupied pixel ed' = true) as ->; [|done].
    unfold LevelEditor.tile_occupied, ed'. simpl.
    rewrite existsb_app. simpl. rewrite !Z.eqb_refl. simpl.
    by rewrite orb_true_r.
Qed.

Lemma accepted_click_snaps_witness :
  let ed := LevelEditor.mk (Some "t") [("m", 0, 0)] in
  let ed' := LevelEditor.mk (Some "t") [("m", 0, 0); ("t", 48, -24)] in
  LevelEditor.handle_click 50 (-30) ed = (None, None, ed') /\
  LevelEditor.handle_click 40 (-20) ed'
  = (None, Some "Cannot stack items on same tile!", ed').
Proof.
  intros ed ed'.
  assert (Hpal : "t" ∈ LevelEditor.palette_keys)
    by (by apply (bool_decide_unpack _)).
  destruct (accepted_click_snaps 50 (-30) ed "t" eq_refl Hpal
              eq_refl eq_refl) as (H1 & _ & _ & H2);
    [discriminate|discriminate|].
  split; [exact H1|]. apply (H2 40 (-20)). reflexivity.
Defined.

(** ** What level setup puts in the occupancy sets *)

Section setup_sets.
Import Game.
Implicit Types (g : Game.t) (lv : GameLevel.t) (draws : nat -> nat).

Lemma alloc_deref (st : gmap nat (gset Pos)) a :
  deref (alloc st).2 a = deref st a.
Proof.
  unfold alloc, deref. simpl.
  destruct (decide (fresh (dom st) = a)) as [<-|Hne].
  - rewrite lookup_insert_eq.
    assert (st !! fresh (dom st) = None) as ->; [|done].
    apply not_elem_of_dom, is_fresh.
  - by rewrite lookup_insert_ne.
Qed.

Lemma enemy_init_deref (p : Pos) (k : nat) (st : gmap nat (gset Pos)) a :
  deref (Enemy.init p k st).2 a = deref st a.
Proof.
  unfold Enemy.init.
  pose proof (alloc_deref st a) as H1.
  destruct (alloc st) as [w st1].
  pose proof (alloc_deref st1 a) as H2.
  destruct (alloc st1) as [tr st2]. simpl in *. congruence.
Qed.

Lemma setup_cell_bounded draws lv g0 r c ch g :
  GameLevel.walls lv <> GameLevel.treasure_positions lv ->
  cell_char (GameLevel.layout lv) r c = Some ch ->
  sets_bounded lv g0 g -> sets_bounded lv g0 (setup_cell draws r c ch g).
Proof.
  intros Hne Hch (Hl & Hw & Ht & Hwalls & Htreas).
  pose proof (get_screen_position_layout lv (level g)
                (Z.of_nat r) (Z.of_nat c) Hl) as Hpos.
  unfold setup_cell. rewrite Hpos, Hw, Ht.
  destruct (decide (ch = "X"%char)) as [->|].
  { split; [done|]. split; [done|]. split; [done|]. simpl. split; intros q.
    - rewrite deref_set_add, decide_True by done.
      intros [->%elem_of_singleton|Hq]%elem_of_union; [|by apply Hwalls].
      right. exists r, c, "X"%char. auto.
    - rewrite deref_set_add, decide_False by done. apply Htreas. }
  destruct (decide (ch = "P"%char)); [done|].
  destruct (decide (ch = "T"%char)) as [->|].
  { split; [done|]. split; [done|]. split; [done|]. simpl. split; intros q.
    - rewrite deref_set_add, decide_False by done. apply Hwalls.
    - rewrite deref_set_add, decide_True by done.
      intros [->%elem_of_singleton|Hq]%elem_of_union; [|by apply Htreas].
      right. by exists r, c. }
  destruct (decide (ch = "E"%char)).
  { pose proof (enemy_init_deref
                  (GameLevel.get_screen_position lv (Z.of_nat r) (Z.of_nat c))
                  (draws (length (GameLevel.enemies (level g)))) (sets g))
      as Hderef.
    destruct (Enemy.init _ _ _) as [en st]. simpl in Hderef.
    split; [done|]. split; [done|]. split; [done|]. simpl.
    split; intros q; rewrite Hderef; auto. }
  destruct (decide (ch = "S"%char)) as [->|].
  { simpl.
    destruct (GameLevel.player_spawn (level g));
      (split; [done|]; split; [done|]; split; [done|]; simpl; split; intros q;
       [rewrite deref_set_add, decide_True by done;
        intros [->%elem_of_singleton|Hq]%elem_of_union; [|by apply Hwalls];
        right; exists r, c, "S"%char; auto
       |rewrite deref_set_add, decide_False by done; apply Htreas]). }
  destruct (decide (ch = "F"%char)); done.
Qed.

Lemma setup_rows_bounded draws lv g0 g :
  GameLevel.walls lv <> GameLevel.treasure_positions lv ->
  sets_bounded lv g0 g ->
  sets_bounded lv g0
    (foldl (fun g1 '(row_idx, row) => setup_row draws row_idx row g1)
       g (enumerate (GameLevel.layout lv))).
Proof.
  intros Hne.
  apply (foldl_enumerate_inv_lookup (setup_row draws) (sets_bounded lv g0)).
  intros r row g1 Hrow. unfold setup_row.
  apply (foldl_enumerate_inv_lookup (setup_cell draws r) (sets_bounded lv g0)).
  intros c ch g2 Hch. apply setup_cell_bounded; [done|].
  unfold cell_char. rewrite Hrow. by simpl.
Qed.

#[local] Instance extends_is_preorder : PreOrder extends.
Proof.
  split.
  - intros g. do 3 (split; [reflexivity|]). split; [|by intros].
    intros a. reflexivity.
  - intros g1 g2 g3 (Hl & Hw & Ht & Hs & Hp) (Hl' & Hw' & Ht' & Hs' & Hp').
    split; [congruence|]. split; [congruence|]. split; [congruence|].
    split; [|by auto]. intros a. etrans; [apply Hs|apply Hs'].
Qed.

Lemma setup_cell_marked draws r c ch g :
  cell_marked r c ch (setup_cell draws r c ch g).
Proof.
  split.
  - intros [-> | ->]; [|apply setup_cell_start].
    unfold setup_cell, cell_in. simpl. apply elem_of_set_add.
  - intros ->. apply setup_cell_treasure.
Qed.

Lemma cell_marked_extends r c ch g g' :
  extends g g' -> cell_marked r c ch g -> cell_marked r c ch g'.
Proof.
  intros Hext [Hw Ht]. split; intros Hch.
  - eapply cell_in_extends; [by left|done|by apply Hw].
  - eapply cell_in_extends; [by right|done|by apply Ht].
Qed.

Lemma setup_rows_marked draws lay g :
  let g' := foldl (fun g1 '(row_idx, row) => setup_row draws row_idx row g1)
              g (enumerate lay) in
  forall r c ch, cell_char lay r c = Some ch -> cell_marked r c ch g'.
Proof.
  intros g'.
  destruct (foldl_enumerate_established (setup_row draws) extends
              (fun r row s =>
                 forall c ch, list_ascii_of_string row !! c = Some ch ->
                   cell_marked r c ch s)) with (l := lay) (s := g)
    as [_ Hdone].
  - intros. apply setup_row_done.
  - intros r row s. unfold setup_row.
    apply (foldl_enumerate_established (setup_cell draws r) extends
             (cell_marked r)).
    + intros. apply setup_cell_extends.
    + intros. apply setup_cell_marked.
    + intros. by eapply cell_marked_extends.
  - intros r row s s' Hext Hrow c ch Hch.
    eapply cell_marked_extends; [done|by apply Hrow].
  - intros r c ch Hch. unfold cell_char in Hch.
    destruct (lay !! r) as [row|] eqn:Hrow; [|done]. simpl in Hch.
    by apply (Hdone r row Hrow c ch).
Qed.

End setup_sets.

(** When a level whose two occupancy sets are distinct objects is set up,
    its wall set holds afterwards what it held before and the screen
    positions of the ['X'] and ['S'] cells of the layout, and nothing
    else; its treasure set what it held before and the positions of the
    ['T'] cells, and nothing else. *)
Theorem setup_fills_sets
    (draws : nat -> nat) (lv : GameLevel.t) (g0 : Game.t) (q : Pos) :
  GameLevel.walls lv <> GameLevel.treasure_positions lv ->
  let g1 := Game.setup_level draws lv g0 in
  (q ∈ deref (Game.sets g1) (GameLevel.walls lv) <->
   q ∈ deref (Game.sets g0) (GameLevel.walls lv) \/ wall_cell lv q) /\
  (q ∈ deref (Game.sets g1) (GameLevel.treasure_positions lv) <->
   q ∈ deref (Game.sets g0) (GameLevel.treasure_positions lv)
   \/ treasure_cell lv q).
Proof.
  intros Hne g1. unfold g1, Game.setup_level.
  set (gs := Game.set_player Player.init (Game.set_level lv g0)).
  set (gl := foldl _ gs _). simpl.
  assert (Hb : sets_bounded lv g0 gl).
  { apply setup_rows_bounded; [done|].
    do 3 (split; [done|]). split; intros q'; by left. }
  destruct Hb as (Hl & Hw & Ht & Hwalls & Htreas).
  destruct (setup_rows_done draws (GameLevel.layout lv) gs)
    as [(_ & _ & _ & Hgrow & _) _]. fold gl in Hgrow.
  pose proof (setup_rows_marked draws (GameLevel.layout lv) gs) as Hm.
  fold gl in Hm. simpl in Hm.
  split; (split; [by auto|]).
  - intros [Hq|(r & c & ch & Hch & Hkind & ->)]; [by apply (Hgrow _)|].
    destruct (Hm r c ch Hch) as [Hin _]. specialize (Hin Hkind).
    unfold Game.cell_in in Hin.
    by rewrite (get_screen_position_layout lv _ _ _ Hl), Hw in Hin.
  - intros [Hq|(r & c & Hch & ->)]; [by apply (Hgrow _)|].
    destruct (Hm r c _ Hch) as [_ Hin]. specialize (Hin eq_refl).
    unfold Game.cell_in in Hin.
    by rewrite (get_screen_position_layout lv _ _ _ Hl), Ht in Hin.
Qed.

Lemma setup_fills_sets_witness :
  let lv := GameLevel.mk ["XSX"; "XTF"; "XXX"] 0 [] 1 [] None None None [] in
  let g0 := Game.mk ∅ Player.init lv 0 false false false in
  let g1 := Game.setup_level (fun _ => 0%nat) lv g0 in
  (0, 24) ∉ deref (Game.sets g1) (GameLevel.walls lv).
Proof.
  intros lv g0 g1 Hin.
  apply (proj1 (setup_fills_sets (fun _ => 0%nat) lv g0 (0, 24)
                  ltac:(discriminate))) in Hin.
  destruct Hin as [Hin|(r & c & ch & Hch & Hkind & Hq)].
  - by apply not_elem_of_empty in Hin.
  - destruct r as [|[|[|r]]]; [| | |done];
      (destruct c as [|[|[|c]]]; [| | |done]);
      simpl in Hch; injection Hch as <-;
      first [discriminate Hq | by destruct Hkind].
Defined.

(** ** The player at the start of a level *)

Section level_start.
Import Game.
Implicit Types (g : Game.t) (lv : GameLevel.t) (draws : nat -> nat).

#[local] Instance keeps_spawn_preorder : PreOrder keeps_spawn.
Proof.
  split.
  - by intros g.
  - intros g1 g2 g3 [H1 H2] [H1' H2']. split; auto.
Qed.

Lemma setup_cell_player draws r c ch g :
  fresh_player (player g) -> fresh_player (player (setup_cell draws r c ch g)).
Proof.
  intros Hp. unfold setup_cell.
  destruct (decide (ch = "X"%char)); [done|].
  destruct (decide (ch = "P"%char)); [done|].
  destruct (decide (ch = "T"%char)); [done|].
  destruct (decide (ch = "E"%char)); [by destruct (Enemy.init _ _ _)|].
  destruct (decide (ch = "S"%char)).
  { simpl. by destruct (GameLevel.player_spawn (level g)). }
  by destruct (decide (ch = "F"%char)).
Qed.

Lemma setup_cell_keeps_spawn draws r c ch g :
  keeps_spawn g (setup_cell draws r c ch g).
Proof.
  unfold setup_cell, keeps_spawn, on_spawn.
  destruct (decide (ch = "X"%char)); [done|].
  destruct (decide (ch = "P"%char)).
  { simpl. split; [|by eauto]. by intros _ sp [= <-]. }
  destruct (decide (ch = "T"%char)); [done|].
  destruct (decide (ch = "E"%char)); [by destruct (Enemy.init _ _ _)|].
  destruct (decide (ch = "S"%char)).
  { simpl. destruct (GameLevel.player_spawn (level g)) eqn:Hsp; simpl.
    - by rewrite Hsp.
    - split; [|by eauto]. by intros _ sp [= <-]. }
  by destruct (decide (ch = "F"%char)).
Qed.

Lemma setup_cell_player_mark draws r c g :
  on_spawn (setup_cell draws r c "P" g) /\
  is_Some (GameLevel.player_spawn (level (setup_cell draws r c "P" g))).
Proof.
  unfold setup_cell, on_spawn. simpl. split; [|by eauto].
  by intros sp [= <-].
Qed.

Lemma setup_rows_player draws lay g :
  fresh_player (player g) ->
  fresh_player
    (player (foldl (fun g1 '(row_idx, row) => setup_row draws row_idx row g1)
               g (enumerate lay))).
Proof.
  apply (foldl_enumerate_inv (setup_row draws)
           (fun g1 => fresh_player (player g1)) (fun _ => True));
    [|by apply Forall_true].
  intros r row g1 _. unfold setup_row.
  apply (foldl_enumerate_inv (setup_cell draws r)
           (fun g2 => fresh_player (player g2)) (fun _ => True));
    [|by apply Forall_true].
  intros c ch g2 _. apply setup_cell_player.
Qed.

Lemma setup_rows_spawn draws lay g :
  let g' := foldl (fun g1 '(row_idx, row) => setup_row draws row_idx row g1)
              g (enumerate lay) in
  keeps_spawn g g' /\
  forall r c, cell_char lay r c = Some "P"%char ->
    on_spawn g' /\ is_Some (GameLevel.player_spawn (level g')).
Proof.
  intros g'.
  assert (Hrow : forall r row s,
    keeps_spawn s (setup_row draws r row s) /\
    forall c ch, list_ascii_of_string row !! c = Some ch ->
      ch = "P"%char ->
      on_spawn (setup_row draws r row s) /\
      is_Some (GameLevel.player_spawn (level (setup_row draws r row s)))).
  { intros r row s. unfold setup_row.
    apply (foldl_enumerate_established (setup_cell draws r) keeps_spawn
             (fun c ch s' =>
                ch = "P"%char ->
                on_spawn s' /\ is_Some (GameLevel.player_spawn (level s')))).
    - intros. apply setup_cell_keeps_spawn.
    - intros c ch s' ->. apply setup_cell_player_mark.
    - intros c ch s1 s2 [K1 K2] H Hch. destruct (H Hch). split; auto. }
  destruct (foldl_enumerate_established (setup_row draws) keeps_spawn
              (fun r row s =>
                 forall c ch, list_ascii_of_string row !! c = Some ch ->
                   ch = "P"%char ->
                   on_spawn s /\ is_Some (GameLevel.player_spawn (level s))))
    with (l := lay) (s := g) as [Hkeep Hdone].
  - intros r row s. apply (proj1 (Hrow r row s)).
  - intros r row s. apply (proj2 (Hrow r row s)).
  - intros r row s1 s2 [K1 K2] H c ch Hc Hch.
    destruct (H c ch Hc Hch). split; auto.
  - split; [exact Hkeep|]. intros r c Hch. unfold cell_char in Hch.
    destruct (lay !! r) as [row|] eqn:Hr; [|done]. simpl in Hch.
    by apply (Hdone r row Hr c _ Hch).
Qed.

(** Without ['P'] a spawn recorded before the setup stays, and the
    player stays where it is. *)
Lemma setup_rows_stale_spawn draws lay g sp (q : Pos) :
  no_player_mark lay ->
  GameLevel.player_spawn (level g) = Some sp /\ Player.pos (player g) = q ->
  let g' := foldl (fun g1 '(row_idx, row) => setup_row draws row_idx row g1)
              g (enumerate lay) in
  GameLevel.player_spawn (level g') = Some sp /\ Player.pos (player g') = q.
Proof.
  intros Hno Hg. revert Hno Hg.
  apply (foldl_enumerate_inv (setup_row draws)
           (fun g1 => GameLevel.player_spawn (level g1) = Some sp /\
                      Player.pos (player g1) = q)
           (fun row => Forall (fun ch => ch <> "P"%char)
                         (list_ascii_of_string row))).
  intros r row g1. unfold setup_row.
  apply (foldl_enumerate_inv (setup_cell draws r)
           (fun g2 => GameLevel.player_spawn (level g2) = Some sp /\
                      Player.pos (player g2) = q)
           (fun ch => ch <> "P"%char)).
  intros c ch g2 HP [Hsp Hpos]. unfold setup_cell.
  destruct (decide (ch = "X"%char)); [done|].
  destruct (decide (ch = "P"%char)); [done|].
  destruct (decide (ch = "T"%char)); [done|].
  destruct (decide (ch = "E"%char)); [by destruct (Enemy.init _ _ _)|].
  destruct (decide (ch = "S"%char)); [simpl; by rewrite Hsp|].
  by destruct (decide (ch = "F"%char)).
Qed.

End level_start.

(** [setup_level] starts the level with a new player (no history, no
    gold, neither auto nor reverse) and the three button flags down. The
    player stands on the recorded spawn when the layout has a ['P'], or
    has an ['S'] and the level had no spawn recorded; in a level without
    ['P'] that comes with a spawn recorded, the spawn stays and the new
    player is left at the origin. *)
Theorem setup_starts_on_spawn
    (draws : nat -> nat) (lv : GameLevel.t) (g0 : Game.t) :
  let g1 := Game.setup_level draws lv g0 in
  fresh_player (Game.player g1) /\
  (Game.auto_mode g1 = false /\ Game.create_mode g1 = false /\
   Game.return_to_menu g1 = false) /\
  ((exists r c, Game.cell_char (GameLevel.layout lv) r c = Some "P"%char)
   \/ (GameLevel.player_spawn lv = None /\
       exists r c, Game.cell_char (GameLevel.layout lv) r c = Some "S"%char) ->
   GameLevel.player_spawn (Game.level g1)
   = Some (Player.pos (Game.player g1))) /\
  (forall sp, GameLevel.player_spawn lv = Some sp ->
     Game.no_player_mark (GameLevel.layout lv) ->
     GameLevel.player_spawn (Game.level g1) = Some sp /\
     Player.pos (Game.player g1) = (0, 0)).
Proof.
  intros g1.
  pose proof (setup_level_facts draws lv g0) as Hfacts.
  cbv zeta in Hfacts. fold g1 in Hfacts.
  destruct Hfacts as (_ & _ & _ & Hdone & _).
  unfold g1, Game.setup_level in *.
  set (gs := Game.set_player Player.init (Game.set_level lv g0)) in *.
  set (gl := foldl _ gs _) in *. simpl in *.
  split; [by apply setup_rows_player|]. split; [done|].
  destruct (setup_rows_spawn draws (GameLevel.layout lv) gs)
    as [[Hon Hsome] Hmark]. fold gl in Hon, Hsome, Hmark.
  split.
  - intros [(r & c & Hch)|[Hnone (r & c & Hch)]].
    + destruct (Hmark r c Hch) as [Hpos [sp Hsp]].
      rewrite Hsp. f_equal. symmetry. by apply Hpos.
    + destruct (Hdone r c _ Hch) as [[_ [sp Hsp]] _]; [done|].
      simpl in Hsp. rewrite Hsp. f_equal. symmetry. apply Hon; [|done].
      intros sp'. simpl. by rewrite Hnone.
  - intros sp Hsp Hno.
    by apply (setup_rows_stale_spawn draws (GameLevel.layout lv) gs sp (0, 0)).
Qed.

Lemma setup_starts_on_spawn_witness :
  let lv := GameLevel.mk ["XSX"; "X.F"; "XXX"] 0 [] 1 [] None None
              (Some (-24, 48)) [] in
  let g0 := Game.mk ∅ Player.init lv 0 false false false in
  Player.pos (Game.player (Game.setup_level (fun _ => 0%nat) lv g0)) = (0, 0).
Proof.
  intros lv g0.
  apply (proj2 (proj2 (proj2 (setup_starts_on_spawn (fun _ => 0%nat) lv g0)))
           (-24, 48) eq_refl).
  repeat constructor; done.
Defined.

(** ** The chase *)

Lemma sq_abs_le (a a' : Z) : Z.abs a' <= Z.abs a -> a' ^ 2 <= a ^ 2.
Proof.
  intros H. rewrite !Z.pow_2_r, <- (Z.abs_square a), <- (Z.abs_square a').
  apply Z.mul_le_mono_nonneg; lia.
Qed.

Lemma sq_closer (a b a' b' c : Z) :
  Z.abs a' <= Z.abs a -> Z.abs b' <= Z.abs b ->
  a ^ 2 + b ^ 2 < c -> a' ^ 2 + b' ^ 2 < c.
Proof. intros Ha Hb H. apply sq_abs_le in Ha, Hb. lia. Qed.

(** An enemy that has the player within its detection radius, whole cells
    away in each coordinate, either stays where it is, drawing a new
    heading, or steps in the heading of the chase; the step brings it one
    cell closer to the player (in the sum of the two coordinate
    distances) unless it stood on the player; and in each case it still
    has the player within the radius afterwards. *)
Theorem chase_closes_in
    (st : store) (player : Player.t) (k : nat) (e : Enemy.t) (m n : Z) :
  Enemy.player_ref e = true -> Enemy.is_active e = true ->
  Enemy._is_close_to_player player e = true ->
  (Player.pos player).1 - (Enemy.pos e).1 = Config.CELL_SIZE * m ->
  (Player.pos player).2 - (Enemy.pos e).2 = Config.CELL_SIZE * n ->
  let e' := Enemy.move st player k e in
  let dist := fun q : Pos =>
    Z.abs ((Player.pos player).1 - q.1)
    + Z.abs ((Player.pos player).2 - q.2) in
  ((Enemy.pos e' = Enemy.pos e /\
    Enemy.current_direction e' = random_choice k)
   \/ (Enemy.pos e' = step_from (Enemy.pos e) (Enemy.chase_heading player e)
       /\ (Enemy.pos e <> Player.pos player ->
           dist (Enemy.pos e') = dist (Enemy.pos e) - Config.CELL_SIZE))) /\
  Enemy._is_close_to_player player e' = true.
Proof.
  intros Hr Ha Hc Hm Hn e' dist. unfold e'.
  rewrite move_when_close by done.
  unfold Enemy._is_close_to_player in *. rewrite Hr in Hc. simpl in Hc.
  unfold distance_lt in Hc. apply bool_decide_eq_true in Hc.
  unfold Config.PLAYER_DETECTION_RADIUS, Config.CELL_SIZE in *.
  unfold Enemy._try_move. simpl.
  destruct (bool_decide _ && bool_decide _); simpl; rewrite Hr; simpl.
  2:{ split; [by left|]. unfold distance_lt. by apply bool_decide_eq_true. }
  destruct (Player.pos player) as [px py] eqn:Hp.
  destruct (Enemy.pos e) as [ex ey] eqn:He. simpl in *.
  unfold Enemy.chase_heading, dist. rewrite Hp, He. simpl.
  rewrite !Z.gtb_ltb.
  destruct (Z.ltb_spec px ex); [|destruct (Z.ltb_spec ex px);
    [|destruct (Z.ltb_spec py ey); [|destruct (Z.ltb_spec ey py)]]];
    unfold step_from, dx, dy; simpl.
  1-4: split; [right; split; [done|intros _; lia]
              |unfold distance_lt; apply bool_decide_eq_true; simpl;
               apply (sq_closer (ex - px) (ey - py)); [lia|lia|done]].
  split.
  - right. split; [done|]. intros Hne. destruct Hne. f_equal; lia.
  - unfold distance_lt. apply bool_decide_eq_true. simpl.
    assert (ex = px) as -> by lia. assert (ey = py) as -> by lia.
    destruct (Enemy.current_direction e); simpl; lia.
Qed.

Lemma chase_closes_in_witness :
  let e := Enemy.mk (48, 0) 25 UP 0%nat 1%nat true true in
  let player := Player.goto (0, 24) Player.init in
  Enemy._is_close_to_player player (Enemy.move ∅ player 0 e) = true.
Proof.
  intros e player.
  apply (proj2 (chase_closes_in ∅ player 0 e (-2) 1
                  eq_refl eq_refl eq_refl eq_refl eq_refl)).
Defined.
